(** * SHURIUM consensus core: a shallow embedding and its verification

    The development follows two translation units of the node:

    - [src/consensus/pouw.cpp]: block subsidy and reward split,
      compact-target arithmetic, proof-of-work check, difficulty adjustment,
      the PoUW commitment check and the check of a solution (module
      [Consensus]);
    - the UBI implementation ([economics/ubi.cpp]): claims and their format,
      epoch pools, the distributor, claim processing, the persistent format
      and the claim outputs (module [UBI]).

    Fixed-width C++ integers are integers of [Z] whose wrap-around is written
    where an operation can leave the width; byte arrays are lists of [Z];
    [std::map] and [std::set] are [gmap] and [gset]. *)

From stdpp Require Import gmap strings list fin_maps sorting.
From coqutil Require Import Z.bitblast.

Local Open Scope Z_scope.

(** ** Machine integers *)

(** [static_cast<uint32_t>] and arithmetic modulo [2^32]. *)
Definition u32 (z : Z) : Z := z mod 2 ^ 32.

(** [static_cast<uint64_t>] and arithmetic modulo [2^64]. *)
Definition u64 (z : Z) : Z := z mod 2 ^ 64.

(** Two's-complement reading of the low 64 bits: the value of an [int64_t]
    that holds those bits. *)
Definition i64 (z : Z) : Z := (z + 2 ^ 63) mod 2 ^ 64 - 2 ^ 63.

(** Two's-complement reading of the low 32 bits ([int], [int32_t]). *)
Definition i32 (z : Z) : Z := (z + 2 ^ 31) mod 2 ^ 32 - 2 ^ 31.

(** [static_cast<uint8_t>]. *)
Definition u8 (z : Z) : Z := z mod 2 ^ 8.

(** ** Byte arrays *)

(** [a[i]] on a byte array; the arrays of the sources are indexed in range,
    outside of it the model reads 0. *)
Definition byte_at (a : list Z) (i : nat) : Z := default 0 (a !! i).

(** A well-formed [Hash256]: 32 bytes, each in [0, 256). It is stored
    little-endian: byte 0 is the least significant. *)
Definition wf_hash (h : list Z) : Prop :=
  length h = 32%nat ∧ Forall (λ b, 0 ≤ b < 256) h.

(** [Hash256::SetNull]: thirty-two zero bytes. *)
Definition null_hash : list Z := replicate 32 0.

(** The 256-bit integer a little-endian byte array stands for. *)
Fixpoint le_value (h : list Z) : Z :=
  match h with
  | [] => 0
  | b :: r => b + 256 * le_value r
  end.

(** The integer a byte array stands for when byte 0 is the most
    significant. *)
Definition be_value (h : list Z) : Z := le_value (rev h).

Module Consensus.

(** The consensus parameters read by [pouw.cpp] ([consensus/params.h]).
    [DifficultyAdjustmentInterval] holds the value of the method of that
    name. *)
Record Params := mkParams {
  nInitialBlockReward : Z;
  nSubsidyHalvingInterval : Z;
  nPowTargetSpacing : Z;
  nPowTargetTimespan : Z;
  DifficultyAdjustmentInterval : Z;
  powLimit : list Z;
  fPowNoRetargeting : bool;
  fAllowMinDifficultyBlocks : bool;
  fPoUWOptional : bool
}.

(** *** Block subsidy *)

(** [GetBlockSubsidy]: [/] on [int] truncates ([Z.quot]); [>>=] on the signed
    [Amount] is the arithmetic shift ([Z.shiftr]). *)
Definition GetBlockSubsidy (nHeight : Z) (params : Params) : Z :=
  if nHeight =? 0 then nInitialBlockReward params
  else
    let halvings := Z.quot nHeight (nSubsidyHalvingInterval params) in
    if halvings >=? 64 then 0
    else Z.shiftr (nInitialBlockReward params) halvings.

(** The coins issued by the blocks at heights [0 .. n-1]. *)
Fixpoint total_subsidy (n : nat) (params : Params) : Z :=
  match n with
  | O => 0
  | S k => total_subsidy k params + GetBlockSubsidy (Z.of_nat k) params
  end.

(** *** Reward split *)

(** The reward percentages of [Params] that the reward split reads. *)
Record RewardShares := mkRewardShares {
  nUBIPercentage : Z;
  nWorkRewardPercentage : Z;
  nContributionRewardPercentage : Z;
  nEcosystemPercentage : Z;
  nStabilityReservePercentage : Z
}.

(** [(blockReward * percentage) / 100] on the 64-bit [Amount]: the product
    wraps, the division truncates. *)
Definition reward_share (blockReward percentage : Z) : Z :=
  Z.quot (i64 (blockReward * percentage)) 100.

Definition CalculateUBIReward (blockReward : Z) (params : RewardShares) : Z :=
  reward_share blockReward (nUBIPercentage params).

Definition CalculateWorkReward (blockReward : Z) (params : RewardShares) : Z :=
  reward_share blockReward (nWorkRewardPercentage params).

Definition CalculateContributionReward (blockReward : Z) (params : RewardShares) : Z :=
  reward_share blockReward (nContributionRewardPercentage params).

Definition CalculateEcosystemReward (blockReward : Z) (params : RewardShares) : Z :=
  reward_share blockReward (nEcosystemPercentage params).

Definition CalculateStabilityReserve (blockReward : Z) (params : RewardShares) : Z :=
  reward_share blockReward (nStabilityReservePercentage params).

(** *** Compact targets *)

(** [CompactToBig]: the three mantissa bytes are stored at [size-3 ..
    size-1]; a set sign bit or a size above 34 gives the null target, and so
    does a position above 29. *)
Definition CompactToBig (nCompact : Z) : list Z :=
  let target := null_hash in
  let size := Z.land (Z.shiftr nCompact 24) 0xFF in
  let word := Z.land nCompact 0x007FFFFF in
  if negb (Z.land nCompact 0x00800000 =? 0) then target
  else if size >? 34 then target
  else if size <=? 3 then
    let word := Z.shiftr word (8 * (3 - size)) in
    let target := <[0%nat := Z.land word 0xFF]> target in
    let target := <[1%nat := Z.land (Z.shiftr word 8) 0xFF]> target in
    let target := <[2%nat := Z.land (Z.shiftr word 16) 0xFF]> target in
    target
  else
    let pos := size - 3 in
    if pos <=? 29 then
      let target := <[Z.to_nat pos := Z.land word 0xFF]> target in
      let target :=
        if pos + 1 <? 32
        then <[Z.to_nat (pos + 1) := Z.land (Z.shiftr word 8) 0xFF]> target
        else target in
      let target :=
        if pos + 2 <? 32
        then <[Z.to_nat (pos + 2) := Z.land (Z.shiftr word 16) 0xFF]> target
        else target in
      target
    else target.

(** The scan [for (i = n-1; i >= 0; --i) if (target[i] != 0) { msb_pos = i;
    break; }]; [None] stands for [msb_pos = -1]. *)
Fixpoint find_msb (target : list Z) (n : nat) : option nat :=
  match n with
  | O => None
  | S i => if byte_at target i =? 0 then find_msb target i else Some i
  end.

(** The loop [for (i = n-1; i >= 0; --i) word = (word << 8) | target[i]]
    on a [uint32_t]. *)
Fixpoint pack_low (target : list Z) (n : nat) (word : Z) : Z :=
  match n with
  | O => word
  | S i => pack_low target i (Z.lor (u32 (Z.shiftl word 8)) (byte_at target i))
  end.

(** [BigToCompact]. Only the branch for more than three bytes moves a set
    sign bit into the size. *)
Definition BigToCompact (target : list Z) : Z :=
  match find_msb target 32 with
  | None => 0
  | Some msb_pos =>
    let size := Z.of_nat msb_pos + 1 in
    if size <=? 3 then
      let word := pack_low target (Z.to_nat size) 0 in
      let word := u32 (Z.shiftl word (8 * (3 - size))) in
      Z.lor (Z.shiftl size 24) word
    else
      let word :=
        Z.lor (Z.lor (Z.shiftl (byte_at target msb_pos) 16)
                     (Z.shiftl (byte_at target (msb_pos - 1)) 8))
              (byte_at target (msb_pos - 2)) in
      if negb (Z.land word 0x00800000 =? 0)
      then Z.lor (Z.shiftl (size + 1) 24) (Z.shiftr word 8)
      else Z.lor (Z.shiftl size 24) word
  end.

(** The fields of a compact value: the size in the high byte, the 23-bit
    mantissa, and the sign flag [0x00800000] between them. *)
Definition compact_size (c : Z) : Z := Z.land (Z.shiftr c 24) 0xFF.
Definition compact_mantissa (c : Z) : Z := Z.land c 0x007FFFFF.

(** A canonical compact value, after the spec's words (no mantissa that
    could be shrunk): the sign flag is clear; the mantissa cannot move up
    one byte, with the size lowered by one, without reaching the sign flag
    ([0x008000 ≤ mantissa]); and a size below 3 shifts no set bit out of
    the mantissa. *)
Definition canonical (c : Z) : Prop :=
  0 ≤ c < 2 ^ 32
  ∧ Z.land c 0x00800000 = 0
  ∧ 0x008000 ≤ compact_mantissa c
  ∧ (compact_size c < 3 →
     compact_mantissa c mod 2 ^ (8 * (3 - compact_size c)) = 0).

(** Three bytes stored at [pos], [pos+1] and [pos+2] of a null hash: the
    shape of every target that [CompactToBig] returns. *)
Definition bytes3 (pos : nat) (d0 d1 d2 : Z) : list Z :=
  <[(pos + 2)%nat := d2]> (<[(pos + 1)%nat := d1]> (<[pos := d0]> null_hash)).

(** The loop that compares a target with [powLimit] from byte [n-1] down:
    [true] when the target is the larger one. *)
Fixpoint exceeds_limit (target limit : list Z) (n : nat) : bool :=
  match n with
  | O => false
  | S i =>
    if byte_at target i >? byte_at limit i then true
    else if byte_at target i <? byte_at limit i then false
    else exceeds_limit target limit i
  end.

(** Modelled from the spec: [Hash256::operator<] (declared in a header that
    is not part of the sources) is unsigned integer comparison in
    little-endian byte order, decided at the most significant byte that
    differs. *)
Fixpoint Hash256_lt_from (a b : list Z) (n : nat) : bool :=
  match n with
  | O => false
  | S i =>
    if byte_at a i <? byte_at b i then true
    else if byte_at a i >? byte_at b i then false
    else Hash256_lt_from a b i
  end.

Definition Hash256_lt (a b : list Z) : bool := Hash256_lt_from a b 32.

(** [CheckProofOfWork]. *)
Definition CheckProofOfWork (hash : list Z) (nBits : Z) (params : Params) : bool :=
  if nBits =? 0 then false
  else
    let target := CompactToBig nBits in
    let targetExceedsLimit := exceeds_limit target (powLimit params) 32 in
    if targetExceedsLimit then false
    else Hash256_lt hash target.

(** *** Difficulty adjustment *)

(** [BlockIndex]: a node of the chain index with its back pointer
    ([pprev == nullptr] is [None]). *)
#[warnings="-register-all"]
Inductive BlockIndex := mkBlockIndex {
  nHeight : Z;
  nTime : Z;
  nBits : Z;
  pprev : option BlockIndex
}.

Definition GetBlockTime (pindex : BlockIndex) : Z := nTime pindex.

(** The part of [BlockHeader] the difficulty rule reads. *)
Record BlockHeader := mkBlockHeader { header_nTime : Z }.

(** [while (nScaledMantissa > 0x007FFFFF) { nScaledMantissa >>= 8;
    nExponent++; }]: a 64-bit value leaves the loop within eight rounds. *)
Fixpoint shrink_mantissa (fuel : nat) (m e : Z) : Z * Z :=
  match fuel with
  | O => (m, e)
  | S fuel' =>
    if m >? 0x007FFFFF then shrink_mantissa fuel' (Z.shiftr m 8) (e + 1)
    else (m, e)
  end.

(** [while (nScaledMantissa < 0x008000 && nExponent > 1) { nScaledMantissa
    <<= 8; nExponent--; }]: the exponent bounds the number of rounds. *)
Fixpoint grow_mantissa (fuel : nat) (m e : Z) : Z * Z :=
  match fuel with
  | O => (m, e)
  | S fuel' =>
    if (m <? 0x008000) && (e >? 1)
    then grow_mantissa fuel' (u64 (Z.shiftl m 8)) (e - 1)
    else (m, e)
  end.

(** [CalculateNextWorkRequired]. The expanded old target [bnNew] is computed
    by the source and never read; the scaling is done on the compact form. *)
Definition CalculateNextWorkRequired
    (pindexLast : BlockIndex) (nFirstBlockTime : Z) (params : Params) : Z :=
  if fPowNoRetargeting params then nBits pindexLast
  else
    let nActualTimespan := GetBlockTime pindexLast - nFirstBlockTime in
    let nTargetTimespan := nPowTargetTimespan params in
    let nActualTimespan :=
      if nActualTimespan <? Z.quot nTargetTimespan 4
      then Z.quot nTargetTimespan 4 else nActualTimespan in
    let nActualTimespan :=
      if nActualTimespan >? nTargetTimespan * 4
      then nTargetTimespan * 4 else nActualTimespan in
    let nOldBits := nBits pindexLast in
    let nExponent := Z.land (Z.shiftr nOldBits 24) 0xFF in
    let nMantissa := Z.land nOldBits 0x007FFFFF in
    let nScaledMantissa := u64 (u64 nMantissa * u64 nActualTimespan) in
    let nScaledMantissa := nScaledMantissa / u64 nTargetTimespan in
    let '(nScaledMantissa, nExponent) :=
      shrink_mantissa 8 nScaledMantissa nExponent in
    let '(nScaledMantissa, nExponent) :=
      grow_mantissa (Z.to_nat nExponent) nScaledMantissa nExponent in
    let nExponent := if nExponent >? 32 then 32 else nExponent in
    let nExponent := if nExponent <? 1 then 1 else nExponent in
    let nNewBits :=
      Z.lor (u32 (Z.shiftl nExponent 24))
            (Z.land (u32 nScaledMantissa) 0x007FFFFF) in
    let nNewBits :=
      if negb (Z.land nScaledMantissa 0x00800000 =? 0)
      then u32 (Z.lor (Z.shiftl (nExponent + 1) 24)
                      (Z.land (Z.shiftr nScaledMantissa 8) 0x007FFFFF))
      else nNewBits in
    let newTarget := CompactToBig nNewBits in
    let exceedsLimit := exceeds_limit newTarget (powLimit params) 32 in
    if exceedsLimit then BigToCompact (powLimit params) else nNewBits.

(** The walk of the min-difficulty rule: [while (pindex->pprev != nullptr &&
    pindex->nHeight % interval != 0 && pindex->nBits == limit) pindex =
    pindex->pprev;] followed by [return pindex->nBits]. *)
Fixpoint last_non_min_difficulty_bits (interval limit : Z) (pindex : BlockIndex) : Z :=
  match pprev pindex with
  | Some prev =>
    if negb (Z.rem (nHeight pindex) interval =? 0) && (nBits pindex =? limit)
    then last_non_min_difficulty_bits interval limit prev
    else nBits pindex
  | None => nBits pindex
  end.

(** [for (i = 0; pindexFirst && i < n; ++i) pindexFirst = pindexFirst->pprev]. *)
Fixpoint step_back (n : nat) (pindex : option BlockIndex) : option BlockIndex :=
  match n, pindex with
  | S n', Some p => step_back n' (pprev p)
  | _, _ => pindex
  end.

(** [GetNextWorkRequired(pindexLast, pblock, params)]; [None] is a null
    pointer. [heightFirst] of the source is computed and never read. *)
Definition GetNextWorkRequired
    (pindexLast : option BlockIndex) (pblock : option BlockHeader)
    (params : Params) : Z :=
  match pindexLast with
  | None => BigToCompact (powLimit params)
  | Some last =>
    if fPowNoRetargeting params then nBits last
    else
      let difficultyAdjustmentInterval := DifficultyAdjustmentInterval params in
      let nextHeight := nHeight last + 1 in
      match fAllowMinDifficultyBlocks params, pblock with
      | true, Some block =>
        let blockTime := header_nTime block in
        let prevTime := GetBlockTime last in
        if blockTime >? prevTime + nPowTargetSpacing params * 2
        then BigToCompact (powLimit params)
        else last_non_min_difficulty_bits difficultyAdjustmentInterval
               (BigToCompact (powLimit params)) last
      | _, _ =>
        if negb (Z.rem nextHeight difficultyAdjustmentInterval =? 0)
        then nBits last
        else
          match step_back (Z.to_nat (i32 difficultyAdjustmentInterval - 1))
                          (Some last) with
          | None => nBits last
          | Some first =>
            CalculateNextWorkRequired last (GetBlockTime first) params
          end
      end
  end.

(** The one-argument overload. *)
Definition GetNextWorkRequired1 (pindexLast : option BlockIndex) (params : Params) : Z :=
  GetNextWorkRequired pindexLast None params.

(** The chain seen from a block: the block, then its ancestors. *)
Fixpoint ancestors (pindex : BlockIndex) : list BlockIndex :=
  pindex :: match pprev pindex with
            | Some prev => ancestors prev
            | None => []
            end.

(** The chain that grows on [pindex] when each of the next [n] blocks
    arrives one target spacing after its parent and carries the [nBits]
    that [GetNextWorkRequired] gives for it. *)
Fixpoint timely_chain (params : Params) (n : nat) (pindex : BlockIndex) : BlockIndex :=
  match n with
  | O => pindex
  | S n' =>
    let last := timely_chain params n' pindex in
    let time := GetBlockTime last + nPowTargetSpacing params in
    mkBlockIndex (nHeight last + 1) time
      (GetNextWorkRequired (Some last) (Some (mkBlockHeader time)) params)
      (Some last)
  end.

(** *** PoUW commitment *)

(** The parts of a transaction and of a block that [VerifyUsefulWork]
    reads; scripts are byte strings. *)
Record TxIn := mkTxIn { scriptSig : list Z }.
Record TxOut := mkTxOut { scriptPubKey : list Z }.
Record Transaction := mkTransaction { vin : list TxIn; vout : list TxOut }.
Record Block := mkBlock { hashPrevBlock : list Z; vtx : list Transaction }.

(** ["SHRW"]. *)
Definition POUW_COMMITMENT_MAGIC : list Z := [0x53; 0x48; 0x52; 0x57].
Definition POUW_COMMITMENT_MAGIC_SIZE : nat := 4.
Definition POUW_COMMITMENT_HASH_SIZE : nat := 32.
Definition POUW_COMMITMENT_MIN_SIZE : nat :=
  (POUW_COMMITMENT_MAGIC_SIZE + POUW_COMMITMENT_HASH_SIZE)%nat.

(** [memcmp(script + i, POUW_COMMITMENT_MAGIC, 4) == 0]. *)
Definition magic_at (script : list Z) (i : nat) : bool :=
  bool_decide (take POUW_COMMITMENT_MAGIC_SIZE (drop i script) = POUW_COMMITMENT_MAGIC).

(** [memcpy] of the 32 bytes that follow the magic at [i]. *)
Definition commitment_at (script : list Z) (i : nat) : list Z :=
  take POUW_COMMITMENT_HASH_SIZE (drop (i + POUW_COMMITMENT_MAGIC_SIZE)%nat script).

(** The scan of the scriptSig from offset [i]; [fuel] bounds the rounds
    and the script's length is enough. *)
Fixpoint scan_scriptSig (script : list Z) (fuel i : nat) : option (list Z) :=
  match fuel with
  | O => None
  | S fuel' =>
    if (i + POUW_COMMITMENT_MIN_SIZE <=? length script)%nat then
      if magic_at script i then Some (commitment_at script i)
      else scan_scriptSig script fuel' (S i)
    else None
  end.

Section PoUW.

(** [OP_RETURN] ([script.h]) and [Transaction::IsCoinBase] ([transaction.h])
    are declared outside the sources; the check is verified for any value
    of them. *)
Variable OP_RETURN : Z.
Variable IsCoinBase : Transaction → bool.

(** The scan of one output script for [OP_RETURN], an optional push opcode
    of at most 75, then the magic. *)
Fixpoint scan_scriptPubKey (script : list Z) (fuel i : nat) : option (list Z) :=
  match fuel with
  | O => None
  | S fuel' =>
    if (i + POUW_COMMITMENT_MIN_SIZE + 1 <=? length script)%nat then
      let next := scan_scriptPubKey script fuel' (S i) in
      if byte_at script i =? OP_RETURN then
        let dataStart := S i in
        let dataStart :=
          if (dataStart <? length script)%nat && (byte_at script dataStart <=? 75)
          then S dataStart else dataStart in
        if (dataStart + POUW_COMMITMENT_MIN_SIZE <=? length script)%nat then
          if magic_at script dataStart then Some (commitment_at script dataStart)
          else next
        else next
      else next
    else None
  end.

(** The loop over the outputs: the first script that yields a commitment
    wins. *)
Fixpoint scan_outputs (outs : list TxOut) : option (list Z) :=
  match outs with
  | [] => None
  | out :: rest =>
    match scan_scriptPubKey (scriptPubKey out) (length (scriptPubKey out)) 0 with
    | Some c => Some c
    | None => scan_outputs rest
    end
  end.

(** [ExtractPoUWCommitment]. *)
Definition ExtractPoUWCommitment (coinbase : Transaction) : option (list Z) :=
  match vin coinbase with
  | [] => None
  | txin :: _ =>
    match scan_scriptSig (scriptSig txin) (length (scriptSig txin)) 0 with
    | Some c => Some c
    | None => scan_outputs (vout coinbase)
    end
  end.

(** Modelled from the spec: [Hash256::IsNull] (declared in a header that is
    not part of the sources) holds of the empty, all-zero hash. *)
Definition IsNull (h : list Z) : bool := forallb (λ b, b =? 0) h.

(** The entropy count: the number of positions of [commitment[1..]] that
    differ from the byte before them. *)
Fixpoint count_transitions (lastByte : Z) (rest : list Z) : Z :=
  match rest with
  | [] => 0
  | b :: rest' =>
    if negb (b =? lastByte) then 1 + count_transitions b rest'
    else count_transitions lastByte rest'
  end.

(** [binding]: the XOR of the first four bytes of the commitment and of the
    previous block hash, assembled little-endian. *)
Fixpoint binding_from (commitment prev : list Z) (n : nat) : Z :=
  match n with
  | O => 0
  | S i =>
    Z.lor (binding_from commitment prev i)
          (Z.shiftl (Z.lxor (byte_at commitment i) (byte_at prev i)) (Z.of_nat i * 8))
  end.

(** [VerifyUsefulWork]. The SHA-256 of the previous block hash that the
    source computes into [prefixHash] is never read and is left out. *)
Definition VerifyUsefulWork (block : Block) (params : Params) : bool :=
  match vtx block with
  | [] => false
  | coinbase :: _ =>
    if negb (IsCoinBase coinbase) then false
    else if IsNull (hashPrevBlock block) then true
    else
      match ExtractPoUWCommitment coinbase with
      | None =>
        if fPoUWOptional params then true
        else if fPowNoRetargeting params then true
        else false
      | Some commitment =>
        let isNullCommitment := forallb (λ b, b =? 0) commitment in
        if isNullCommitment then false
        else
          let uniqueBytes :=
            count_transitions (byte_at commitment 0) (drop 1 commitment) in
          if uniqueBytes <? 8 then false
          else
            let binding := binding_from commitment (hashPrevBlock block) 4 in
            if (binding =? 0) || (binding =? 0xFFFFFFFF) then false
            else if bool_decide (commitment = hashPrevBlock block) then false
            else true
      end
  end.

End PoUW.

(** *** Solutions of computational problems *)

(** [while ((byte & 0x80) == 0 && leadingZeroBits < 256) { leadingZeroBits++;
    byte <<= 1; }] on a [uint8_t]; the counter bounds the rounds by 256. *)
Fixpoint count_leading_zeros (fuel : nat) (byte leadingZeroBits : Z) : Z :=
  match fuel with
  | O => leadingZeroBits
  | S fuel' =>
    if (Z.land byte 0x80 =? 0) && (leadingZeroBits <? 256)
    then count_leading_zeros fuel' (u8 (Z.shiftl byte 1)) (u32 (leadingZeroBits + 1))
    else leadingZeroBits
  end.

(** The loop over the bytes of the solution hash from index 0: eight bits
    for every zero byte, then the zero bits at the top of the first byte
    that is not zero. *)
Fixpoint leading_zero_bits (solutionHash : list Z) (leadingZeroBits : Z) : Z :=
  match solutionHash with
  | [] => leadingZeroBits
  | byte :: rest =>
    if byte =? 0 then leading_zero_bits rest (u32 (leadingZeroBits + 8))
    else count_leading_zeros 256 byte leadingZeroBits
  end.

Section Solution.

(** [SHA256] ([crypto/sha256.h]) is outside the sources: the digest of the
    bytes written to the hasher, in order. *)
Variable SHA256 : list Z → list Z.

(** [VerifyPoUWSolution]. *)
Definition VerifyPoUWSolution (problemHash solution : list Z) (difficulty : Z) : bool :=
  if bool_decide (solution = []) then false
  else if (length solution <? 32)%nat then false
  else
    let solutionHash := SHA256 (problemHash ++ solution) in
    if difficulty =? 0 then false
    else
      let leadingZeroBits := leading_zero_bits solutionHash 0 in
      if leadingZeroBits <? difficulty then false
      else
        let allZeros := forallb (λ b, b =? 0) solution in
        if allZeros then false else true.

End Solution.

(** *** Sample networks and chains *)

(** The Bitcoin-style maximum target, [0x1d00ffff] expanded. *)
Definition sample_powLimit : list Z := CompactToBig 0x1d00ffff.

(** The target [0x01000001], of four significant bytes, and the target
    [0x80], of one. *)
Definition sample_target_4bytes : list Z := <[3%nat := 0x01]> (<[0%nat := 0x01]> null_hash).
Definition sample_target_0x80 : list Z := <[0%nat := 0x80]> null_hash.

(** A test network: 30-second blocks, retargeting every four blocks,
    min-difficulty blocks allowed, PoUW optional. *)
Definition sample_testnet : Params := {|
  nInitialBlockReward := 5000000000;
  nSubsidyHalvingInterval := 210000;
  nPowTargetSpacing := 30;
  nPowTargetTimespan := 120;
  DifficultyAdjustmentInterval := 4;
  powLimit := sample_powLimit;
  fPowNoRetargeting := false;
  fAllowMinDifficultyBlocks := true;
  fPoUWOptional := true
|}.

(** A regression-test network: no retargeting, and the PoUW-optional flag
    left unset. *)
Definition sample_regtest : Params := {|
  nInitialBlockReward := 5000000000;
  nSubsidyHalvingInterval := 150;
  nPowTargetSpacing := 30;
  nPowTargetTimespan := 120;
  DifficultyAdjustmentInterval := 4;
  powLimit := sample_powLimit;
  fPowNoRetargeting := true;
  fAllowMinDifficultyBlocks := true;
  fPoUWOptional := false
|}.

(** Five blocks at real difficulty [0x1c0ffff0], thirty seconds apart. *)
Definition sample_block0 : BlockIndex := mkBlockIndex 0 1000 0x1c0ffff0 None.
Definition sample_block1 : BlockIndex := mkBlockIndex 1 1030 0x1c0ffff0 (Some sample_block0).
Definition sample_block2 : BlockIndex := mkBlockIndex 2 1060 0x1c0ffff0 (Some sample_block1).
Definition sample_block3 : BlockIndex := mkBlockIndex 3 1090 0x1c0ffff0 (Some sample_block2).

(** A min-difficulty block at height 4, a multiple of the interval, mined
    after a gap of 100 seconds. *)
Definition sample_block4_min : BlockIndex := mkBlockIndex 4 1190 0x1d00ffff (Some sample_block3).

(** Two min-difficulty blocks at heights 2 and 3, after gaps. *)
Definition sample_block2_min : BlockIndex := mkBlockIndex 2 1130 0x1d00ffff (Some sample_block1).
Definition sample_block3_min : BlockIndex := mkBlockIndex 3 1230 0x1d00ffff (Some sample_block2_min).

(** A coinbase whose scripts hold no commitment, in a block on top of a
    non-null previous hash. *)
Definition sample_coinbase : Transaction :=
  mkTransaction [mkTxIn [0x03; 0x01; 0x02; 0x03]] [mkTxOut [0x76; 0xa9; 0x14]].
Definition sample_prev_hash : list Z := <[0%nat := 0x11]> null_hash.
Definition sample_block : Block := mkBlock sample_prev_hash [sample_coinbase].

(** A split of thirty, forty, fifteen, ten and five percent. *)
Definition sample_shares : RewardShares := mkRewardShares 30 40 15 10 5.

(** A stand-in digest: thirty-one zero bytes after the first byte of the
    input halved. *)
Definition sample_digest (data : list Z) : list Z :=
  <[0%nat := byte_at data 0 / 2]> null_hash.

(** A commitment of thirty-two distinct bytes, a coinbase that carries it
    in its scriptSig, and one that carries it in an [OP_RETURN] output. *)
Definition sample_commitment : list Z := seqZ 1 32.

Definition sample_coinbase_scriptSig : Transaction :=
  mkTransaction [mkTxIn ([0x03] ++ POUW_COMMITMENT_MAGIC ++ sample_commitment)] [].

Definition sample_coinbase_output : Transaction :=
  mkTransaction [mkTxIn [0x03; 0x01]]
    [mkTxOut (0x6a :: [0x24] ++ POUW_COMMITMENT_MAGIC ++ sample_commitment)].

Definition sample_block_committed : Block :=
  mkBlock sample_prev_hash [sample_coinbase_scriptSig].

End Consensus.

Module UBI.

(** ** Claims and their collaborators *)

Inductive ClaimStatus :=
| Pending
| Valid
| InvalidProof
| DoubleClaim
| IdentityNotFound
| EpochExpired
| EpochNotComplete
| PoolEmpty.

#[global] Instance ClaimStatus_eq_dec : EqDecision ClaimStatus.
Proof. solve_decision. Defined.

(** [identity::ProofType]: the UBI claim tag and the others. *)
Inductive ProofType := UBIClaimProof | OtherProof (tag : Z).

#[global] Instance ProofType_eq_dec : EqDecision ProofType.
Proof. solve_decision. Defined.

(** Modelled from the spec: [identity::Nullifier] (its header is not part of
    the sources) is a 32-byte hash plus the epoch it belongs to, and
    equality is over both fields. *)
Record Nullifier := mkNullifier {
  nullifier_hash : list Z;
  nullifier_epoch : Z
}.

#[global] Instance Nullifier_eq_dec : EqDecision Nullifier.
Proof. solve_decision. Defined.

#[global] Instance Nullifier_countable : Countable Nullifier.
Proof.
  apply (inj_countable' (λ n, (nullifier_hash n, nullifier_epoch n))
                        (λ p, mkNullifier p.1 p.2)).
  by intros [].
Defined.

(** [identity::Nullifier::SIZE]. *)
Definition Nullifier_SIZE : nat := 32.

(** A well-formed nullifier: a hash of [SIZE] bytes and a 64-bit epoch. *)
Definition wf_nullifier (n : Nullifier) : Prop :=
  length (nullifier_hash n) = Nullifier_SIZE
  ∧ Forall (λ b, 0 ≤ b < 256) (nullifier_hash n)
  ∧ 0 ≤ nullifier_epoch n < 2 ^ 64.

(** The zero-knowledge layer the distributor calls into ([crypto/field.h],
    [identity/]): field elements with their two constructors, proofs with
    their accessors, and [ProofVerifier::Instance().Verify]. It is outside
    the sources, and the distributor is verified against any
    implementation of it. *)
Class Identity := {
  FieldElement : Type;
  FieldElement_eq_dec :: EqDecision FieldElement;
  FieldElement_FromBytes : list Z → FieldElement;
  FieldElement_of_u64 : Z → FieldElement;
  ZKProof : Type;
  IsValid : ZKProof → bool;
  GetType : ZKProof → ProofType;
  GetPublicInputs : ZKProof → list FieldElement;
  Verify : ZKProof → string → bool
}.

(** The constants and helpers of [economics/ubi.h] that the implementation
    reads. *)
Class Constants := {
  EPOCH_BLOCKS : Z;
  UBI_CLAIM_WINDOW : Z;
  UBI_GRACE_EPOCHS : Z;
  MIN_IDENTITIES_FOR_UBI : Z;
  MAX_UBI_PER_PERSON : Z;
  EpochEndHeight : Z → Z
}.

(** [std::min] on [Amount]. *)
Definition Amount_min (a b : Z) : Z := if b <? a then b else a.

Section Distributor.
Context `{Identity} `{Constants}.

(** Modelled from the spec: [HeightToEpoch] (declared in [ubi.h]) is
    [height / EPOCH_BLOCKS], an unsigned [EpochId] that the persistent
    format stores in 64 bits. *)
Definition HeightToEpoch (height : Z) : Z := u64 (Z.quot height EPOCH_BLOCKS).

Record UBIClaim := mkUBIClaim {
  claim_epoch : Z;
  claim_nullifier : Nullifier;
  claim_recipient : list Z;
  claim_proof : ZKProof;
  claim_amount : Z;
  claim_submitHeight : Z;
  claim_status : ClaimStatus
}.

(** ** Epoch pools *)

Record EpochUBIPool := mkEpochUBIPool {
  epoch : Z;
  endHeight : Z;
  claimDeadline : Z;
  totalPool : Z;
  eligibleCount : Z;
  amountPerPerson : Z;
  amountClaimed : Z;
  claimCount : Z;
  isFinalized : bool;
  usedNullifiers : gset Nullifier
}.

(** A default-constructed pool: every field zero, false or empty. *)
Definition empty_pool : EpochUBIPool := {|
  epoch := 0; endHeight := 0; claimDeadline := 0;
  totalPool := 0; eligibleCount := 0; amountPerPerson := 0;
  amountClaimed := 0; claimCount := 0; isFinalized := false;
  usedNullifiers := ∅
|}.

Definition set_epoch (v : Z) (p : EpochUBIPool) : EpochUBIPool :=
  mkEpochUBIPool v (endHeight p) (claimDeadline p) (totalPool p)
    (eligibleCount p) (amountPerPerson p) (amountClaimed p) (claimCount p)
    (isFinalized p) (usedNullifiers p).

Definition set_endHeight (v : Z) (p : EpochUBIPool) : EpochUBIPool :=
  mkEpochUBIPool (epoch p) v (claimDeadline p) (totalPool p)
    (eligibleCount p) (amountPerPerson p) (amountClaimed p) (claimCount p)
    (isFinalized p) (usedNullifiers p).

Definition set_claimDeadline (v : Z) (p : EpochUBIPool) : EpochUBIPool :=
  mkEpochUBIPool (epoch p) (endHeight p) v (totalPool p)
    (eligibleCount p) (amountPerPerson p) (amountClaimed p) (claimCount p)
    (isFinalized p) (usedNullifiers p).

Definition set_totalPool (v : Z) (p : EpochUBIPool) : EpochUBIPool :=
  mkEpochUBIPool (epoch p) (endHeight p) (claimDeadline p) v
    (eligibleCount p) (amountPerPerson p) (amountClaimed p) (claimCount p)
    (isFinalized p) (usedNullifiers p).

(** [EpochUBIPool::Finalize]: the division of the signed [Amount] by the
    count truncates. *)
Definition Finalize (identityCount : Z) (p : EpochUBIPool) : EpochUBIPool :=
  let amountPerPerson' :=
    if identityCount >=? MIN_IDENTITIES_FOR_UBI
    then Amount_min (Z.quot (totalPool p) identityCount) MAX_UBI_PER_PERSON
    else 0 in
  mkEpochUBIPool (epoch p) (endHeight p) (claimDeadline p) (totalPool p)
    identityCount amountPerPerson' (amountClaimed p) (claimCount p)
    true (usedNullifiers p).

(** [EpochUBIPool::IsNullifierUsed]. *)
Definition IsNullifierUsed (p : EpochUBIPool) (nullifier : Nullifier) : bool :=
  bool_decide (nullifier ∈ usedNullifiers p).

(** [EpochUBIPool::RecordClaim]: [amountClaimed] is a 64-bit [Amount],
    [claimCount] a 32-bit counter. *)
Definition RecordClaim (nullifier : Nullifier) (amount : Z) (p : EpochUBIPool)
    : EpochUBIPool :=
  mkEpochUBIPool (epoch p) (endHeight p) (claimDeadline p) (totalPool p)
    (eligibleCount p) (amountPerPerson p)
    (i64 (amountClaimed p + amount)) (u32 (claimCount p + 1))
    (isFinalized p) ({[nullifier]} ∪ usedNullifiers p).

(** [EpochUBIPool::AcceptingClaims]. *)
Definition AcceptingClaims (p : EpochUBIPool) (currentHeight : Z) : bool :=
  if negb (isFinalized p) then false
  else currentHeight <=? claimDeadline p.

(** ** The distributor *)

Record UBIDistributor := mkUBIDistributor {
  pools_ : gmap Z EpochUBIPool;
  currentEpoch_ : Z;
  totalDistributed_ : Z;
  totalClaims_ : Z
}.

(** A freshly constructed distributor. *)
Definition initial : UBIDistributor := mkUBIDistributor ∅ 0 0 0.

(** [GetOrCreatePool]: the pools after the call, and the pool it returns
    a reference to. *)
Definition GetOrCreatePool (pools : gmap Z EpochUBIPool) (e : Z)
    : gmap Z EpochUBIPool * EpochUBIPool :=
  match pools !! e with
  | None =>
    let pool := set_endHeight (i32 (EpochEndHeight e)) (set_epoch e empty_pool) in
    (<[e := pool]> pools, pool)
  | Some pool => (pools, pool)
  end.

(** [AddBlockReward]. The loop over the earlier epochs only looks for
    unfinalized pools to warn about and changes nothing. *)
Definition AddBlockReward (D : UBIDistributor) (height amount : Z) : UBIDistributor :=
  let e := HeightToEpoch height in
  let '(pools, pool) := GetOrCreatePool (pools_ D) e in
  let pool := set_totalPool (i64 (totalPool pool + amount)) pool in
  mkUBIDistributor (<[e := pool]> pools) e (totalDistributed_ D) (totalClaims_ D).

(** [FinalizeEpoch]. *)
Definition FinalizeEpoch (D : UBIDistributor) (e identityCount : Z) : UBIDistributor :=
  match pools_ D !! e with
  | None => D
  | Some pool =>
    let pool := set_endHeight (i32 (EpochEndHeight e)) pool in
    let pool :=
      set_claimDeadline
        (i32 (endHeight pool + UBI_CLAIM_WINDOW + UBI_GRACE_EPOCHS * EPOCH_BLOCKS))
        pool in
    let pool := Finalize identityCount pool in
    mkUBIDistributor (<[e := pool]> (pools_ D)) (currentEpoch_ D)
      (totalDistributed_ D) (totalClaims_ D)
  end.

Definition set_status (st : ClaimStatus) (c : UBIClaim) : UBIClaim :=
  mkUBIClaim (claim_epoch c) (claim_nullifier c) (claim_recipient c)
    (claim_proof c) (claim_amount c) (claim_submitHeight c) st.

Definition set_submitHeight (h : Z) (c : UBIClaim) : UBIClaim :=
  mkUBIClaim (claim_epoch c) (claim_nullifier c) (claim_recipient c)
    (claim_proof c) (claim_amount c) h (claim_status c).

Definition set_amount (a : Z) (c : UBIClaim) : UBIClaim :=
  mkUBIClaim (claim_epoch c) (claim_nullifier c) (claim_recipient c)
    (claim_proof c) a (claim_submitHeight c) (claim_status c).

(** [return claim.status] after [claim.status = st]. *)
Definition reject (st : ClaimStatus) (claim : UBIClaim) (D : UBIDistributor)
    : ClaimStatus * UBIClaim * UBIDistributor :=
  (st, set_status st claim, D).

(** [ProcessClaim]: the returned status, the claim as the call leaves it,
    and the distributor after the call. *)
Definition ProcessClaim
    (D : UBIDistributor) (claim : UBIClaim) (identityTreeRoot : list Z)
    (currentHeight : Z) : ClaimStatus * UBIClaim * UBIDistributor :=
  let claim := set_submitHeight currentHeight claim in
  match pools_ D !! claim_epoch claim with
  | None => reject EpochNotComplete claim D
  | Some pool =>
    if negb (isFinalized pool) then reject EpochNotComplete claim D
    else if negb (AcceptingClaims pool currentHeight) then reject EpochExpired claim D
    else if amountPerPerson pool =? 0 then reject PoolEmpty claim D
    else if IsNullifierUsed pool (claim_nullifier claim) then reject DoubleClaim claim D
    else if negb (IsValid (claim_proof claim)) then reject InvalidProof claim D
    else if negb (bool_decide (GetType (claim_proof claim) = UBIClaimProof))
      then reject InvalidProof claim D
    else
      match GetPublicInputs (claim_proof claim) with
      | v0 :: _ :: v2 :: _ =>
        let expectedRoot := FieldElement_FromBytes identityTreeRoot in
        if negb (bool_decide (v0 = expectedRoot)) then reject InvalidProof claim D
        else
          let expectedEpoch := FieldElement_of_u64 (u64 (claim_epoch claim)) in
          if negb (bool_decide (v2 = expectedEpoch)) then reject InvalidProof claim D
          else if negb (Verify (claim_proof claim) "ubi_claim")
            then reject InvalidProof claim D
          else
            let claim := set_amount (amountPerPerson pool) claim in
            let claim := set_status Valid claim in
            let pool := RecordClaim (claim_nullifier claim) (claim_amount claim) pool in
            (Valid, claim,
             mkUBIDistributor (<[claim_epoch claim := pool]> (pools_ D))
               (currentEpoch_ D)
               (i64 (totalDistributed_ D + claim_amount claim))
               (u64 (totalClaims_ D + 1)))
      | _ => reject InvalidProof claim D
      end
  end.

(** [VerifyClaim]. *)
Definition VerifyClaim
    (D : UBIDistributor) (claim : UBIClaim) (identityTreeRoot : list Z)
    (currentHeight : Z) : bool :=
  match pools_ D !! claim_epoch claim with
  | None => false
  | Some pool =>
    if negb (isFinalized pool) then false
    else if negb (AcceptingClaims pool currentHeight) then false
    else if IsNullifierUsed pool (claim_nullifier claim) then false
    else if negb (IsValid (claim_proof claim)) then false
    else if negb (bool_decide (GetType (claim_proof claim) = UBIClaimProof)) then false
    else
      match GetPublicInputs (claim_proof claim) with
      | v0 :: _ :: v2 :: _ =>
        let expectedRoot := FieldElement_FromBytes identityTreeRoot in
        if negb (bool_decide (v0 = expectedRoot)) then false
        else
          let expectedEpoch := FieldElement_of_u64 (u64 (claim_epoch claim)) in
          if negb (bool_decide (v2 = expectedEpoch)) then false
          else Verify (claim_proof claim) "ubi_claim"
      | _ => false
      end
  end.

(** [PruneOldPools]: [EpochId] is unsigned, so the cutoff is computed only
    when it is positive. *)
Definition PruneOldPools (D : UBIDistributor) (currentEpoch : Z) : UBIDistributor :=
  let cutoff :=
    if currentEpoch >? UBI_GRACE_EPOCHS + 10
    then currentEpoch - UBI_GRACE_EPOCHS - 10
    else 0 in
  mkUBIDistributor (filter (λ kv, ¬ (kv.1 < cutoff)) (pools_ D))
    (currentEpoch_ D) (totalDistributed_ D) (totalClaims_ D).

(** ** Reachable states *)

(** The calls that change a distributor. *)
Inductive Op :=
| OpAddBlockReward (height amount : Z)
| OpFinalizeEpoch (e identityCount : Z)
| OpProcessClaim (claim : UBIClaim) (identityTreeRoot : list Z) (currentHeight : Z)
| OpPruneOldPools (currentEpoch : Z).

(** Arguments that inhabit their C++ types: [int] heights, 64-bit amounts,
    32-bit identity counts, 64-bit epochs, and claims whose nullifier is
    well-formed. *)
Definition wf_op (op : Op) : Prop :=
  match op with
  | OpAddBlockReward height amount =>
    - 2 ^ 31 ≤ height < 2 ^ 31 ∧ - 2 ^ 63 ≤ amount < 2 ^ 63
  | OpFinalizeEpoch e identityCount =>
    0 ≤ e < 2 ^ 64 ∧ 0 ≤ identityCount < 2 ^ 32
  | OpProcessClaim claim identityTreeRoot currentHeight =>
    0 ≤ claim_epoch claim < 2 ^ 64
    ∧ wf_nullifier (claim_nullifier claim)
    ∧ - 2 ^ 31 ≤ currentHeight < 2 ^ 31
  | OpPruneOldPools currentEpoch => 0 ≤ currentEpoch < 2 ^ 64
  end.

Definition step (D : UBIDistributor) (op : Op) : UBIDistributor :=
  match op with
  | OpAddBlockReward height amount => AddBlockReward D height amount
  | OpFinalizeEpoch e identityCount => FinalizeEpoch D e identityCount
  | OpProcessClaim claim identityTreeRoot currentHeight =>
    (ProcessClaim D claim identityTreeRoot currentHeight).2
  | OpPruneOldPools currentEpoch => PruneOldPools D currentEpoch
  end.

Definition run (ops : list Op) (D : UBIDistributor) : UBIDistributor :=
  fold_left step ops D.

(** The states a distributor takes: those a sequence of well-typed calls
    leads to from a fresh one. *)
Definition reachable (D : UBIDistributor) : Prop :=
  ∃ ops, Forall wf_op ops ∧ D = run ops initial.

End Distributor.

(** ** The persistent format *)

(** The loop [for (i = 0; i < n; ++i) data.push_back((v >> (i * 8)) &
    0xFF)]. *)
Definition push_le (n : nat) (v : Z) : list Z :=
  (λ i : nat, Z.land (Z.shiftr v (Z.of_nat i * 8)) 0xFF) <$> seq 0 n.

(** The order of the keys of [std::map<EpochId, EpochUBIPool>]. *)
Definition epoch_le (a b : Z * EpochUBIPool) : Prop := a.1 ≤ b.1.

#[global] Instance epoch_le_dec a b : Decision (epoch_le a b).
Proof. unfold epoch_le. apply _. Defined.

(** The pools in the iteration order of [std::map]: ascending epoch. *)
Definition sorted_pools (pools : gmap Z EpochUBIPool) : list (Z * EpochUBIPool) :=
  merge_sort epoch_le (map_to_list pools).

(** The loop over [usedNullifiers]: [SIZE] bytes of hash for each
    nullifier, in the iteration order of the set. *)
Definition nullifier_hashes (p : EpochUBIPool) : list (list Z) :=
  (λ nullifier, take Nullifier_SIZE (nullifier_hash nullifier))
  <$> elements (usedNullifiers p).

(** The body of the loop over the pools. *)
Definition serialize_pool (entry : Z * EpochUBIPool) : list Z :=
  let '(epochId, pool) := entry in
  push_le 8 epochId
  ++ push_le 8 (totalPool pool)
  ++ push_le 4 (eligibleCount pool)
  ++ push_le 8 (amountPerPerson pool)
  ++ push_le 8 (amountClaimed pool)
  ++ push_le 4 (claimCount pool)
  ++ [if isFinalized pool then 0x01 else 0x00]
  ++ push_le 4 (endHeight pool)
  ++ push_le 4 (claimDeadline pool)
  ++ push_le 4 (u32 (Z.of_nat (size (usedNullifiers pool))))
  ++ concat (nullifier_hashes pool).

(** [UBIDistributor::Serialize]. *)
Definition Serialize (D : UBIDistributor) : list Z :=
  [0x01]
  ++ push_le 8 (currentEpoch_ D)
  ++ push_le 4 (u32 (Z.of_nat (size (pools_ D))))
  ++ concat (serialize_pool <$> sorted_pools (pools_ D)).

(** The loop [for (i = 0; i < n; ++i) v |= T(data[offset++]) << (i * 8)]:
    the bits assembled from [n] bytes at [offset]. *)
Fixpoint read_le (data : list Z) (offset n : nat) : Z :=
  match n with
  | O => 0
  | S i =>
    Z.lor (read_le data offset i)
          (Z.shiftl (byte_at data (offset + i)) (Z.of_nat i * 8))
  end.

(** The loop over the nullifiers of one pool: [n] hashes of 32 bytes from
    [offset], each inserted with the pool's epoch. *)
Fixpoint deserialize_nullifiers
    (data : list Z) (epochId : Z) (n offset : nat) (nullifiers : gset Nullifier)
    : nat * gset Nullifier :=
  match n with
  | O => (offset, nullifiers)
  | S n' =>
    let hash := take Nullifier_SIZE (drop offset data) in
    deserialize_nullifiers data epochId n' (offset + Nullifier_SIZE)
      ({[mkNullifier hash epochId]} ∪ nullifiers)
  end.

(** The loop over the pools: [false] with the pools read so far when the
    input is short or a count is over its cap. *)
Fixpoint deserialize_pools
    (data : list Z) (poolCount offset : nat) (pools : gmap Z EpochUBIPool)
    : bool * gmap Z EpochUBIPool :=
  match poolCount with
  | O => (true, pools)
  | S poolCount' =>
    if (length data <? offset + 53)%nat then (false, pools)
    else
      let epochId := read_le data offset 8 in
      let offset := (offset + 8)%nat in
      let tp := i64 (read_le data offset 8) in
      let offset := (offset + 8)%nat in
      let ec := read_le data offset 4 in
      let offset := (offset + 4)%nat in
      let app := i64 (read_le data offset 8) in
      let offset := (offset + 8)%nat in
      let ac := i64 (read_le data offset 8) in
      let offset := (offset + 8)%nat in
      let cc := read_le data offset 4 in
      let offset := (offset + 4)%nat in
      let finalized := negb (byte_at data offset =? 0) in
      let offset := (offset + 1)%nat in
      let eh := i32 (read_le data offset 4) in
      let offset := (offset + 4)%nat in
      let cd := i32 (read_le data offset 4) in
      let offset := (offset + 4)%nat in
      let nullifierCount := read_le data offset 4 in
      let offset := (offset + 4)%nat in
      if nullifierCount >? 1000000 then (false, pools)
      else if Z.of_nat (length data)
              <? Z.of_nat offset + nullifierCount * Z.of_nat Nullifier_SIZE
      then (false, pools)
      else
        let '(offset, nullifiers) :=
          deserialize_nullifiers data epochId (Z.to_nat nullifierCount) offset ∅ in
        let pool := mkEpochUBIPool epochId eh cd tp ec app ac cc finalized nullifiers in
        deserialize_pools data poolCount' offset (<[epochId := pool]> pools)
  end.

(** [UBIDistributor::Deserialize] on the object [D]: the returned flag and
    the object after the call. The counters [totalDistributed_] and
    [totalClaims_] are not part of the format and keep their values. *)
Definition Deserialize (D : UBIDistributor) (data : list Z) : bool * UBIDistributor :=
  if (length data <? 13)%nat then (false, D)
  else
    let version := byte_at data 0 in
    if negb (version =? 0x01) then (false, D)
    else
      let currentEpoch := read_le data 1 8 in
      let poolCount := read_le data 9 4 in
      if poolCount >? 10000
      then (false, mkUBIDistributor (pools_ D) currentEpoch
                     (totalDistributed_ D) (totalClaims_ D))
      else
        let '(ok, pools) := deserialize_pools data (Z.to_nat poolCount) 13 ∅ in
        (ok, mkUBIDistributor pools currentEpoch
               (totalDistributed_ D) (totalClaims_ D)).

(** What [Deserialize] makes of a pool that [Serialize] wrote under the
    key [e]: the fields as they were, and the hash of every used nullifier
    filed under [e]. *)
Definition reload_pool (e : Z) (p : EpochUBIPool) : EpochUBIPool :=
  mkEpochUBIPool e (endHeight p) (claimDeadline p) (totalPool p)
    (eligibleCount p) (amountPerPerson p) (amountClaimed p) (claimCount p)
    (isFinalized p)
    (list_to_set ((λ hash, mkNullifier hash e) <$> nullifier_hashes p)).

(** *** What the format can hold *)

(** The pools the format holds without loss: every field within the width
    it is written with, the key repeated in the pool, and well-formed
    nullifiers. *)
Definition pool_persistable (e : Z) (p : EpochUBIPool) : Prop :=
  epoch p = e
  ∧ 0 ≤ e < 2 ^ 64
  ∧ - 2 ^ 63 ≤ totalPool p < 2 ^ 63
  ∧ 0 ≤ eligibleCount p < 2 ^ 32
  ∧ - 2 ^ 63 ≤ amountPerPerson p < 2 ^ 63
  ∧ - 2 ^ 63 ≤ amountClaimed p < 2 ^ 63
  ∧ 0 ≤ claimCount p < 2 ^ 32
  ∧ - 2 ^ 31 ≤ endHeight p < 2 ^ 31
  ∧ - 2 ^ 31 ≤ claimDeadline p < 2 ^ 31
  ∧ set_Forall wf_nullifier (usedNullifiers p).

(** The caps of the format and the epoch that the format gives every
    nullifier of a pool. *)
Definition pool_within_caps (e : Z) (p : EpochUBIPool) : Prop :=
  Z.of_nat (size (usedNullifiers p)) ≤ 1000000
  ∧ set_Forall (λ nullifier, nullifier_epoch nullifier = e) (usedNullifiers p).

(** A distributor the format holds without loss. *)
Definition distributor_persistable (D : UBIDistributor) : Prop :=
  0 ≤ currentEpoch_ D < 2 ^ 64
  ∧ map_Forall pool_persistable (pools_ D).

(** The caps of [Deserialize]: at most 10 000 pools, at most 1 000 000
    nullifiers in each, and every nullifier filed under its own epoch. *)
Definition distributor_within_caps (D : UBIDistributor) : Prop :=
  Z.of_nat (size (pools_ D)) ≤ 10000
  ∧ map_Forall pool_within_caps (pools_ D).


#[global] Instance pool_within_caps_dec e p : Decision (pool_within_caps e p).
Proof. unfold pool_within_caps. apply _. Defined.

#[global] Instance distributor_within_caps_dec D : Decision (distributor_within_caps D).
Proof. unfold distributor_within_caps. apply _. Defined.

(** *** The funds invariant

    The invariant of one pool. The counter [claimCount] has not wrapped and
    bounds the number of used nullifiers (a reload can merge nullifiers, so
    the set may hold fewer); [amountClaimed] is [claimCount ×
    amountPerPerson]; a pool that is not finalized has recorded no claim; a
    finalized pool allots no more than it holds. *)
Definition pool_sound (p : EpochUBIPool) : Prop :=
  0 ≤ totalPool p < 2 ^ 63
  ∧ 0 ≤ claimCount p < 2 ^ 32
  ∧ Z.of_nat (size (usedNullifiers p)) ≤ claimCount p
  ∧ amountClaimed p = claimCount p * amountPerPerson p
  ∧ (isFinalized p = false → claimCount p = 0)
  ∧ (isFinalized p = true →
     0 ≤ eligibleCount p < 2 ^ 32
     ∧ 0 ≤ amountPerPerson p
     ∧ eligibleCount p * amountPerPerson p ≤ totalPool p).

Definition distributor_sound (D : UBIDistributor) : Prop :=
  map_Forall (λ _ p, pool_sound p) (pools_ D).

Section Discipline.
Context `{Identity} `{Constants}.

(** The discipline the funds invariant needs of the caller: rewards are not
    negative and keep the pool total within 64 bits, an epoch is finalized
    once, and no claim is processed on a pool whose 32-bit claim counter or
    64-bit amount claimed would wrap around. *)
Definition disciplined_op (D : UBIDistributor) (op : Op) : Prop :=
  match op with
  | OpAddBlockReward height amount =>
    0 ≤ amount
    ∧ ∀ pool, pools_ D !! HeightToEpoch height = Some pool →
              totalPool pool + amount < 2 ^ 63
  | OpFinalizeEpoch e identityCount =>
    ∀ pool, pools_ D !! e = Some pool → isFinalized pool = false
  | OpProcessClaim claim identityTreeRoot currentHeight =>
    ∀ pool, pools_ D !! claim_epoch claim = Some pool →
            claimCount pool + 1 < 2 ^ 32
            ∧ amountClaimed pool + amountPerPerson pool < 2 ^ 63
  | OpPruneOldPools currentEpoch => True
  end.

(** The states of a distributor in disciplined use: a fresh one, the
    result of a well-typed, disciplined call on such a state, and what
    [Deserialize] leaves of such a state when given the bytes that
    [Serialize] wrote for another such state, whether the load succeeds
    or fails. *)
Inductive reachable_disciplined : UBIDistributor → Prop :=
| reachable_initial : reachable_disciplined initial
| reachable_step D op :
    reachable_disciplined D → wf_op op → disciplined_op D op →
    reachable_disciplined (step D op)
| reachable_load D stored :
    reachable_disciplined D → reachable_disciplined stored →
    reachable_disciplined (Deserialize D (Serialize stored)).2.

End Discipline.

(** ** Queries, claim outputs and the claimant *)

Section Queries.
Context `{Identity} `{Constants}.

(** [EpochUBIPool::UnclaimedAmount]. *)
Definition UnclaimedAmount (p : EpochUBIPool) : Z :=
  if totalPool p >? amountClaimed p then i64 (totalPool p - amountClaimed p) else 0.

(** [GetPool]: [None] is the null pointer. *)
Definition GetPool (D : UBIDistributor) (e : Z) : option EpochUBIPool := pools_ D !! e.

(** [GetAmountPerPerson]. *)
Definition GetAmountPerPerson (D : UBIDistributor) (e : Z) : Z :=
  match GetPool D e with
  | None => 0
  | Some pool => if negb (isFinalized pool) then 0 else amountPerPerson pool
  end.

(** [IsEpochClaimable]. *)
Definition IsEpochClaimable (D : UBIDistributor) (e currentHeight : Z) : bool :=
  match GetPool D e with
  | None => false
  | Some pool => isFinalized pool && AcceptingClaims pool currentHeight
  end.

(** [GetClaimDeadline]. *)
Definition GetClaimDeadline (D : UBIDistributor) (e : Z) : Z :=
  match GetPool D e with
  | None => -1
  | Some pool => claimDeadline pool
  end.

(** [UBITransactionBuilder::BuildClaimOutputs]: one pay-to-public-key-hash
    script for the recipient, with the amount. *)
Definition BuildClaimOutputs (claim : UBIClaim) (amount : Z) : list (list Z * Z) :=
  [([0x76; 0xa9; 0x14] ++ claim_recipient claim ++ [0x88; 0xac], amount)].

(** The loop of [VerifyClaimOutputs] over the outputs. *)
Fixpoint verify_outputs (recipient : list Z) (outputs : list (list Z * Z)) : bool :=
  match outputs with
  | [] => false
  | (script, amount) :: rest =>
    if (25 <=? length script)%nat
       && (byte_at script 0 =? 0x76) && (byte_at script 1 =? 0xa9)
       && (byte_at script 2 =? 0x14)
    then
      let scriptHash := take 20 (drop 3 script) in
      if bool_decide (scriptHash = recipient) && (amount >? 0) then true
      else verify_outputs recipient rest
    else verify_outputs recipient rest
  end.

(** [UBITransactionBuilder::VerifyClaimOutputs]. *)
Definition VerifyClaimOutputs (claim : UBIClaim) (outputs : list (list Z * Z)) : bool :=
  if bool_decide (outputs = []) then false
  else verify_outputs (claim_recipient claim) outputs.

End Queries.

Section Claimant.
Context `{Identity} `{Constants}.

(** [identity::IdentitySecrets] and its [DeriveNullifier] are outside the
    sources. *)
Variable IdentitySecrets : Type.
Variable DeriveNullifier : IdentitySecrets → Z → Nullifier.

(** [UBIClaimGenerator::CanClaim]. *)
Definition CanClaim (e : Z) (secrets : IdentitySecrets) (distributor : UBIDistributor)
    : bool :=
  let checkHeight := i32 (EpochEndHeight e + 1) in
  if negb (IsEpochClaimable distributor e checkHeight) then false
  else
    let nullifier := DeriveNullifier secrets e in
    match GetPool distributor e with
    | None => false
    | Some pool => negb (IsNullifierUsed pool nullifier)
    end.

End Claimant.

(** ** The format of a claim *)

(** [identity::ZKProof::ToBytes] and [FromBytes], and the casts between
    [ClaimStatus] and a byte, whose enumerator values the header would
    give: all outside the sources. *)
Class ClaimCodec `{Identity} := {
  ToBytes : ZKProof → list Z;
  FromBytes : list Z → option ZKProof;
  ClaimStatus_to_Byte : ClaimStatus → Z;
  ClaimStatus_of_Byte : Z → ClaimStatus
}.

Section ClaimFormat.
Context `{Identity} `{!ClaimCodec}.

(** [UBIClaim::Serialize]: the epoch goes into four bytes. *)
Definition UBIClaim_Serialize (claim : UBIClaim) : list Z :=
  let proofBytes := ToBytes (claim_proof claim) in
  push_le 4 (claim_epoch claim)
  ++ nullifier_hash (claim_nullifier claim)
  ++ push_le 8 (nullifier_epoch (claim_nullifier claim))
  ++ claim_recipient claim
  ++ push_le 4 (claim_submitHeight claim)
  ++ [ClaimStatus_to_Byte (claim_status claim)]
  ++ push_le 8 (claim_amount claim)
  ++ push_le 4 (u32 (Z.of_nat (length proofBytes)))
  ++ proofBytes.

(** [UBIClaim::Deserialize]; [None] is [std::nullopt]. *)
Definition UBIClaim_Deserialize (data : list Z) : option UBIClaim :=
  if (length data <? 77)%nat then None
  else
    let epoch := read_le data 0 4 in
    let nullifierHash := take 32 (drop 4 data) in
    let nullifierEpoch := read_le data 36 8 in
    let recipient := take 20 (drop 44 data) in
    let submitHeight := i32 (read_le data 64 4) in
    let status := ClaimStatus_of_Byte (byte_at data 68) in
    let amount := i64 (read_le data 69 8) in
    if (length data <? 77 + 4)%nat then None
    else
      let proofSize := read_le data 77 4 in
      if Z.of_nat (length data) <? 81 + proofSize then None
      else
        match FromBytes (take (Z.to_nat proofSize) (drop 81 data)) with
        | None => None
        | Some proof =>
          Some (mkUBIClaim epoch (mkNullifier nullifierHash nullifierEpoch)
                  recipient proof amount submitHeight status)
        end.

End ClaimFormat.

(** ** The claim predicate as the spec words it *)

Section ClaimPredicate.
Context `{Identity} `{Constants}.

(** The proof checks of the spec: structural validity, the UBI claim type,
    at least three public inputs, the identity root in the first, the epoch
    in the third, and the circuit verification. *)
Definition proof_checks (claim : UBIClaim) (identityTreeRoot : list Z) : bool :=
  IsValid (claim_proof claim)
  && bool_decide (GetType (claim_proof claim) = UBIClaimProof)
  && bool_decide (3 ≤ length (GetPublicInputs (claim_proof claim)))%nat
  && bool_decide (GetPublicInputs (claim_proof claim) !! 0%nat
                  = Some (FieldElement_FromBytes identityTreeRoot))
  && bool_decide (GetPublicInputs (claim_proof claim) !! 2%nat
                  = Some (FieldElement_of_u64 (u64 (claim_epoch claim))))
  && Verify (claim_proof claim) "ubi_claim".

(** The status of the spec: the first check that fails, in the order
    [EpochNotComplete], [EpochExpired], [PoolEmpty], [DoubleClaim],
    [InvalidProof]; [Valid] when none does. *)
Definition first_failing_check
    (D : UBIDistributor) (claim : UBIClaim) (identityTreeRoot : list Z)
    (currentHeight : Z) : ClaimStatus :=
  match pools_ D !! claim_epoch claim with
  | None => EpochNotComplete
  | Some pool =>
    if negb (isFinalized pool) then EpochNotComplete
    else if claimDeadline pool <? currentHeight then EpochExpired
    else if amountPerPerson pool =? 0 then PoolEmpty
    else if bool_decide (claim_nullifier claim ∈ usedNullifiers pool) then DoubleClaim
    else if negb (proof_checks claim identityTreeRoot) then InvalidProof
    else Valid
  end.

End ClaimPredicate.

(** ** Sample collaborators, constants and states *)

(** A stand-in proof: its public inputs and whether the circuit accepts
    it. *)
Record SampleProof := mkSampleProof {
  sample_inputs : list Z;
  sample_sound : bool
}.

(** A zero-knowledge layer over integers: a hash is read as its
    little-endian value, every proof is a structurally valid UBI claim
    proof, and the verifier accepts the proofs marked sound. *)
#[global] Instance sample_identity : Identity := {|
  FieldElement := Z;
  FieldElement_FromBytes := le_value;
  FieldElement_of_u64 := λ z, z;
  ZKProof := SampleProof;
  IsValid := λ _, true;
  GetType := λ _, UBIClaimProof;
  GetPublicInputs := sample_inputs;
  Verify := λ p _, sample_sound p
|}.

(** Test-network constants: epochs of 2880 blocks and ten identities for a
    distribution; the claim window, grace period and cap are sample
    values. *)
#[global] Instance sample_constants : Constants := {|
  EPOCH_BLOCKS := 2880;
  UBI_CLAIM_WINDOW := 2880;
  UBI_GRACE_EPOCHS := 7;
  MIN_IDENTITIES_FOR_UBI := 10;
  MAX_UBI_PER_PERSON := 1000000000000;
  EpochEndHeight := λ e, (e + 1) * 2880 - 1
|}.

Definition sample_root : list Z := <[0%nat := 0x2a]> null_hash.

Definition sample_nullifier (tag e : Z) : Nullifier :=
  mkNullifier (<[0%nat := tag]> null_hash) e.

(** A claim for epoch 0 by the nullifier tagged [tag], with a proof over
    the root [sample_root]. *)
Definition sample_claim (tag : Z) (sound : bool) : UBIClaim :=
  mkUBIClaim 0 (sample_nullifier tag 0) (replicate 20 0)
    (mkSampleProof [0x2a; tag; 0] sound) 0 0 Pending.

(** Epoch 0 holds 1 000 000 units and is finalized for ten identities. *)
Definition sample_funded : UBIDistributor :=
  run [OpAddBlockReward 0 1000000; OpFinalizeEpoch 0 10] initial.

(** Epoch 0 holds 1 000 000 units and is finalized for nine identities,
    below the minimum. *)
Definition sample_underfilled : UBIDistributor :=
  run [OpAddBlockReward 0 1000000; OpFinalizeEpoch 0 9] initial.

(** The funded pool after the claim tagged 1 was processed. *)
Definition sample_claimed : UBIDistributor :=
  run [OpProcessClaim (sample_claim 1 true) sample_root 3000] sample_funded.

(** The proof of [sample_claim 1 true] presented again under the nullifier
    tagged [tag]. *)
Definition sample_replay (tag : Z) : UBIClaim :=
  mkUBIClaim 0 (sample_nullifier tag 0) (replicate 20 0)
    (mkSampleProof [0x2a; 1; 0] true) 0 0 Pending.



(** A reward in each of the epochs 0 to 10 000. *)
Definition sample_many_pools : UBIDistributor :=
  run ((λ k, OpAddBlockReward (k * 2880) 1) <$> seqZ 0 10001) initial.

(** A claim for epoch 0 whose nullifier names epoch 7, and the funded
    pool after it was processed. *)
Definition sample_foreign_claim : UBIClaim :=
  mkUBIClaim 0 (sample_nullifier 1 7) (replicate 20 0)
    (mkSampleProof [0x2a; 1; 0] true) 0 0 Pending.

Definition sample_foreign : UBIDistributor :=
  run [OpProcessClaim sample_foreign_claim sample_root 3000] sample_funded.

(** The pool with one claim recorded, stored, loaded into a fresh
    distributor, and a second claim processed there. *)
Definition sample_reloaded : UBIDistributor :=
  run [OpProcessClaim (sample_claim 2 true) sample_root 3000]
      (Deserialize initial (Serialize sample_claimed)).2.

(** Eleven claims for epoch 0 under one hash, with the nullifier epochs 1
    to 11, all carrying one accepted proof, and the distributor a fresh one
    becomes when it loads what was stored after them. *)
Definition sample_merged_claims : list Op :=
  (λ tag, OpProcessClaim
            (mkUBIClaim 0 (sample_nullifier 1 tag) (replicate 20 0)
               (mkSampleProof [0x2a; 1; 0] true) 0 0 Pending)
            sample_root 3000) <$> seqZ 1 11.

Definition sample_merged : UBIDistributor :=
  (Deserialize initial (Serialize (run sample_merged_claims sample_funded))).2.

(** Epochs 0 and 30 each hold 1 000 000 units and are finalized for ten
    identities. *)
Definition sample_two_epochs : UBIDistributor :=
  run [OpAddBlockReward 0 1000000; OpFinalizeEpoch 0 10;
       OpAddBlockReward 86400 1000000; OpFinalizeEpoch 30 10] initial.

(** A claim for epoch 30 by the nullifier tagged 1. *)
Definition sample_claim_epoch30 : UBIClaim :=
  mkUBIClaim 30 (sample_nullifier 1 30) (replicate 20 0)
    (mkSampleProof [0x2a; 1; 30] true) 0 0 Pending.

(** A stand-in codec: a proof is written as its soundness flag and its
    inputs, a status as its position in the enumeration. *)
#[global] Instance sample_codec : ClaimCodec := {|
  ToBytes := λ p, (if sample_sound p then 1 else 0) :: sample_inputs p;
  FromBytes := λ bytes,
    match bytes with
    | [] => None
    | flag :: inputs => Some (mkSampleProof inputs (negb (flag =? 0)))
    end;
  ClaimStatus_to_Byte := λ status,
    match status with
    | Pending => 0 | Valid => 1 | InvalidProof => 2 | DoubleClaim => 3
    | IdentityNotFound => 4 | EpochExpired => 5 | EpochNotComplete => 6
    | PoolEmpty => 7
    end;
  ClaimStatus_of_Byte := λ byte,
    if byte =? 1 then Valid else if byte =? 2 then InvalidProof
    else if byte =? 3 then DoubleClaim else if byte =? 4 then IdentityNotFound
    else if byte =? 5 then EpochExpired else if byte =? 6 then EpochNotComplete
    else if byte =? 7 then PoolEmpty else Pending
|}.

(** A header that announces one pool, and nothing after it. *)
Definition sample_truncated : list Z := [0x01] ++ push_le 8 7 ++ push_le 4 1.

End UBI.

(** * Facts about machine integers and byte arrays *)

Lemma lor_shiftl_add h k b :
  0 ≤ k → 0 ≤ b < 2 ^ k → Z.lor (Z.shiftl h k) b = h * 2 ^ k + b.
Proof.
  intros Hk Hb.
  rewrite Z.shiftl_mul_pow2 by done.
  assert (Z.land (h * 2 ^ k) b = 0) as Hdisj.
  { apply Z.bits_inj'; intros n Hn; rewrite Z.land_spec, Z.bits_0.
    destruct (Z.lt_ge_cases n k).
    - rewrite Z.mul_pow2_bits_low by lia; done.
    - destruct (Z.eq_dec b 0) as [->|]; [by rewrite Z.bits_0, andb_false_r|].
      rewrite (Z.bits_above_log2 b n), andb_false_r; try done; try lia.
      apply Z.lt_le_trans with k; [|done].
      apply Z.log2_lt_pow2; lia. }
  rewrite <- Z.lxor_lor, <- Z.add_nocarry_lxor; done.
Qed.

Lemma lor_disjoint a b k :
  0 ≤ k → a mod 2 ^ k = 0 → 0 ≤ b < 2 ^ k → Z.lor a b = a + b.
Proof.
  intros Hk Ha Hb.
  assert (0 < 2 ^ k) by (apply Z.pow_pos_nonneg; lia).
  assert (a = a / 2 ^ k * 2 ^ k) as Hdiv.
  { pose proof (Z.div_mod a (2 ^ k)). lia. }
  rewrite Hdiv at 1. rewrite <- Z.shiftl_mul_pow2 by done.
  rewrite lor_shiftl_add by done. lia.
Qed.

Lemma land_pow2_testbit x n :
  0 ≤ n → Z.land x (2 ^ n) = if Z.testbit x n then 2 ^ n else 0.
Proof.
  intros Hn. apply Z.bits_inj'. intros i Hi.
  rewrite Z.land_spec, Z.pow2_bits_eqb by done.
  destruct (Z.eqb_spec n i) as [->|Hne].
  - rewrite andb_true_r. destruct (Z.testbit x i) eqn:E.
    + by rewrite Z.pow2_bits_true.
    + by rewrite Z.bits_0.
  - rewrite andb_false_r. destruct (Z.testbit x n).
    + by rewrite Z.pow2_bits_false.
    + by rewrite Z.bits_0.
Qed.

Lemma sign_bit_clear_iff x :
  Z.land x 0x00800000 = 0 ↔ (x / 2 ^ 23) mod 2 = 0.
Proof.
  change 0x00800000 with (2 ^ 23). rewrite land_pow2_testbit by lia.
  pose proof (Z.testbit_spec' x 23 ltac:(lia)) as Hb.
  destruct (Z.testbit x 23); simpl in Hb; lia.
Qed.

Lemma land_0xFF x : Z.land x 0xFF = x mod 2 ^ 8.
Proof. exact (Z.land_ones x 8 ltac:(lia)). Qed.

Lemma land_0x7FFFFF x : Z.land x 0x007FFFFF = x mod 2 ^ 23.
Proof. exact (Z.land_ones x 23 ltac:(lia)). Qed.

Lemma u32_small z : 0 ≤ z < 2 ^ 32 → u32 z = z.
Proof. intros. unfold u32. by apply Z.mod_small. Qed.

Lemma i64_small z : - 2 ^ 63 ≤ z < 2 ^ 63 → i64 z = z.
Proof. intros Hz. unfold i64. rewrite Z.mod_small by lia. lia. Qed.

Lemma i64_range z : - 2 ^ 63 ≤ i64 z < 2 ^ 63.
Proof. unfold i64. pose proof (Z.mod_pos_bound (z + 2 ^ 63) (2 ^ 64)). lia. Qed.

Lemma i64_add_l x y : i64 (i64 x + y) = i64 (x + y).
Proof.
  unfold i64. f_equal.
  replace ((x + 2 ^ 63) mod 2 ^ 64 - 2 ^ 63 + y + 2 ^ 63)
    with ((x + 2 ^ 63) mod 2 ^ 64 + y) by lia.
  rewrite Zplus_mod_idemp_l. f_equal. lia.
Qed.

Lemma u32_add_l x y : u32 (u32 x + y) = u32 (x + y).
Proof. unfold u32. by rewrite Zplus_mod_idemp_l. Qed.

Lemma u32_range z : 0 ≤ u32 z < 2 ^ 32.
Proof. unfold u32. apply Z.mod_pos_bound. lia. Qed.

Lemma u64_small z : 0 ≤ z < 2 ^ 64 → u64 z = z.
Proof. intros. unfold u64. by apply Z.mod_small. Qed.

Lemma u64_range z : 0 ≤ u64 z < 2 ^ 64.
Proof. unfold u64. apply Z.mod_pos_bound. lia. Qed.

Lemma i32_range z : - 2 ^ 31 ≤ i32 z < 2 ^ 31.
Proof. unfold i32. pose proof (Z.mod_pos_bound (z + 2 ^ 31) (2 ^ 32)). lia. Qed.

Lemma i64_of_bits z : - 2 ^ 63 ≤ z < 2 ^ 63 → i64 (z mod 2 ^ 64) = z.
Proof.
  intros Hz. unfold i64. rewrite Zplus_mod_idemp_l. rewrite Z.mod_small by lia. lia.
Qed.

Lemma i32_of_bits z : - 2 ^ 31 ≤ z < 2 ^ 31 → i32 (z mod 2 ^ 32) = z.
Proof.
  intros Hz. unfold i32. rewrite Zplus_mod_idemp_l. rewrite Z.mod_small by lia. lia.
Qed.


Lemma quot_range a b :
  - 2 ^ 63 ≤ a < 2 ^ 63 → 0 ≤ b → - 2 ^ 63 ≤ Z.quot a b < 2 ^ 63.
Proof.
  intros Ha Hb.
  destruct (decide (b = 0)) as [->|Hb0].
  { replace (Z.quot a 0) with 0 by (by destruct a). lia. }
  destruct (decide (0 ≤ a)) as [Hpos|Hneg].
  - pose proof (Z.quot_pos a b Hpos ltac:(lia)).
    pose proof (Z.mul_quot_le a b Hpos ltac:(lia)). nia.
  - pose proof (Z.quot_opp_l a b Hb0) as Hopp.
    pose proof (Z.quot_pos (- a) b ltac:(lia) ltac:(lia)).
    pose proof (Z.mul_quot_le (- a) b ltac:(lia) ltac:(lia)). nia.
Qed.

Lemma byte_at_insert (l : list Z) (i j : nat) v :
  byte_at (<[i := v]> l) j
  = if decide (i = j ∧ (i < length l)%nat) then v else byte_at l j.
Proof.
  unfold byte_at. case_decide as H.
  - destruct H as [-> H]. by rewrite list_lookup_insert_eq.
  - destruct (decide (i = j)) as [->|Hne].
    + rewrite list_insert_ge; [done|]. lia.
    + by rewrite list_lookup_insert_ne.
Qed.

Lemma hash_ext (a b : list Z) :
  length a = length b → (∀ j, (j < length a)%nat → byte_at a j = byte_at b j) → a = b.
Proof.
  intros Hlen Hbytes. apply list_eq. intros j.
  destruct (decide (j < length a)%nat) as [Hj|Hj].
  - specialize (Hbytes j Hj). unfold byte_at in Hbytes.
    destruct (lookup_lt_is_Some_2 a j Hj) as [x Hx].
    destruct (lookup_lt_is_Some_2 b j ltac:(lia)) as [y Hy].
    rewrite Hx, Hy in *. simpl in Hbytes. by subst.
  - rewrite !lookup_ge_None_2; [done|lia|lia].
Qed.

Lemma byte_at_null_hash i : byte_at null_hash i = 0.
Proof.
  unfold byte_at, null_hash.
  destruct (replicate 32 0 !! i) as [b|] eqn:E; [|done].
  apply lookup_replicate in E as [-> _]. done.
Qed.

Lemma byte_at_bounds h i :
  Forall (λ b, 0 ≤ b < 256) h → 0 ≤ byte_at h i < 256.
Proof.
  intros Hh. unfold byte_at.
  destruct (h !! i) as [b|] eqn:E; simpl; [|lia].
  eapply Forall_lookup_1 in Hh; eauto.
Qed.

Lemma null_hash_wf : wf_hash null_hash.
Proof. split; [done|]. apply Forall_replicate. lia. Qed.

#[global] Instance wf_hash_dec h : Decision (wf_hash h).
Proof. unfold wf_hash. apply _. Defined.

(** * Verification of the consensus functions *)

Module ConsensusProofs.
Import Consensus.

(** ** Block subsidy *)

Lemma GetBlockSubsidy_at_multiple params n :
  0 < nSubsidyHalvingInterval params → 0 ≤ n ≤ 63 →
  GetBlockSubsidy (n * nSubsidyHalvingInterval params) params
  = Z.shiftr (nInitialBlockReward params) n.
Proof.
  intros HI Hn. unfold GetBlockSubsidy.
  destruct (Z.eqb_spec (n * nSubsidyHalvingInterval params) 0) as [E|E].
  - assert (n = 0) as -> by nia. done.
  - rewrite Z.quot_mul by lia.
    destruct (Z.geb_spec n 64); [lia|done].
Qed.

Lemma GetBlockSubsidy_exhausted params h :
  64 ≤ Z.quot h (nSubsidyHalvingInterval params) → GetBlockSubsidy h params = 0.
Proof.
  intros Hq. unfold GetBlockSubsidy.
  destruct (Z.eqb_spec h 0) as [->|E].
  - change (Z.quot 0 (nSubsidyHalvingInterval params)) with 0 in Hq. lia.
  - destruct (Z.geb_spec (Z.quot h (nSubsidyHalvingInterval params)) 64); [done|lia].
Qed.

(** C9. With a positive halving interval, the subsidy at the [n]-th
    multiple of the interval is the initial reward shifted right by [n]
    for [0 ≤ n ≤ 63], and it is 0 at every height whose quotient by the
    interval is at least 64; with initial reward 50·10^8 and interval
    210 000 the subsidies at heights 0, 210 000 and 13 440 000 are
    5 000 000 000, 2 500 000 000 and 0. *)
Theorem GetBlockSubsidy_halving (params : Params) :
  0 < nSubsidyHalvingInterval params →
  (∀ n, 0 ≤ n ≤ 63 →
     GetBlockSubsidy (n * nSubsidyHalvingInterval params) params
     = Z.shiftr (nInitialBlockReward params) n)
  ∧ (∀ h, 64 ≤ Z.quot h (nSubsidyHalvingInterval params) →
     GetBlockSubsidy h params = 0)
  ∧ (nInitialBlockReward params = 50 * 10 ^ 8 →
     nSubsidyHalvingInterval params = 210000 →
     GetBlockSubsidy 0 params = 5000000000
     ∧ GetBlockSubsidy 210000 params = 2500000000
     ∧ GetBlockSubsidy 13440000 params = 0).
Proof.
  intros HI. split; [|split].
  - intros n Hn. by apply GetBlockSubsidy_at_multiple.
  - intros h Hh. by apply GetBlockSubsidy_exhausted.
  - intros HR Hval. unfold GetBlockSubsidy. rewrite HR, Hval. done.
Qed.

Lemma GetBlockSubsidy_halving_witness :
  0 < nSubsidyHalvingInterval sample_testnet
  ∧ GetBlockSubsidy (3 * nSubsidyHalvingInterval sample_testnet) sample_testnet
    = Z.shiftr (nInitialBlockReward sample_testnet) 3
  ∧ GetBlockSubsidy 13440000 sample_testnet = 0.
Proof.
  assert (0 < nSubsidyHalvingInterval sample_testnet) as HI by (simpl; lia).
  destruct (GetBlockSubsidy_halving sample_testnet HI) as (Hn & Hz & Hc).
  split; [exact HI|]. split.
  - apply Hn. lia.
  - apply Hz. vm_compute. discriminate.
Defined.

(** ** Proof of work against a negative compact target *)

Lemma CompactToBig_sign_bit nBits :
  Z.land nBits 0x00800000 ≠ 0 → CompactToBig nBits = null_hash.
Proof.
  intros Hs. unfold CompactToBig.
  destruct (Z.eqb_spec (Z.land nBits 0x00800000) 0); [done|done].
Qed.

Lemma Hash256_lt_from_null a n :
  Forall (λ b, 0 ≤ b < 256) a → Hash256_lt_from a null_hash n = false.
Proof.
  intros Ha. induction n as [|n IH]; [done|]. simpl.
  rewrite byte_at_null_hash.
  pose proof (byte_at_bounds a n Ha).
  destruct (Z.ltb_spec (byte_at a n) 0); [lia|].
  destruct (byte_at a n >? 0); [done|exact IH].
Qed.

(** C10. A compact target whose sign bit is set expands to the null target,
    and no well-formed hash passes [CheckProofOfWork] against it. *)
Theorem CheckProofOfWork_sign_bit (hash : list Z) (nBits : Z) (params : Params) :
  wf_hash hash →
  Z.land nBits 0x00800000 ≠ 0 →
  CompactToBig nBits = null_hash ∧ CheckProofOfWork hash nBits params = false.
Proof.
  intros [_ Hh] Hs. split; [by apply CompactToBig_sign_bit|].
  unfold CheckProofOfWork. rewrite CompactToBig_sign_bit by done.
  destruct (nBits =? 0); [done|].
  destruct (exceeds_limit _ _ _); [done|].
  by apply Hash256_lt_from_null.
Qed.

Lemma CheckProofOfWork_sign_bit_witness :
  CompactToBig 0x1d80ffff = null_hash
  ∧ CheckProofOfWork null_hash 0x1d80ffff sample_testnet = false.
Proof.
  apply (CheckProofOfWork_sign_bit null_hash 0x1d80ffff sample_testnet).
  - split; [reflexivity|]. unfold null_hash. apply Forall_replicate. lia.
  - vm_compute. discriminate.
Defined.

(** ** Compact targets *)

Lemma find_msb_Some t n i :
  find_msb t n = Some i ↔
  (i < n)%nat ∧ byte_at t i ≠ 0 ∧ ∀ j, (i < j < n)%nat → byte_at t j = 0.
Proof.
  induction n as [|n IH]; simpl.
  - split; [done|]. intros [? _]. lia.
  - destruct (Z.eqb_spec (byte_at t n) 0) as [Hz|Hnz].
    + rewrite IH. split.
      * intros (Hi & Hb & Hj). split; [lia|]. split; [done|].
        intros j Hj'. destruct (decide (j = n)) as [->|]; [done|]. apply Hj. lia.
      * intros (Hi & Hb & Hj). split; [|split; [done|]].
        -- destruct (decide (i = n)) as [->|]; [done|lia].
        -- intros j Hj'. apply Hj. lia.
    + split.
      * intros [= <-]. split; [lia|]. split; [done|]. intros j Hj. lia.
      * intros (Hi & Hb & Hj). f_equal.
        destruct (decide (i = n)) as [->|Hne]; [done|].
        exfalso. apply Hnz, Hj. lia.
Qed.

Lemma find_msb_None t n :
  find_msb t n = None ↔ ∀ j, (j < n)%nat → byte_at t j = 0.
Proof.
  induction n as [|n IH]; simpl.
  - split; [|done]. intros _ j Hj. lia.
  - destruct (Z.eqb_spec (byte_at t n) 0) as [Hz|Hnz].
    + rewrite IH. split.
      * intros H j Hj. destruct (decide (j = n)) as [->|]; [done|]. apply H. lia.
      * intros H j Hj. apply H. lia.
    + split; [done|]. intros H. exfalso. apply Hnz, H. lia.
Qed.

Lemma bytes3_length pos d0 d1 d2 : length (bytes3 pos d0 d1 d2) = 32%nat.
Proof. unfold bytes3. by rewrite !length_insert. Qed.

Lemma byte_at_bytes3 pos d0 d1 d2 j :
  (pos ≤ 29)%nat →
  byte_at (bytes3 pos d0 d1 d2) j
  = if decide (j = pos) then d0
    else if decide (j = pos + 1)%nat then d1
    else if decide (j = pos + 2)%nat then d2
    else 0.
Proof.
  intros Hpos. unfold bytes3.
  rewrite !byte_at_insert, !length_insert, byte_at_null_hash.
  change (length null_hash) with 32%nat.
  repeat case_decide; try done; lia.
Qed.

Lemma bytes3_wf pos d0 d1 d2 :
  0 ≤ d0 < 256 → 0 ≤ d1 < 256 → 0 ≤ d2 < 256 → wf_hash (bytes3 pos d0 d1 d2).
Proof.
  intros H0 H1 H2. split; [apply bytes3_length|]. unfold bytes3.
  repeat (apply Forall_insert; [|done]).
  apply Forall_replicate. lia.
Qed.

Ltac bytes3_ext :=
  apply hash_ext; [by rewrite ?bytes3_length|];
  let j := fresh "j" in
  intros j _; rewrite ?byte_at_bytes3, ?byte_at_null_hash by lia;
  repeat case_decide; lia.

Lemma bytes3_zero pos : (pos ≤ 29)%nat → bytes3 pos 0 0 0 = null_hash.
Proof. intros. bytes3_ext. Qed.

(** The three mantissa bytes of a 24-bit word. *)
Lemma digits3 w d0 d1 d2 :
  0 ≤ d0 < 256 → 0 ≤ d1 < 256 → 0 ≤ d2 < 256 →
  w = d0 + 2 ^ 8 * d1 + 2 ^ 16 * d2 →
  w mod 2 ^ 8 = d0 ∧ (w / 2 ^ 8) mod 2 ^ 8 = d1 ∧ (w / 2 ^ 16) mod 2 ^ 8 = d2.
Proof. intros H0 H1 H2 ->. split; [|split]; Z.div_mod_to_equations; lia. Qed.

Lemma digits3_exist w :
  0 ≤ w < 2 ^ 24 →
  ∃ d0 d1 d2, 0 ≤ d0 < 256 ∧ 0 ≤ d1 < 256 ∧ 0 ≤ d2 < 256
              ∧ w = d0 + 2 ^ 8 * d1 + 2 ^ 16 * d2.
Proof.
  intros Hw. exists (w mod 2 ^ 8), ((w / 2 ^ 8) mod 2 ^ 8), (w / 2 ^ 16).
  split; [|split; [|split]]; Z.div_mod_to_equations; lia.
Qed.

Lemma compact_fields S W :
  0 ≤ S < 256 → 0 ≤ W < 2 ^ 23 →
  compact_size (S * 2 ^ 24 + W) = S
  ∧ compact_mantissa (S * 2 ^ 24 + W) = W
  ∧ Z.land (S * 2 ^ 24 + W) 0x00800000 = 0.
Proof.
  intros HS HW. unfold compact_size, compact_mantissa.
  rewrite sign_bit_clear_iff, land_0xFF, land_0x7FFFFF, Z.shiftr_div_pow2 by lia.
  split; [|split]; Z.div_mod_to_equations; lia.
Qed.

Lemma CompactToBig_null nCompact :
  Z.land nCompact 0x00800000 ≠ 0 ∨ 32 < compact_size nCompact →
  CompactToBig nCompact = null_hash.
Proof.
  intros H. unfold CompactToBig. fold (compact_size nCompact).
  destruct (Z.eqb_spec (Z.land nCompact 0x00800000) 0) as [Hs|Hs]; [|done].
  destruct H as [H|H]; [done|]. simpl negb. cbv iota.
  destruct (Z.gtb_spec (compact_size nCompact) 34); [done|].
  destruct (Z.leb_spec (compact_size nCompact) 3); [lia|].
  destruct (Z.leb_spec (compact_size nCompact - 3) 29); [lia|done].
Qed.

(** [CompactToBig] on a compact value given by its size and its three
    mantissa bytes. *)
Lemma CompactToBig_digits c S d0 d1 d2 :
  0 ≤ S ≤ 32 → 0 ≤ d0 < 256 → 0 ≤ d1 < 256 → 0 ≤ d2 < 128 →
  c = S * 2 ^ 24 + (d0 + 2 ^ 8 * d1 + 2 ^ 16 * d2) →
  CompactToBig c
  = if decide (4 ≤ S) then bytes3 (Z.to_nat (S - 3)) d0 d1 d2
    else if decide (S = 3) then bytes3 0 d0 d1 d2
    else if decide (S = 2) then bytes3 0 d1 d2 0
    else if decide (S = 1) then bytes3 0 d2 0 0
    else null_hash.
Proof.
  intros HS H0 H1 H2 ->.
  set (W := d0 + 2 ^ 8 * d1 + 2 ^ 16 * d2).
  destruct (compact_fields S W) as (Hsize & Hm & Hsign); [lia|unfold W; lia|].
  unfold CompactToBig.
  fold (compact_size (S * 2 ^ 24 + W)). fold (compact_mantissa (S * 2 ^ 24 + W)).
  rewrite Hsign, Hsize, Hm. simpl negb. cbv iota zeta.
  destruct (Z.gtb_spec S 34); [lia|].
  rewrite !land_0xFF.
  destruct (Z.leb_spec S 3).
  - rewrite decide_False by lia.
    assert (S = 0 ∨ S = 1 ∨ S = 2 ∨ S = 3) as [-> | [-> | [-> | ->]]] by lia;
      rewrite !Z.shiftr_div_pow2 by lia.
    + replace (W / 2 ^ (8 * (3 - 0))) with 0 by (unfold W; Z.div_mod_to_equations; lia).
      change (0 / 2 ^ 8) with 0. change (0 / 2 ^ 16) with 0. change (0 mod 2 ^ 8) with 0.
      repeat case_decide; try lia. apply (bytes3_zero 0). lia.
    + replace (W / 2 ^ (8 * (3 - 1))) with d2 by (unfold W; Z.div_mod_to_equations; lia).
      repeat case_decide; try lia. unfold bytes3.
      f_equal; [|f_equal; [|f_equal]]; Z.div_mod_to_equations; lia.
    + replace (W / 2 ^ (8 * (3 - 2))) with (d1 + 2 ^ 8 * d2) by (unfold W; Z.div_mod_to_equations; lia).
      repeat case_decide; try lia. unfold bytes3.
      f_equal; [|f_equal; [|f_equal]]; Z.div_mod_to_equations; lia.
    + change (2 ^ (8 * (3 - 3))) with 1. rewrite Z.div_1_r.
      repeat case_decide; try lia.
      destruct (digits3 W d0 d1 d2) as (-> & -> & ->); [lia..|done|done].
  - rewrite decide_True by lia.
    rewrite !Z.shiftr_div_pow2 by lia.
    destruct (Z.leb_spec (S - 3) 29); [|lia].
    destruct (Z.ltb_spec (S - 3 + 1) 32); [|lia].
    destruct (Z.ltb_spec (S - 3 + 2) 32); [|lia].
    destruct (digits3 W d0 d1 d2) as (-> & -> & ->); [lia..|done|].
    rewrite !Z2Nat.inj_add by lia. done.
Qed.

Lemma BigToCompact_large t i :
  Forall (λ b, 0 ≤ b < 256) t →
  find_msb t 32 = Some i → (3 ≤ i)%nat →
  BigToCompact t
  = if decide (128 ≤ byte_at t i)
    then (Z.of_nat i + 2) * 2 ^ 24 + (byte_at t (i - 1) + 2 ^ 8 * byte_at t i)
    else (Z.of_nat i + 1) * 2 ^ 24
         + (byte_at t (i - 2) + 2 ^ 8 * byte_at t (i - 1) + 2 ^ 16 * byte_at t i).
Proof.
  intros Ht Hfind Hi. unfold BigToCompact. rewrite Hfind.
  apply find_msb_Some in Hfind as (Hlt & _ & _).
  pose proof (byte_at_bounds t i Ht).
  pose proof (byte_at_bounds t (i - 1) Ht).
  pose proof (byte_at_bounds t (i - 2) Ht).
  destruct (Z.leb_spec (Z.of_nat i + 1) 3); [lia|].
  rewrite !Z.shiftl_mul_pow2 by lia.
  rewrite (lor_disjoint _ (byte_at t (i - 1) * 2 ^ 8) 16) by (try Z.div_mod_to_equations; lia).
  rewrite (lor_disjoint _ (byte_at t (i - 2)) 8) by (try Z.div_mod_to_equations; lia).
  cbv zeta.
  set (w := byte_at t i * 2 ^ 16 + byte_at t (i - 1) * 2 ^ 8 + byte_at t (i - 2)).
  assert (0 ≤ w < 2 ^ 24) by (unfold w; lia).
  destruct (Z.eqb_spec (Z.land w 0x00800000) 0) as [Hs|Hs];
    rewrite sign_bit_clear_iff in Hs; simpl negb; cbv iota.
  - rewrite decide_False by (unfold w in *; Z.div_mod_to_equations; lia).
    rewrite (lor_disjoint _ _ 24) by (try Z.div_mod_to_equations; lia).
    unfold w. lia.
  - rewrite decide_True by (unfold w in *; Z.div_mod_to_equations; lia).
    rewrite Z.shiftr_div_pow2 by lia.
    rewrite (lor_disjoint _ _ 24) by (try Z.div_mod_to_equations; lia).
    unfold w. Z.div_mod_to_equations. lia.
Qed.

Lemma BigToCompact_small t i :
  Forall (λ b, 0 ≤ b < 256) t →
  find_msb t 32 = Some i → (i ≤ 2)%nat →
  BigToCompact t
  = (Z.of_nat i + 1) * 2 ^ 24
    + match i with
      | 0%nat => 2 ^ 16 * byte_at t 0
      | 1%nat => 2 ^ 8 * byte_at t 0 + 2 ^ 16 * byte_at t 1
      | _ => byte_at t 0 + 2 ^ 8 * byte_at t 1 + 2 ^ 16 * byte_at t 2
      end.
Proof.
  intros Ht Hfind Hi. unfold BigToCompact. rewrite Hfind.
  pose proof (byte_at_bounds t 0 Ht).
  pose proof (byte_at_bounds t 1 Ht).
  pose proof (byte_at_bounds t 2 Ht).
  destruct (Z.leb_spec (Z.of_nat i + 1) 3); [|lia].
  destruct i as [|[|[|i]]]; [| | |lia]; simpl Z.to_nat; simpl pack_low;
    change (Z.shiftl 0 8) with 0; change (u32 0) with 0; rewrite Z.lor_0_l;
    rewrite !Z.shiftl_mul_pow2 by lia.
  - change (8 * (3 - (Z.of_nat 0 + 1))) with 16.
    rewrite u32_small by lia.
    rewrite (lor_disjoint _ _ 24) by (try Z.div_mod_to_equations; lia). lia.
  - change (8 * (3 - (Z.of_nat 1 + 1))) with 8.
    rewrite (u32_small (byte_at t 1 * 2 ^ 8)) by lia.
    rewrite (lor_disjoint _ (byte_at t 0) 8) by (try Z.div_mod_to_equations; lia).
    rewrite u32_small by lia.
    rewrite (lor_disjoint _ _ 24) by (try Z.div_mod_to_equations; lia). lia.
  - change (8 * (3 - (Z.of_nat 2 + 1))) with 0.
    rewrite (u32_small (byte_at t 2 * 2 ^ 8)) by lia.
    rewrite (lor_disjoint _ (byte_at t 1) 8) by (try Z.div_mod_to_equations; lia).
    rewrite (u32_small ((_ + _) * 2 ^ 8)) by lia.
    rewrite (lor_disjoint _ (byte_at t 0) 8) by (try Z.div_mod_to_equations; lia).
    rewrite u32_small by lia.
    rewrite (lor_disjoint _ _ 24) by (try Z.div_mod_to_equations; lia). lia.
Qed.

(** The most significant non-zero byte of three placed bytes. *)
Lemma find_msb_bytes3 pos d0 d1 d2 :
  (pos ≤ 29)%nat →
  find_msb (bytes3 pos d0 d1 d2) 32
  = if decide (d2 ≠ 0) then Some (pos + 2)%nat
    else if decide (d1 ≠ 0) then Some (pos + 1)%nat
    else if decide (d0 ≠ 0) then Some pos
    else None.
Proof.
  intros Hpos. repeat case_decide.
  - apply find_msb_Some. split; [lia|]. rewrite byte_at_bytes3 by done.
    split; [repeat case_decide; (done || lia)|].
    intros j Hj. rewrite byte_at_bytes3 by done. repeat case_decide; lia.
  - apply find_msb_Some. split; [lia|]. rewrite byte_at_bytes3 by done.
    split; [repeat case_decide; (done || lia)|].
    intros j Hj. rewrite byte_at_bytes3 by done. repeat case_decide; lia.
  - apply find_msb_Some. split; [lia|]. rewrite byte_at_bytes3 by done.
    split; [repeat case_decide; (done || lia)|].
    intros j Hj. rewrite byte_at_bytes3 by done. repeat case_decide; lia.
  - apply find_msb_None. intros j Hj. rewrite byte_at_bytes3 by done.
    repeat case_decide; lia.
Qed.

(** The value of [BigToCompact] on three placed bytes. *)
Lemma BigToCompact_bytes3 pos d0 d1 d2 :
  (pos ≤ 29)%nat → 0 ≤ d0 < 256 → 0 ≤ d1 < 256 → 0 ≤ d2 < 128 →
  BigToCompact (bytes3 pos d0 d1 d2)
  = if decide (d2 ≠ 0) then
      (Z.of_nat pos + 3) * 2 ^ 24 + (d0 + 2 ^ 8 * d1 + 2 ^ 16 * d2)
    else if decide (d1 ≠ 0) then
      if decide ((2 ≤ pos)%nat ∧ 128 ≤ d1)
      then (Z.of_nat pos + 3) * 2 ^ 24 + (d0 + 2 ^ 8 * d1)
      else (Z.of_nat pos + 2) * 2 ^ 24 + (2 ^ 8 * d0 + 2 ^ 16 * d1)
    else if decide (d0 ≠ 0) then
      if decide ((3 ≤ pos)%nat ∧ 128 ≤ d0)
      then (Z.of_nat pos + 2) * 2 ^ 24 + 2 ^ 8 * d0
      else (Z.of_nat pos + 1) * 2 ^ 24 + 2 ^ 16 * d0
    else 0.
Proof.
  intros Hpos H0 H1 H2.
  pose proof (bytes3_wf pos d0 d1 d2 H0 H1 ltac:(lia)) as [_ Hbytes].
  pose proof (find_msb_bytes3 pos d0 d1 d2 Hpos) as Hfind.
  destruct (decide (d2 ≠ 0)) as [Hd2|Hd2];
    [|destruct (decide (d1 ≠ 0)) as [Hd1|Hd1];
      [|destruct (decide (d0 ≠ 0)) as [Hd0|Hd0]]].
  - destruct (decide (3 ≤ pos + 2)%nat).
    + rewrite (BigToCompact_large _ _ Hbytes Hfind) by done.
      rewrite !byte_at_bytes3 by done. repeat case_decide; lia.
    + rewrite (BigToCompact_small _ _ Hbytes Hfind) by lia.
      assert (pos = 0%nat) as -> by lia. simpl.
      rewrite !byte_at_bytes3 by done. repeat case_decide; lia.
  - destruct (decide (3 ≤ pos + 1)%nat).
    + rewrite (BigToCompact_large _ _ Hbytes Hfind) by done.
      rewrite !byte_at_bytes3 by done. repeat case_decide; lia.
    + rewrite (BigToCompact_small _ _ Hbytes Hfind) by lia.
      assert (pos = 0 ∨ pos = 1)%nat as [-> | ->] by lia; simpl;
        rewrite !byte_at_bytes3 by done; repeat case_decide; lia.
  - destruct (decide (3 ≤ pos)%nat).
    + rewrite (BigToCompact_large _ _ Hbytes Hfind) by done.
      rewrite !byte_at_bytes3 by done. repeat case_decide; lia.
    + rewrite (BigToCompact_small _ _ Hbytes Hfind) by lia.
      assert (pos = 0 ∨ pos = 1 ∨ pos = 2)%nat as [-> | [-> | ->]] by lia; simpl;
        rewrite !byte_at_bytes3 by done; repeat case_decide; lia.
  - unfold BigToCompact. by rewrite Hfind.
Qed.

Lemma compact_decompose c :
  0 ≤ c < 2 ^ 32 → Z.land c 0x00800000 = 0 →
  c = compact_size c * 2 ^ 24 + compact_mantissa c
  ∧ 0 ≤ compact_size c < 256 ∧ 0 ≤ compact_mantissa c < 2 ^ 23.
Proof.
  intros Hc Hs. rewrite sign_bit_clear_iff in Hs.
  unfold compact_size, compact_mantissa.
  rewrite land_0xFF, land_0x7FFFFF, Z.shiftr_div_pow2 by lia.
  split; [|split]; Z.div_mod_to_equations; lia.
Qed.

Lemma CompactToBig_zero : CompactToBig 0 = null_hash.
Proof. reflexivity. Qed.

Lemma roundtrip_bytes3 pos d0 d1 d2 :
  (pos ≤ 29)%nat → 0 ≤ d0 < 256 → 0 ≤ d1 < 256 → 0 ≤ d2 < 128 →
  Z.land (BigToCompact (bytes3 pos d0 d1 d2)) 0x00800000 = 0 →
  CompactToBig (BigToCompact (bytes3 pos d0 d1 d2)) = bytes3 pos d0 d1 d2.
Proof.
  intros Hpos H0 H1 H2.
  rewrite BigToCompact_bytes3 by done.
  rewrite sign_bit_clear_iff.
  repeat case_decide; intros Hsign.
  - rewrite (CompactToBig_digits _ (Z.of_nat pos + 3) d0 d1 d2) by lia.
    repeat case_decide; try lia; bytes3_ext.
  - rewrite (CompactToBig_digits _ (Z.of_nat pos + 3) d0 d1 0) by lia.
    repeat case_decide; try lia; bytes3_ext.
  - assert (d1 < 128) by (Z.div_mod_to_equations; lia).
    rewrite (CompactToBig_digits _ (Z.of_nat pos + 2) 0 d0 d1) by lia.
    repeat case_decide; try lia; bytes3_ext.
  - rewrite (CompactToBig_digits _ (Z.of_nat pos + 2) 0 d0 0) by lia.
    repeat case_decide; try lia; bytes3_ext.
  - assert (d0 < 128) by (Z.div_mod_to_equations; lia).
    rewrite (CompactToBig_digits _ (Z.of_nat pos + 1) 0 0 d0) by lia.
    repeat case_decide; try lia; bytes3_ext.
  - rewrite CompactToBig_zero. bytes3_ext.
Qed.

Lemma CompactToBig_image c :
  0 ≤ c < 2 ^ 32 →
  CompactToBig c = null_hash
  ∨ ∃ pos d0 d1 d2, (pos ≤ 29)%nat ∧ 0 ≤ d0 < 256 ∧ 0 ≤ d1 < 256 ∧ 0 ≤ d2 < 128
                    ∧ CompactToBig c = bytes3 pos d0 d1 d2.
Proof.
  intros Hc.
  destruct (decide (Z.land c 0x00800000 = 0)) as [Hs|Hs];
    [|left; apply CompactToBig_null; by left].
  destruct (decide (compact_size c ≤ 32)) as [Hsize|Hsize];
    [|left; apply CompactToBig_null; right; lia].
  destruct (compact_decompose c Hc Hs) as (Hdec & HS & Hm).
  destruct (digits3_exist (compact_mantissa c)) as (d0 & d1 & d2 & H0 & H1 & H2 & Hd); [lia|].
  assert (d2 < 128) by lia.
  rewrite (CompactToBig_digits c (compact_size c) d0 d1 d2) by lia.
  repeat case_decide.
  - right. exists (Z.to_nat (compact_size c - 3)), d0, d1, d2.
    split; [lia|]. split; [lia|]. split; [lia|]. split; [lia|done].
  - right. exists 0%nat, d0, d1, d2.
    split; [lia|]. split; [lia|]. split; [lia|]. split; [lia|done].
  - right. exists 0%nat, d1, d2, 0.
    split; [lia|]. split; [lia|]. split; [lia|]. split; [lia|done].
  - right. exists 0%nat, d2, 0, 0.
    split; [lia|]. split; [lia|]. split; [lia|]. split; [lia|done].
  - by left.
Qed.

Lemma CompactToBig_wf c : 0 ≤ c < 2 ^ 32 → wf_hash (CompactToBig c).
Proof.
  intros Hc.
  destruct (CompactToBig_image c Hc) as [-> | (pos & d0 & d1 & d2 & ? & ? & ? & ? & ->)].
  - apply null_hash_wf.
  - apply bytes3_wf; lia.
Qed.

(** Expanding the compact form of an expanded compact value gives the
    expansion back, unless [BigToCompact] leaves the sign bit set. *)
Lemma CompactToBig_BigToCompact_image c :
  0 ≤ c < 2 ^ 32 →
  Z.land (BigToCompact (CompactToBig c)) 0x00800000 = 0 →
  CompactToBig (BigToCompact (CompactToBig c)) = CompactToBig c.
Proof.
  intros Hc.
  destruct (CompactToBig_image c Hc) as [-> | (pos & d0 & d1 & d2 & ? & ? & ? & ? & ->)].
  - intros _. reflexivity.
  - by apply roundtrip_bytes3.
Qed.

(** Compacting the expansion of a canonical compact value of size at most
    32 gives the value back when its mantissa has a non-zero top byte or its
    size is at least 5. *)
Lemma BigToCompact_CompactToBig_canonical c :
  canonical c → compact_size c ≤ 32 →
  0x010000 ≤ compact_mantissa c ∨ 5 ≤ compact_size c →
  BigToCompact (CompactToBig c) = c.
Proof.
  intros (Hc & Hs & Hmin & Hlow) Hsize Hcase.
  destruct (compact_decompose c Hc Hs) as (Hdec & HS & Hm).
  destruct (digits3_exist (compact_mantissa c)) as (d0 & d1 & d2 & H0 & H1 & H2 & Hd); [lia|].
  assert (d2 < 128) by lia.
  rewrite (CompactToBig_digits c (compact_size c) d0 d1 d2) by lia.
  repeat case_decide.
  - rewrite BigToCompact_bytes3 by (done || lia).
    repeat case_decide; lia.
  - rewrite BigToCompact_bytes3 by (done || lia).
    repeat case_decide; lia.
  - assert (compact_mantissa c mod 2 ^ 8 = 0) as Hz.
    { replace (2 ^ 8) with (2 ^ (8 * (3 - compact_size c))); [apply Hlow; lia|].
      by replace (compact_size c) with 2 by lia. }
    assert (d0 = 0) by (Z.div_mod_to_equations; lia).
    rewrite BigToCompact_bytes3 by (done || lia).
    repeat case_decide; lia.
  - assert (compact_mantissa c mod 2 ^ 16 = 0) as Hz.
    { replace (2 ^ 16) with (2 ^ (8 * (3 - compact_size c))); [apply Hlow; lia|].
      by replace (compact_size c) with 1 by lia. }
    assert (d0 = 0 ∧ d1 = 0) as [-> ->] by (Z.div_mod_to_equations; lia).
    rewrite BigToCompact_bytes3 by (done || lia).
    repeat case_decide; lia.
  - assert (compact_mantissa c mod 2 ^ 24 = 0) as Hz.
    { replace (2 ^ 24) with (2 ^ (8 * (3 - compact_size c))); [apply Hlow; lia|].
      by replace (compact_size c) with 0 by lia. }
    exfalso. Z.div_mod_to_equations. lia.
Qed.

(** [BigToCompact] leaves the sign bit clear on a target that has more than
    three significant bytes or whose most significant non-zero byte is
    below [0x80]. *)
Lemma BigToCompact_sign_bit_clear t :
  wf_hash t →
  (∀ i, find_msb t 32 = Some i → (3 ≤ i)%nat ∨ byte_at t i < 0x80) →
  Z.land (BigToCompact t) 0x00800000 = 0.
Proof.
  intros [_ Ht] Hmsb.
  destruct (find_msb t 32) as [i|] eqn:Hfind.
  - pose proof (byte_at_bounds t i Ht).
    pose proof (byte_at_bounds t (i - 1) Ht).
    pose proof (byte_at_bounds t (i - 2) Ht).
    destruct (decide (3 ≤ i)%nat) as [Hi|Hi].
    + rewrite (BigToCompact_large t i) by done.
      rewrite sign_bit_clear_iff.
      case_decide; Z.div_mod_to_equations; lia.
    + destruct (Hmsb i eq_refl) as [?|Hb]; [lia|].
      rewrite (BigToCompact_small t i) by (done || lia).
      rewrite sign_bit_clear_iff.
      pose proof (byte_at_bounds t 0 Ht).
      pose proof (byte_at_bounds t 1 Ht).
      pose proof (byte_at_bounds t 2 Ht).
      destruct i as [|[|[|i]]]; [| | |lia]; Z.div_mod_to_equations; lia.
  - unfold BigToCompact. by rewrite Hfind.
Qed.

(** C1, as the code has it. (i) For every compact value [c], expanding the
    compact form of the target [CompactToBig c] gives that target back,
    provided [BigToCompact] leaves the sign bit of its compact form clear.
    (ii) For every canonical compact value [c] of size at most 32 whose
    mantissa has a non-zero top byte or whose size is at least 5,
    [BigToCompact (CompactToBig c) = c]. (iii) The sign bit is clear in the
    output of [BigToCompact] on every target that has more than three
    significant bytes or whose most significant non-zero byte is below
    [0x80]. *)
Theorem compact_round_trip :
  (∀ c, 0 ≤ c < 2 ^ 32 →
     Z.land (BigToCompact (CompactToBig c)) 0x00800000 = 0 →
     CompactToBig (BigToCompact (CompactToBig c)) = CompactToBig c)
  ∧ (∀ c, canonical c → compact_size c ≤ 32 →
     0x010000 ≤ compact_mantissa c ∨ 5 ≤ compact_size c →
     BigToCompact (CompactToBig c) = c)
  ∧ (∀ t, wf_hash t →
     (∀ i, find_msb t 32 = Some i → (3 ≤ i)%nat ∨ byte_at t i < 0x80) →
     Z.land (BigToCompact t) 0x00800000 = 0).
Proof.
  split; [|split].
  - exact CompactToBig_BigToCompact_image.
  - exact BigToCompact_CompactToBig_canonical.
  - exact BigToCompact_sign_bit_clear.
Qed.

Lemma compact_round_trip_witness :
  CompactToBig (BigToCompact (CompactToBig 0x1d00ffff)) = CompactToBig 0x1d00ffff
  ∧ BigToCompact (CompactToBig 0x1d00ffff) = 0x1d00ffff
  ∧ Z.land (BigToCompact sample_powLimit) 0x00800000 = 0.
Proof.
  destruct compact_round_trip as (Ha & Hb & Hc).
  split; [|split].
  - apply Ha; [lia|reflexivity].
  - apply Hb.
    + unfold canonical. split; [lia|]. split; [reflexivity|]. split; [vm_compute; discriminate|].
      vm_compute. discriminate.
    + vm_compute. discriminate.
    + right. vm_compute. discriminate.
  - apply Hc.
    + apply CompactToBig_wf. lia.
    + intros i Hi. vm_compute in Hi. injection Hi as <-. left. lia.
Defined.

(** C1, counterexample. With the Bitcoin-style maximum as [powLimit]: the
    target [0x01000001] is below the limit and loses its low byte in the
    round trip; the target [0x80] is below the limit and its compact form
    [0x01800000] has the sign bit set; the canonical compact values
    [0x04008000] and [0x2100ffff] do not come back from their expansions. *)
Lemma compact_round_trip_counterexample :
  (wf_hash sample_target_4bytes
   ∧ le_value sample_target_4bytes ≤ le_value sample_powLimit
   ∧ CompactToBig (BigToCompact sample_target_4bytes) ≠ sample_target_4bytes)
  ∧ (wf_hash sample_target_0x80
     ∧ le_value sample_target_0x80 ≤ le_value sample_powLimit
     ∧ BigToCompact sample_target_0x80 = 0x01800000
     ∧ Z.land (BigToCompact sample_target_0x80) 0x00800000 ≠ 0)
  ∧ (canonical 0x04008000
     ∧ BigToCompact (CompactToBig 0x04008000) = 0x03800000)
  ∧ (canonical 0x2100ffff
     ∧ BigToCompact (CompactToBig 0x2100ffff) = 0).
Proof.
  assert (∀ c, 0 ≤ c < 2 ^ 32 → Z.land c 0x00800000 = 0 →
               0x008000 ≤ compact_mantissa c → 3 ≤ compact_size c → canonical c)
    as Hcanon.
  { intros c ? ? ? ?. unfold canonical. split; [done|]. split; [done|].
    split; [done|]. lia. }
  split; [|split; [|split]].
  - split; [by apply (bool_decide_unpack _)|].
    split; [vm_compute; discriminate|]. vm_compute. discriminate.
  - split; [by apply (bool_decide_unpack _)|].
    split; [vm_compute; discriminate|]. split; [reflexivity|].
    vm_compute. discriminate.
  - split; [|reflexivity].
    apply Hcanon; [lia|reflexivity|vm_compute; discriminate|vm_compute; discriminate].
  - split; [|reflexivity].
    apply Hcanon; [lia|reflexivity|vm_compute; discriminate|vm_compute; discriminate].
Qed.

(** ** The min-difficulty rule *)

Lemma ancestors_unfold pindex :
  ancestors pindex
  = pindex :: match pprev pindex with Some prev => ancestors prev | None => [] end.
Proof. by destruct pindex. Qed.

Lemma last_non_min_difficulty_bits_unfold interval limit pindex :
  last_non_min_difficulty_bits interval limit pindex
  = match pprev pindex with
    | Some prev =>
      if negb (Z.rem (nHeight pindex) interval =? 0) && (nBits pindex =? limit)
      then last_non_min_difficulty_bits interval limit prev
      else nBits pindex
    | None => nBits pindex
    end.
Proof. by destruct pindex. Qed.

(** The walk skips a run of min-difficulty blocks none of which sits at a
    retarget boundary, and stops at the block below the run when that
    block is at real difficulty. *)
Lemma last_non_min_difficulty_bits_run interval limit run :
  ∀ pindex real rest,
    ancestors pindex = run ++ real :: rest →
    Forall (λ b, nBits b = limit ∧ Z.rem (nHeight b) interval ≠ 0) run →
    nBits real ≠ limit →
    last_non_min_difficulty_bits interval limit pindex = nBits real.
Proof.
  induction run as [|b run IH]; intros pindex real rest Hanc Hrun Hreal.
  - rewrite ancestors_unfold in Hanc. simpl in Hanc.
    injection Hanc as -> _.
    rewrite last_non_min_difficulty_bits_unfold.
    destruct (pprev real); [|done].
    destruct (Z.eqb_spec (nBits real) limit); [done|].
    by rewrite andb_false_r.
  - rewrite ancestors_unfold in Hanc. simpl in Hanc.
    injection Hanc as <- Htail.
    apply Forall_cons in Hrun as [[Hbits Hrem] Hrun].
    rewrite last_non_min_difficulty_bits_unfold.
    destruct (pprev pindex) as [prev|]; [|by destruct run].
    destruct (Z.eqb_spec (Z.rem (nHeight pindex) interval) 0); [done|].
    destruct (Z.eqb_spec (nBits pindex) limit); [|done].
    simpl. by eapply IH.
Qed.

(** The walk stops at a block that sits at a retarget boundary, whatever
    its difficulty. *)
Lemma last_non_min_difficulty_bits_boundary interval limit pindex :
  Z.rem (nHeight pindex) interval = 0 →
  last_non_min_difficulty_bits interval limit pindex = nBits pindex.
Proof.
  intros Hrem. rewrite last_non_min_difficulty_bits_unfold.
  destruct (pprev pindex); [|done].
  by rewrite Hrem.
Qed.

(** The walk does what its comment says when no block of the run sits at a
    retarget boundary. On a network that permits min-difficulty blocks and
    retargets, for a next block whose header time is at most twice the
    target spacing after the previous block, [GetNextWorkRequired] returns
    the [nBits] of the last block that is not part of the consecutive run of
    min-difficulty blocks, provided no block of that run sits at a height
    that is a multiple of the difficulty adjustment interval. *)
Lemma GetNextWorkRequired_skips_min_difficulty_run
    (params : Params) (last : BlockIndex) (block : BlockHeader)
    (run : list BlockIndex) (real : BlockIndex) (rest : list BlockIndex) :
  fAllowMinDifficultyBlocks params = true →
  fPowNoRetargeting params = false →
  DifficultyAdjustmentInterval params ≠ 0 →
  header_nTime block ≤ GetBlockTime last + nPowTargetSpacing params * 2 →
  ancestors last = run ++ real :: rest →
  Forall (λ b, nBits b = BigToCompact (powLimit params)
               ∧ Z.rem (nHeight b) (DifficultyAdjustmentInterval params) ≠ 0) run →
  nBits real ≠ BigToCompact (powLimit params) →
  GetNextWorkRequired (Some last) (Some block) params = nBits real.
Proof.
  intros Hmin Hret _ Htime Hanc Hrun Hreal.
  unfold GetNextWorkRequired. rewrite Hret, Hmin.
  destruct (Z.gtb_spec (header_nTime block)
              (GetBlockTime last + nPowTargetSpacing params * 2)); [lia|].
  by eapply last_non_min_difficulty_bits_run.
Qed.

(** The walk never leaves a run of min-difficulty blocks that ends, going
    back, in a min-difficulty block at a retarget boundary. Stated for the
    chain of timely blocks on such a block: every block of the chain is
    given the minimum difficulty, and the walk from it returns the minimum
    difficulty. *)
Lemma timely_chain_min_difficulty params pindex n :
  fAllowMinDifficultyBlocks params = true →
  fPowNoRetargeting params = false →
  0 ≤ nPowTargetSpacing params →
  nBits pindex = BigToCompact (powLimit params) →
  Z.rem (nHeight pindex) (DifficultyAdjustmentInterval params) = 0 →
  nBits (timely_chain params n pindex) = BigToCompact (powLimit params)
  ∧ last_non_min_difficulty_bits (DifficultyAdjustmentInterval params)
      (BigToCompact (powLimit params)) (timely_chain params n pindex)
    = BigToCompact (powLimit params).
Proof.
  intros Hmin Hret Hspacing Hbits Hrem.
  induction n as [|n [IHbits IHwalk]].
  - split; [done|]. simpl. by rewrite last_non_min_difficulty_bits_boundary.
  - cbn [timely_chain]. cbv zeta.
    set (last := timely_chain params n pindex) in *.
    assert (GetNextWorkRequired (Some last)
              (Some (mkBlockHeader (GetBlockTime last + nPowTargetSpacing params))) params
            = BigToCompact (powLimit params)) as Hnext.
    { unfold GetNextWorkRequired. rewrite Hret, Hmin. cbn [header_nTime].
      destruct (Z.gtb_spec (GetBlockTime last + nPowTargetSpacing params)
                  (GetBlockTime last + nPowTargetSpacing params * 2)); [lia|].
      exact IHwalk. }
    rewrite Hnext. split; [done|].
    rewrite last_non_min_difficulty_bits_unfold. cbn [pprev nHeight nBits].
    by destruct (_ && _).
Qed.

(** C8, the divergence. On the sample test network (retargeting every four
    blocks, 30-second spacing) the block at height 4 arrives 100 seconds
    after block 3 and is given the minimum difficulty by the gap rule,
    while block 3 carries the real difficulty [0x1c0ffff0]. For the next
    block, 30 seconds later, [GetNextWorkRequired] returns the
    minimum-difficulty target, not the [nBits] of block 3: the walk stops at
    the min-difficulty block itself, whose height is a multiple of the
    interval. And every later block that arrives on time is given the
    minimum difficulty too. *)
Theorem GetNextWorkRequired_min_difficulty_divergence :
  fAllowMinDifficultyBlocks sample_testnet = true
  ∧ fPowNoRetargeting sample_testnet = false
  ∧ DifficultyAdjustmentInterval sample_testnet = 4
  ∧ nBits sample_block3 = 0x1c0ffff0
  ∧ BigToCompact (powLimit sample_testnet) = 0x1d00ffff
  ∧ sample_block4_min
    = mkBlockIndex 4 1190
        (GetNextWorkRequired (Some sample_block3) (Some (mkBlockHeader 1190)) sample_testnet)
        (Some sample_block3)
  ∧ 1220 ≤ GetBlockTime sample_block4_min + nPowTargetSpacing sample_testnet * 2
  ∧ GetNextWorkRequired (Some sample_block4_min) (Some (mkBlockHeader 1220)) sample_testnet
    = 0x1d00ffff
  ∧ GetNextWorkRequired (Some sample_block4_min) (Some (mkBlockHeader 1220)) sample_testnet
    ≠ nBits sample_block3
  ∧ ∀ n, nBits (timely_chain sample_testnet n sample_block4_min) = 0x1d00ffff.
Proof.
  split; [reflexivity|]. split; [reflexivity|]. split; [reflexivity|].
  split; [reflexivity|].
  assert (BigToCompact (powLimit sample_testnet) = 0x1d00ffff) as Hlimit
    by (vm_compute; reflexivity).
  split; [exact Hlimit|].
  split; [vm_compute; reflexivity|].
  split; [vm_compute; discriminate|].
  split; [vm_compute; reflexivity|].
  split; [vm_compute; discriminate|].
  intros n. rewrite <- Hlimit.
  apply timely_chain_min_difficulty.
  - reflexivity.
  - reflexivity.
  - vm_compute. discriminate.
  - rewrite Hlimit. reflexivity.
  - reflexivity.
Qed.

(** ** The PoUW commitment check *)

Section PoUWProofs.

Variable OP_RETURN : Z.
Variable IsCoinBase : Transaction → bool.

(** C4, as the code has it. A non-genesis block whose coinbase holds no
    commitment is accepted exactly when the network sets [fPoUWOptional] or
    [fPowNoRetargeting]. *)
Theorem VerifyUsefulWork_no_commitment
    (block : Block) (params : Params) (coinbase : Transaction) (txs : list Transaction) :
  vtx block = coinbase :: txs →
  IsCoinBase coinbase = true →
  IsNull (hashPrevBlock block) = false →
  ExtractPoUWCommitment OP_RETURN coinbase = None →
  VerifyUsefulWork OP_RETURN IsCoinBase block params
  = fPoUWOptional params || fPowNoRetargeting params.
Proof.
  intros Hvtx Hcb Hprev Hnone. unfold VerifyUsefulWork.
  rewrite Hvtx, Hcb, Hprev, Hnone. simpl.
  by destruct (fPoUWOptional params), (fPowNoRetargeting params).
Qed.

End PoUWProofs.

Lemma VerifyUsefulWork_no_commitment_witness :
  VerifyUsefulWork 0x6a (λ _, true) sample_block sample_testnet
  = fPoUWOptional sample_testnet || fPowNoRetargeting sample_testnet.
Proof.
  apply (VerifyUsefulWork_no_commitment 0x6a (λ _, true) sample_block
           sample_testnet sample_coinbase []); reflexivity.
Defined.

(** C4, counterexample. On the regression-test network [fPoUWOptional] is
    unset and [fPowNoRetargeting] is set: a non-genesis block without a
    commitment is accepted all the same. *)
Lemma VerifyUsefulWork_no_commitment_counterexample :
  vtx sample_block = [sample_coinbase]
  ∧ IsNull (hashPrevBlock sample_block) = false
  ∧ ExtractPoUWCommitment 0x6a sample_coinbase = None
  ∧ fPoUWOptional sample_regtest = false
  ∧ VerifyUsefulWork 0x6a (λ _, true) sample_block sample_regtest = true.
Proof. repeat split; reflexivity. Qed.

(** ** Targets as integers *)

Lemma le_value_nonneg h : Forall (λ b, 0 ≤ b < 256) h → 0 ≤ le_value h.
Proof. induction 1; simpl; lia. Qed.

Lemma le_value_bound h :
  Forall (λ b, 0 ≤ b < 256) h → le_value h < 256 ^ Z.of_nat (length h).
Proof.
  induction 1 as [|b r Hb Hr IH]; [simpl; lia|].
  cbn [le_value length]. rewrite Nat2Z.inj_succ, Z.pow_succ_r by lia. lia.
Qed.

Lemma le_value_replicate n : le_value (replicate n 0) = 0.
Proof. induction n; simpl; lia. Qed.

Lemma le_value_insert h i v :
  (i < length h)%nat →
  le_value (<[i := v]> h) = le_value h + (v - byte_at h i) * 256 ^ Z.of_nat i.
Proof.
  revert i. induction h as [|b r IH]; intros i Hi; [simpl in Hi; lia|].
  destruct i as [|i].
  - cbn. lia.
  - cbn [list_insert insert le_value]. simpl in Hi.
    change (<[S i:=v]> (b :: r)) with (b :: <[i:=v]> r). cbn [le_value].
    rewrite IH by lia. change (byte_at (b :: r) (S i)) with (byte_at r i).
    rewrite Nat2Z.inj_succ, Z.pow_succ_r by lia. lia.
Qed.

Lemma le_value_bytes3 pos d0 d1 d2 :
  (pos ≤ 29)%nat →
  le_value (bytes3 pos d0 d1 d2)
  = (d0 + 2 ^ 8 * d1 + 2 ^ 16 * d2) * 256 ^ Z.of_nat pos.
Proof.
  intros Hpos. unfold bytes3.
  rewrite !le_value_insert by (rewrite ?length_insert; unfold null_hash;
                               rewrite length_replicate; lia).
  rewrite !byte_at_insert, !byte_at_null_hash.
  repeat case_decide; try lia.
  unfold null_hash. rewrite le_value_replicate.
  rewrite !Nat2Z.inj_add. rewrite !Z.pow_add_r by lia.
  change (256 ^ Z.of_nat 1) with 256. change (256 ^ Z.of_nat 2) with 65536.
  change (2 ^ 8) with 256. change (2 ^ 16) with 65536. lia.
Qed.

Lemma le_value_null_hash : le_value null_hash = 0.
Proof. apply le_value_replicate. Qed.

(** The integer a compact value stands for. *)
Lemma le_value_CompactToBig c :
  0 ≤ c < 2 ^ 32 →
  le_value (CompactToBig c)
  = if decide (Z.land c 0x00800000 ≠ 0 ∨ 32 < compact_size c) then 0
    else if decide (3 ≤ compact_size c)
         then compact_mantissa c * 256 ^ (compact_size c - 3)
         else compact_mantissa c / 256 ^ (3 - compact_size c).
Proof.
  intros Hc. case_decide as Hnull.
  { rewrite CompactToBig_null by done. apply le_value_null_hash. }
  assert (Z.land c 0x00800000 = 0) as Hsign.
  { destruct (decide (Z.land c 0x00800000 = 0)); [done|]. exfalso. apply Hnull. by left. }
  assert (compact_size c ≤ 32) as Hsize by (apply Z.nlt_ge; intros ?; apply Hnull; by right).
  destruct (compact_decompose c Hc Hsign) as (Hdec & HS & HW).
  set (S := compact_size c) in *. set (W := compact_mantissa c) in *.
  destruct (digits3_exist W) as (d0 & d1 & d2 & H0 & H1 & H2 & HWd); [lia|].
  assert (d2 < 128) by lia.
  rewrite (CompactToBig_digits c S d0 d1 d2) by (try lia; by rewrite Hdec, HWd).
  repeat case_decide; try lia.
  - rewrite le_value_bytes3 by lia. rewrite Z2Nat.id by lia. by rewrite HWd.
  - rewrite le_value_bytes3 by lia. subst S.
    replace (compact_size c - 3) with 0 by lia. by rewrite HWd.
  - rewrite le_value_bytes3 by lia.
    replace (3 - S) with 1 by lia. change (256 ^ 1) with 256.
    change (256 ^ Z.of_nat 0) with 1. rewrite HWd.
    change (2 ^ 8) with 256. change (2 ^ 16) with 65536.
    apply Z.div_unique with d0; lia.
  - rewrite le_value_bytes3 by lia.
    replace (3 - S) with 2 by lia. change (256 ^ 2) with 65536.
    change (256 ^ Z.of_nat 0) with 1. rewrite HWd.
    change (2 ^ 8) with 256. change (2 ^ 16) with 65536.
    apply Z.div_unique with (d0 + 256 * d1); lia.
  - rewrite le_value_null_hash.
    replace (3 - S) with 3 by lia. change (256 ^ 3) with 16777216.
    symmetry. apply Z.div_small. change (2 ^ 23) with 8388608 in HW. lia.
Qed.

(** X4. The target of a compact value, as an integer: zero when the sign
    bit is set or the size is above 32, the mantissa times [256^(size-3)]
    from size 3 on, and the mantissa without its low [3-size] bytes below
    that. *)
Theorem CompactToBig_value c :
  0 ≤ c < 2 ^ 32 →
  le_value (CompactToBig c)
  = if decide (Z.land c 0x00800000 ≠ 0 ∨ 32 < compact_size c) then 0
    else if decide (3 ≤ compact_size c)
         then compact_mantissa c * 256 ^ (compact_size c - 3)
         else compact_mantissa c / 256 ^ (3 - compact_size c).
Proof. exact (le_value_CompactToBig c). Qed.

Lemma CompactToBig_value_witness :
  le_value (CompactToBig 0x1d00ffff) = 0x00ffff * 256 ^ 26.
Proof.
  rewrite (CompactToBig_value 0x1d00ffff) by lia.
  reflexivity.
Defined.

Lemma le_value_snoc l b :
  le_value (l ++ [b]) = le_value l + b * 256 ^ Z.of_nat (length l).
Proof.
  induction l as [|x l IH]; [cbn; lia|].
  cbn [app le_value length]. rewrite IH, Nat2Z.inj_succ, Z.pow_succ_r by lia. lia.
Qed.

Lemma le_value_take_S a i :
  (i < length a)%nat →
  le_value (take (S i) a) = le_value (take i a) + byte_at a i * 256 ^ Z.of_nat i.
Proof.
  intros Hi. destruct (lookup_lt_is_Some_2 a i Hi) as [b Hb].
  rewrite (take_S_r a i b Hb), le_value_snoc, length_take_le by lia.
  unfold byte_at. by rewrite Hb.
Qed.

Lemma le_value_take_bound a i :
  Forall (λ b, 0 ≤ b < 256) a → (i ≤ length a)%nat →
  0 ≤ le_value (take i a) < 256 ^ Z.of_nat i.
Proof.
  intros Ha Hi. pose proof (Forall_take _ i _ Ha) as Ht.
  pose proof (le_value_nonneg _ Ht). pose proof (le_value_bound _ Ht) as Hb.
  rewrite length_take_le in Hb by lia. lia.
Qed.

(** The loop of [CheckProofOfWork] and [CalculateNextWorkRequired] decides
    the order of the integers. *)
Lemma exceeds_limit_spec a b n :
  Forall (λ x, 0 ≤ x < 256) a → Forall (λ x, 0 ≤ x < 256) b →
  (n ≤ length a)%nat → (n ≤ length b)%nat →
  exceeds_limit a b n = bool_decide (le_value (take n b) < le_value (take n a)).
Proof.
  intros Ha Hb. induction n as [|i IH]; intros Hna Hnb.
  { rewrite !take_0. reflexivity. }
  cbn [exceeds_limit]. rewrite !le_value_take_S by lia.
  pose proof (le_value_take_bound a i Ha ltac:(lia)).
  pose proof (le_value_take_bound b i Hb ltac:(lia)).
  pose proof (byte_at_bounds a i Ha). pose proof (byte_at_bounds b i Hb).
  set (p := 256 ^ Z.of_nat i) in *.
  destruct (Z.gtb_spec (byte_at a i) (byte_at b i)).
  { rewrite bool_decide_true; [done|]. nia. }
  destruct (Z.ltb_spec (byte_at a i) (byte_at b i)).
  { rewrite bool_decide_false; [done|]. nia. }
  rewrite IH by lia. replace (byte_at a i) with (byte_at b i) by lia.
  apply bool_decide_ext. lia.
Qed.

Lemma Hash256_lt_from_spec a b n :
  Forall (λ x, 0 ≤ x < 256) a → Forall (λ x, 0 ≤ x < 256) b →
  (n ≤ length a)%nat → (n ≤ length b)%nat →
  Hash256_lt_from a b n = bool_decide (le_value (take n a) < le_value (take n b)).
Proof.
  intros Ha Hb. induction n as [|i IH]; intros Hna Hnb.
  { rewrite !take_0. reflexivity. }
  cbn [Hash256_lt_from]. rewrite !le_value_take_S by lia.
  pose proof (le_value_take_bound a i Ha ltac:(lia)).
  pose proof (le_value_take_bound b i Hb ltac:(lia)).
  pose proof (byte_at_bounds a i Ha). pose proof (byte_at_bounds b i Hb).
  set (p := 256 ^ Z.of_nat i) in *.
  destruct (Z.ltb_spec (byte_at a i) (byte_at b i)).
  { rewrite bool_decide_true; [done|]. nia. }
  destruct (Z.gtb_spec (byte_at a i) (byte_at b i)).
  { rewrite bool_decide_false; [done|]. nia. }
  rewrite IH by lia. replace (byte_at a i) with (byte_at b i) by lia.
  apply bool_decide_ext. lia.
Qed.

Lemma exceeds_limit_hash a b :
  wf_hash a → wf_hash b →
  exceeds_limit a b 32 = bool_decide (le_value b < le_value a).
Proof.
  intros [La Ha] [Lb Hb]. rewrite exceeds_limit_spec by (try done; lia).
  by rewrite !take_ge by lia.
Qed.

Lemma CompactToBig_wf_any c : wf_hash (CompactToBig c).
Proof.
  assert (∀ x, 0 ≤ Z.land x 0xFF < 256) as Hbyte.
  { intros x. rewrite land_0xFF. apply Z.mod_pos_bound. lia. }
  unfold CompactToBig. cbv zeta.
  repeat case_match; try apply null_hash_wf;
    (split; [by rewrite ?length_insert|];
     repeat (apply Forall_insert; [|apply Hbyte]); apply null_hash_wf).
Qed.

(** X5. For a 32-byte hash and a 32-byte [powLimit], [CheckProofOfWork]
    returns [true] exactly when [nBits] is not zero, the target
    [CompactToBig nBits] is at most [powLimit] and the hash is below the
    target, all three read as little-endian integers. *)
Theorem CheckProofOfWork_spec hash nBits params :
  wf_hash hash → wf_hash (powLimit params) →
  CheckProofOfWork hash nBits params = true
  ↔ nBits ≠ 0
    ∧ le_value (CompactToBig nBits) ≤ le_value (powLimit params)
    ∧ le_value hash < le_value (CompactToBig nBits).
Proof.
  intros Hhash Hlimit. unfold CheckProofOfWork.
  pose proof (CompactToBig_wf_any nBits) as Htarget.
  destruct (Z.eqb_spec nBits 0) as [->|Hne]; [split; [done|intros [? _]; done]|].
  rewrite exceeds_limit_hash by done.
  case_bool_decide as Hex.
  { split; [done|]. intros (_ & ? & _). lia. }
  unfold Hash256_lt. destruct Hhash as [Lh Hh], Htarget as [Lt Ht].
  rewrite Hash256_lt_from_spec by (try done; lia).
  rewrite !take_ge by lia. rewrite bool_decide_eq_true. split; [intros ?|intros (_ & _ & ?)]; [|done].
  split; [done|]. split; [lia|done].
Qed.

Lemma CheckProofOfWork_spec_witness :
  CheckProofOfWork null_hash 0x1d00ffff sample_testnet = true.
Proof.
  apply (CheckProofOfWork_spec null_hash 0x1d00ffff sample_testnet).
  - apply null_hash_wf.
  - apply CompactToBig_wf_any.
  - split; [lia|]. split; [vm_compute; discriminate|vm_compute; reflexivity].
Defined.

Lemma le_value_zeros_above t k :
  (k ≤ length t)%nat →
  (∀ j, (k ≤ j < length t)%nat → byte_at t j = 0) →
  le_value t = le_value (take k t).
Proof.
  intros Hk Hzero.
  assert (∀ m, (k ≤ m ≤ length t)%nat → le_value (take m t) = le_value (take k t)) as Hm.
  { induction m as [|m IH]; intros Hm.
    - by replace k with 0%nat by lia.
    - destruct (decide (k = S m)) as [->|]; [done|].
      rewrite le_value_take_S, Hzero, IH by lia. lia. }
  rewrite <- (Hm (length t)) by lia. by rewrite take_ge.
Qed.

Lemma compact_sign_set S W :
  0 ≤ S → 2 ^ 23 ≤ W < 2 ^ 24 → Z.land (S * 2 ^ 24 + W) 0x00800000 ≠ 0.
Proof.
  intros HS HW Hland. apply sign_bit_clear_iff in Hland.
  replace ((S * 2 ^ 24 + W) / 2 ^ 23) with (2 * S + 1) in Hland.
  - replace (2 * S + 1) with (1 + S * 2) in Hland by lia.
    rewrite Z.mod_add in Hland by lia. discriminate.
  - apply Z.div_unique with (W - 2 ^ 23); lia.
Qed.

Lemma compact_size_of S W :
  0 ≤ S < 256 → 0 ≤ W < 2 ^ 24 → compact_size (S * 2 ^ 24 + W) = S.
Proof.
  intros HS HW. unfold compact_size.
  rewrite Z.shiftr_div_pow2, land_0xFF by lia.
  replace ((S * 2 ^ 24 + W) / 2 ^ 24) with S.
  - apply Z.mod_small. lia.
  - apply Z.div_unique with W; lia.
Qed.

(** The three most significant bytes of a target, and what lies below
    them. *)
Lemma le_value_msb t i :
  wf_hash t → find_msb t 32 = Some i →
  le_value t = le_value (take i t) + byte_at t i * 256 ^ Z.of_nat i.
Proof.
  intros [Lt Ht] Hfind. apply find_msb_Some in Hfind as (Hi & _ & Hzero).
  rewrite (le_value_zeros_above t (S i)) by (rewrite ?Lt; first [lia | intros; apply Hzero; lia]).
  apply le_value_take_S. lia.
Qed.

(** The expansion of the compact form of a target, in the bytes of the
    target. *)
Lemma CompactToBig_BigToCompact_value t i :
  wf_hash t → find_msb t 32 = Some i →
  le_value (CompactToBig (BigToCompact t))
  = if decide (i ≤ 2)%nat then
      if decide (128 ≤ byte_at t i) then 0 else le_value t
    else if decide (128 ≤ byte_at t i) then
      if decide (i = 31)%nat then 0
      else (byte_at t (i - 1) + 2 ^ 8 * byte_at t i) * 256 ^ Z.of_nat (i - 1)
    else (byte_at t (i - 2) + 2 ^ 8 * byte_at t (i - 1) + 2 ^ 16 * byte_at t i)
         * 256 ^ Z.of_nat (i - 2).
Proof.
  intros Hwf Hfind. pose proof Hwf as [Lt Ht].
  pose proof (le_value_msb t i Hwf Hfind) as Hval.
  pose proof Hfind as Hfind'. apply find_msb_Some in Hfind' as (Hi & Hne & _).
  pose proof (byte_at_bounds t i Ht).
  pose proof (byte_at_bounds t (i - 1) Ht).
  pose proof (byte_at_bounds t (i - 2) Ht).
  pose proof (byte_at_bounds t 0 Ht).
  pose proof (byte_at_bounds t 1 Ht).
  pose proof (byte_at_bounds t 2 Ht).
  case_decide as Hsmall.
  - rewrite (BigToCompact_small t i) by (done || lia).
    case_decide as Htop.
    + rewrite CompactToBig_null; [apply le_value_null_hash|]. left.
      destruct i as [|[|[|i]]]; [| | |lia]; apply compact_sign_set; lia.
    + destruct i as [|[|[|i]]]; [| | |lia].
      * rewrite (CompactToBig_digits _ 1 0 0 (byte_at t 0)) by (simpl; lia).
        repeat case_decide; try lia. rewrite le_value_bytes3 by lia.
        rewrite Hval, take_0. cbn [le_value]. change (256 ^ Z.of_nat 0) with 1. lia.
      * rewrite (CompactToBig_digits _ 2 0 (byte_at t 0) (byte_at t 1)) by (simpl; lia).
        repeat case_decide; try lia. rewrite le_value_bytes3 by lia.
        rewrite Hval, (le_value_take_S t 0), take_0 by lia. cbn [le_value].
        change (256 ^ Z.of_nat 0) with 1. change (256 ^ Z.of_nat 1) with 256.
        change (2 ^ 8) with 256. lia.
      * rewrite (CompactToBig_digits _ 3 (byte_at t 0) (byte_at t 1) (byte_at t 2))
          by (simpl; lia).
        repeat case_decide; try lia. rewrite le_value_bytes3 by lia.
        rewrite Hval, (le_value_take_S t 1), (le_value_take_S t 0), take_0 by lia.
        cbn [le_value].
        change (256 ^ Z.of_nat 0) with 1. change (256 ^ Z.of_nat 1) with 256.
        change (256 ^ Z.of_nat 2) with 65536.
        change (2 ^ 8) with 256. change (2 ^ 16) with 65536. lia.
  - rewrite (BigToCompact_large t i) by (done || lia).
    case_decide as Htop.
    + case_decide as H31.
      * rewrite CompactToBig_null; [apply le_value_null_hash|]. right.
        rewrite compact_size_of by lia. lia.
      * rewrite (CompactToBig_digits _ (Z.of_nat i + 2) (byte_at t (i - 1)) (byte_at t i) 0)
          by lia.
        rewrite decide_True by lia. rewrite le_value_bytes3 by lia.
        replace (Z.to_nat (Z.of_nat i + 2 - 3)) with (i - 1)%nat by lia. lia.
    + rewrite (CompactToBig_digits _ (Z.of_nat i + 1)
                 (byte_at t (i - 2)) (byte_at t (i - 1)) (byte_at t i)) by lia.
      rewrite decide_True by lia. rewrite le_value_bytes3 by lia.
      replace (Z.to_nat (Z.of_nat i + 1 - 3)) with (i - 2)%nat by lia. lia.
Qed.

Lemma le_value_top3 t i :
  wf_hash t → find_msb t 32 = Some i → (2 ≤ i)%nat →
  le_value t
  = le_value (take (i - 2) t)
    + (byte_at t (i - 2) + 2 ^ 8 * byte_at t (i - 1) + 2 ^ 16 * byte_at t i)
      * 256 ^ Z.of_nat (i - 2).
Proof.
  intros Hwf Hfind Hi. pose proof Hwf as [Lt Ht].
  pose proof Hfind as Hfind'. apply find_msb_Some in Hfind' as (Hlt & _ & _).
  rewrite (le_value_msb t i Hwf Hfind).
  replace (take i t) with (take (S (S (i - 2))) t) by (f_equal; lia).
  rewrite !le_value_take_S by lia.
  replace (S (i - 2)) with (i - 1)%nat by lia.
  replace (Z.of_nat i) with (Z.of_nat (i - 2) + 2) by lia.
  replace (Z.of_nat (i - 1)) with (Z.of_nat (i - 2) + 1) by lia.
  rewrite !Z.pow_add_r by lia.
  change (256 ^ 2) with 65536. change (256 ^ 1) with 256.
  change (2 ^ 8) with 256. change (2 ^ 16) with 65536. lia.
Qed.

(** The compact form never stands for more than the target. *)
Lemma CompactToBig_BigToCompact_le t :
  wf_hash t → le_value (CompactToBig (BigToCompact t)) ≤ le_value t.
Proof.
  intros Hwf. pose proof Hwf as [Lt Ht].
  pose proof (le_value_nonneg t Ht) as Hnonneg.
  destruct (find_msb t 32) as [i|] eqn:Hfind.
  - rewrite (CompactToBig_BigToCompact_value t i Hwf Hfind).
    pose proof Hfind as Hfind'. apply find_msb_Some in Hfind' as (Hlt & _ & _).
    pose proof (byte_at_bounds t i Ht).
    pose proof (byte_at_bounds t (i - 1) Ht).
    pose proof (byte_at_bounds t (i - 2) Ht).
    repeat case_decide; try lia.
    + rewrite (le_value_top3 t i) by (done || lia).
      pose proof (le_value_take_bound t (i - 2) Ht ltac:(lia)).
      replace (Z.of_nat (i - 1)) with (Z.of_nat (i - 2) + 1) by lia.
      rewrite Z.pow_add_r by lia. change (256 ^ 1) with 256.
      change (2 ^ 8) with 256. change (2 ^ 16) with 65536.
      set (p := 256 ^ Z.of_nat (i - 2)) in *. nia.
    + rewrite (le_value_top3 t i) by (done || lia).
      pose proof (le_value_take_bound t (i - 2) Ht ltac:(lia)). lia.
  - unfold BigToCompact. rewrite Hfind, CompactToBig_zero, le_value_null_hash. done.
Qed.

(** X6. Expanding the compact form of a target never gives more than the
    target: compaction only rounds down. *)
Theorem BigToCompact_never_above t :
  wf_hash t → le_value (CompactToBig (BigToCompact t)) ≤ le_value t.
Proof. exact (CompactToBig_BigToCompact_le t). Qed.

Lemma BigToCompact_never_above_witness :
  le_value (CompactToBig (BigToCompact sample_target_4bytes))
  ≤ le_value sample_target_4bytes.
Proof.
  apply (BigToCompact_never_above sample_target_4bytes).
  apply (bool_decide_unpack _). vm_compute. exact I.
Defined.

(** X7. A target whose most significant byte sits at index 3 to 30 loses
    less than one part in 32 768 in its compact form. *)
Theorem BigToCompact_precision t i :
  wf_hash t → find_msb t 32 = Some i → (3 ≤ i ≤ 30)%nat →
  32768 * (le_value t - le_value (CompactToBig (BigToCompact t))) < le_value t.
Proof.
  intros Hwf Hfind Hi. pose proof Hwf as [Lt Ht].
  rewrite (CompactToBig_BigToCompact_value t i Hwf Hfind).
  pose proof Hfind as Hfind'. apply find_msb_Some in Hfind' as (Hlt & Hne & _).
  pose proof (byte_at_bounds t i Ht).
  pose proof (byte_at_bounds t (i - 1) Ht).
  pose proof (byte_at_bounds t (i - 2) Ht).
  rewrite (le_value_top3 t i) by (done || lia).
  pose proof (le_value_take_bound t (i - 2) Ht ltac:(lia)).
  change (2 ^ 8) with 256. change (2 ^ 16) with 65536.
  repeat case_decide; try lia.
  - replace (Z.of_nat (i - 1)) with (Z.of_nat (i - 2) + 1) by lia.
    rewrite Z.pow_add_r by lia. change (256 ^ 1) with 256.
    set (p := 256 ^ Z.of_nat (i - 2)) in *. nia.
  - set (p := 256 ^ Z.of_nat (i - 2)) in *. nia.
Qed.

Lemma BigToCompact_precision_witness :
  32768 * (le_value sample_target_4bytes
           - le_value (CompactToBig (BigToCompact sample_target_4bytes)))
  < le_value sample_target_4bytes.
Proof.
  apply (BigToCompact_precision sample_target_4bytes 3).
  - apply (bool_decide_unpack _). vm_compute. exact I.
  - vm_compute. reflexivity.
  - lia.
Defined.

Lemma limited_within_limit c limit :
  wf_hash limit →
  le_value (CompactToBig (if exceeds_limit (CompactToBig c) limit 32
                          then BigToCompact limit else c))
  ≤ le_value limit.
Proof.
  intros Hlimit.
  rewrite exceeds_limit_hash by (done || apply CompactToBig_wf_any).
  case_bool_decide as Hex.
  - by apply CompactToBig_BigToCompact_le.
  - lia.
Qed.

(** X8. With [fPowNoRetargeting] unset and a 32-byte [powLimit], the target
    that [CalculateNextWorkRequired] returns is at most [powLimit] as an
    integer, whatever the previous [nBits] and the block times. *)
Theorem CalculateNextWorkRequired_within_limit pindexLast nFirstBlockTime params :
  wf_hash (powLimit params) →
  fPowNoRetargeting params = false →
  le_value (CompactToBig (CalculateNextWorkRequired pindexLast nFirstBlockTime params))
  ≤ le_value (powLimit params).
Proof.
  intros Hlimit Hretarget. unfold CalculateNextWorkRequired.
  rewrite Hretarget. cbv zeta.
  destruct (shrink_mantissa _ _ _) as [m e].
  destruct (grow_mantissa _ _ _) as [m' e'].
  by apply limited_within_limit.
Qed.

Lemma CalculateNextWorkRequired_within_limit_witness :
  le_value (CompactToBig (CalculateNextWorkRequired sample_block3 1000 sample_testnet))
  ≤ le_value (powLimit sample_testnet).
Proof.
  apply (CalculateNextWorkRequired_within_limit sample_block3 1000 sample_testnet).
  - apply CompactToBig_wf_any.
  - reflexivity.
Defined.

(** The first loop of the retarget only drops low bits: it ends with a
    mantissa of at most 23 bits, and never raises the value [m × 256^e]. *)
Lemma shrink_mantissa_spec fuel : ∀ m e m' e',
  shrink_mantissa fuel m e = (m', e') →
  0 ≤ m < 2 ^ (23 + 8 * Z.of_nat fuel) → 0 ≤ e →
  0 ≤ m' ≤ 0x007FFFFF ∧ e ≤ e' ∧ m' * 256 ^ e' ≤ m * 256 ^ e.
Proof.
  induction fuel as [|fuel IH]; intros m e m' e' Hrun Hm He.
  - cbn [shrink_mantissa] in Hrun. injection Hrun as <- <-.
    change (2 ^ (23 + 8 * Z.of_nat 0)) with 8388608 in Hm. lia.
  - cbn [shrink_mantissa] in Hrun.
    destruct (Z.gtb_spec m 0x007FFFFF) as [Hbig|Hsmall].
    + rewrite Z.shiftr_div_pow2 in Hrun by lia.
      assert (0 ≤ m / 2 ^ 8 < 2 ^ (23 + 8 * Z.of_nat fuel)) as Hq.
      { split; [apply Z.div_pos; lia|].
        apply Z.div_lt_upper_bound; [lia|].
        rewrite <- Z.pow_add_r by lia.
        replace (8 + (23 + 8 * Z.of_nat fuel)) with (23 + 8 * Z.of_nat (S fuel)) by lia.
        lia. }
      destruct (IH _ _ _ _ Hrun Hq ltac:(lia)) as (Hm' & He' & Hval).
      split; [done|]. split; [lia|].
      etrans; [exact Hval|].
      rewrite Z.pow_add_r by lia. change (256 ^ 1) with 256. change (2 ^ 8) with 256.
      pose proof (Z.mul_div_le m 256 ltac:(lia)).
      assert (0 < 256 ^ e) by (apply Z.pow_pos_nonneg; lia). nia.
    + injection Hrun as <- <-. lia.
Qed.

(** The second loop moves the mantissa up byte by byte and keeps the value
    [m × 256^e]. *)
Lemma grow_mantissa_spec fuel : ∀ m e m' e',
  grow_mantissa fuel m e = (m', e') →
  0 ≤ m ≤ 0x007FFFFF → 1 ≤ e →
  0 ≤ m' ≤ 0x007FFFFF ∧ 1 ≤ e' ≤ e ∧ m' * 256 ^ e' = m * 256 ^ e.
Proof.
  induction fuel as [|fuel IH]; intros m e m' e' Hrun Hm He.
  - cbn [grow_mantissa] in Hrun. injection Hrun as <- <-. lia.
  - cbn [grow_mantissa] in Hrun.
    destruct (Z.ltb_spec m 0x008000) as [Hlow|Hhigh]; cbn [andb] in Hrun.
    + destruct (Z.gtb_spec e 1) as [He1|He1].
      * rewrite Z.shiftl_mul_pow2 in Hrun by lia. change (2 ^ 8) with 256 in Hrun.
        rewrite u64_small in Hrun by lia.
        destruct (IH _ _ _ _ Hrun ltac:(lia) ltac:(lia)) as (Hm' & He' & Hval).
        split; [done|]. split; [lia|]. rewrite Hval.
        replace e with (e - 1 + 1) at 2 by lia.
        rewrite Z.pow_add_r by lia. change (256 ^ 1) with 256. lia.
      * injection Hrun as <- <-. lia.
    + injection Hrun as <- <-. lia.
Qed.

(** X9. One retarget raises the target at most fourfold. With
    [fPowNoRetargeting] unset, a target timespan between 1 and [2^32 - 1],
    and a previous [nBits] of 32 bits with a clear sign bit and a size from 3
    to 32, the target of the value that [CalculateNextWorkRequired] returns
    is at most four times the previous target, whatever the block times. *)
Theorem CalculateNextWorkRequired_at_most_fourfold pindexLast nFirstBlockTime params :
  fPowNoRetargeting params = false →
  wf_hash (powLimit params) →
  0 < nPowTargetTimespan params < 2 ^ 32 →
  0 ≤ nBits pindexLast < 2 ^ 32 →
  Z.land (nBits pindexLast) 0x00800000 = 0 →
  3 ≤ compact_size (nBits pindexLast) ≤ 32 →
  le_value (CompactToBig (CalculateNextWorkRequired pindexLast nFirstBlockTime params))
  ≤ 4 * le_value (CompactToBig (nBits pindexLast)).
Proof.
  intros Hretarget Hlimit HT Hbits Hsign Hsize.
  rewrite (le_value_CompactToBig (nBits pindexLast)) by done.
  rewrite decide_False by (intros [?|?]; [done|lia]).
  rewrite decide_True by lia.
  destruct (compact_decompose _ Hbits Hsign) as (_ & _ & HM).
  unfold compact_size, compact_mantissa in *.
  unfold CalculateNextWorkRequired. rewrite Hretarget. cbv zeta.
  set (T := nPowTargetTimespan params) in *.
  set (E := Z.land (Z.shiftr (nBits pindexLast) 24) 255) in *.
  set (M := Z.land (nBits pindexLast) 8388607) in *.
  set (actual0 := GetBlockTime pindexLast - nFirstBlockTime).
  set (actual1 := if actual0 <? Z.quot T 4 then Z.quot T 4 else actual0).
  set (actual := if actual1 >? T * 4 then T * 4 else actual1).
  assert (0 ≤ Z.quot T 4 ≤ T) as Hquot.
  { rewrite Z.quot_div_nonneg by lia. split; [apply Z.div_pos; lia|].
    apply Z.div_le_upper_bound; lia. }
  assert (0 ≤ actual ≤ 4 * T) as Hactual.
  { subst actual actual1.
    destruct (Z.ltb_spec actual0 (Z.quot T 4));
      [destruct (Z.gtb_spec (Z.quot T 4) (T * 4))|destruct (Z.gtb_spec actual0 (T * 4))];
      lia. }
  rewrite (u64_small M), (u64_small actual), (u64_small T) by lia.
  rewrite u64_small by nia.
  assert (0 ≤ M * actual / T ≤ 4 * M) as Hscaled.
  { split; [apply Z.div_pos; nia|]. apply Z.div_le_upper_bound; nia. }
  set (scaled := M * actual / T) in *.
  destruct (shrink_mantissa 8 scaled E) as [m1 e1] eqn:Hshrink.
  apply shrink_mantissa_spec in Hshrink as (Hm1 & He1 & Hv1);
    [|change (2 ^ (23 + 8 * Z.of_nat 8)) with (2 ^ 87); lia|lia].
  destruct (grow_mantissa (Z.to_nat e1) m1 e1) as [m2 e2] eqn:Hgrow.
  apply grow_mantissa_spec in Hgrow as (Hm2 & He2 & Hv2); [|lia|lia].
  set (e3 := if e2 >? 32 then 32 else e2).
  set (e4 := if e3 <? 1 then 1 else e3).
  assert (1 ≤ e4 ≤ 32 ∧ e4 ≤ e2) as (He4 & He42).
  { subst e4 e3.
    destruct (Z.gtb_spec e2 32); [destruct (Z.ltb_spec 32 1)|destruct (Z.ltb_spec e2 1)];
      lia. }
  assert (Z.land m2 0x00800000 = 0) as Hm2sign.
  { apply sign_bit_clear_iff. rewrite Z.div_small by lia. done. }
  rewrite Hm2sign. change (0 =? 0) with true. cbv iota. change (negb true) with false.
  cbv iota.
  set (c := Z.lor (u32 (Z.shiftl e4 24)) (Z.land (u32 m2) 8388607)).
  assert (c = e4 * 2 ^ 24 + m2) as Hc.
  { subst c. rewrite Z.shiftl_mul_pow2, (u32_small (e4 * 2 ^ 24)), (u32_small m2) by lia.
    rewrite land_0x7FFFFF, Z.mod_small by lia.
    apply (lor_disjoint _ _ 23); [lia| |lia].
    change (2 ^ 24) with (2 * 2 ^ 23). rewrite Z.mul_assoc. apply Z.mod_mul. lia. }
  assert (le_value (CompactToBig c) * 256 ^ 3 ≤ m2 * 256 ^ e4) as Hnew.
  { rewrite (le_value_CompactToBig c) by lia.
    destruct (compact_fields e4 m2 ltac:(lia) ltac:(lia)) as (HS & HW & Hsg).
    rewrite <- Hc in HS, HW, Hsg. rewrite HS, HW, Hsg.
    rewrite decide_False by (intros [?|?]; [done|lia]).
    case_decide.
    - rewrite <- Z.mul_assoc, <- Z.pow_add_r by lia. by replace (e4 - 3 + 3) with e4 by lia.
    - replace e4 with (3 - (3 - e4)) at 2 by lia.
      assert (0 < 256 ^ (3 - e4)) by (apply Z.pow_pos_nonneg; lia).
      assert (256 ^ 3 = 256 ^ (3 - e4) * 256 ^ e4) as Hsplit.
      { rewrite <- Z.pow_add_r by lia. f_equal. lia. }
      replace (3 - (3 - e4)) with e4 by lia.
      rewrite Hsplit.
      pose proof (Z.mul_div_le m2 (256 ^ (3 - e4)) ltac:(lia)).
      assert (0 < 256 ^ e4) by (apply Z.pow_pos_nonneg; lia). nia. }
  assert (m2 * 256 ^ e4 ≤ m2 * 256 ^ e2) as Hclamp.
  { apply Z.mul_le_mono_nonneg_l; [lia|]. apply Z.pow_le_mono_r; lia. }
  assert (M * 256 ^ E = M * 256 ^ (E - 3) * 256 ^ 3) as Hold.
  { rewrite <- Z.mul_assoc, <- Z.pow_add_r by lia. by replace (E - 3 + 3) with E by lia. }
  assert (0 < 256 ^ E) by (apply Z.pow_pos_nonneg; lia).
  assert (le_value (CompactToBig c) ≤ 4 * (M * 256 ^ (E - 3))) as Hbound.
  { assert (le_value (CompactToBig c) * 256 ^ 3 ≤ 4 * (M * 256 ^ (E - 3)) * 256 ^ 3); [|lia].
    etrans; [exact Hnew|]. etrans; [exact Hclamp|]. rewrite Hv2.
    etrans; [exact Hv1|]. nia. }
  rewrite exceeds_limit_hash by (done || apply CompactToBig_wf_any).
  case_bool_decide as Hex; [|done].
  pose proof (CompactToBig_BigToCompact_le _ Hlimit). lia.
Qed.

Lemma CalculateNextWorkRequired_at_most_fourfold_witness :
  le_value (CompactToBig (CalculateNextWorkRequired sample_block3 0 sample_testnet))
  ≤ 4 * le_value (CompactToBig (nBits sample_block3)).
Proof.
  apply (CalculateNextWorkRequired_at_most_fourfold sample_block3 0 sample_testnet).
  - reflexivity.
  - apply CompactToBig_wf_any.
  - simpl. lia.
  - simpl. lia.
  - reflexivity.
  - vm_compute. split; discriminate.
Defined.

(** ** The min-difficulty rule shadows the retarget *)

(** The walk ends at a block of the chain. *)
Lemma last_non_min_difficulty_bits_ancestor interval limit :
  ∀ n pindex, (length (ancestors pindex) ≤ n)%nat →
  last_non_min_difficulty_bits interval limit pindex ∈ nBits <$> ancestors pindex.
Proof.
  induction n as [|n IH]; intros pindex Hlen;
    rewrite ancestors_unfold in Hlen |- *; cbn [length] in Hlen; [lia|].
  rewrite last_non_min_difficulty_bits_unfold, fmap_cons.
  destruct (pprev pindex) as [prev|]; [|apply list_elem_of_here].
  destruct (negb _ && _); [|apply list_elem_of_here].
  apply list_elem_of_further, IH. lia.
Qed.

(** X10. With [fAllowMinDifficultyBlocks] set and a header passed,
    [GetNextWorkRequired] returns [BigToCompact powLimit] or the [nBits] of
    the last block or of one of its ancestors: the call returns before the
    retarget, which is never computed. *)
Theorem GetNextWorkRequired_min_difficulty_no_retarget
    (params : Params) (last : BlockIndex) (block : BlockHeader) :
  fAllowMinDifficultyBlocks params = true →
  GetNextWorkRequired (Some last) (Some block) params
  ∈ BigToCompact (powLimit params) :: (nBits <$> ancestors last).
Proof.
  intros Hallow. unfold GetNextWorkRequired. rewrite Hallow.
  destruct (fPowNoRetargeting params).
  - apply list_elem_of_further. rewrite ancestors_unfold, fmap_cons.
    apply list_elem_of_here.
  - cbv zeta. destruct (_ >? _); [apply list_elem_of_here|].
    apply list_elem_of_further.
    by apply (last_non_min_difficulty_bits_ancestor _ _ (length (ancestors last))).
Qed.

Lemma GetNextWorkRequired_min_difficulty_no_retarget_witness :
  GetNextWorkRequired (Some sample_block3) (Some (mkBlockHeader 1120)) sample_testnet
  ∈ BigToCompact (powLimit sample_testnet) :: (nBits <$> ancestors sample_block3).
Proof.
  apply (GetNextWorkRequired_min_difficulty_no_retarget sample_testnet sample_block3).
  reflexivity.
Defined.

(** ** The retarget window *)

Lemma step_back_ancestors n : ∀ pindex,
  step_back n (Some pindex) = ancestors pindex !! n.
Proof.
  induction n as [|n IH]; intros pindex; rewrite ancestors_unfold.
  - done.
  - cbn [step_back lookup list_lookup]. destruct (pprev pindex) as [prev|].
    + apply IH.
    + by destruct n.
Qed.

(** X11. With [fPowNoRetargeting] unset, the min-difficulty rule out of play
    (its flag unset, or no header passed) and the next height a multiple of
    the interval, [GetNextWorkRequired] measures the timespan from the block
    [interval - 1] links behind the last one; a chain with no such block
    keeps the [nBits] of its last block. *)
Theorem GetNextWorkRequired_retarget_window
    (params : Params) (last : BlockIndex) (pblock : option BlockHeader) :
  fPowNoRetargeting params = false →
  fAllowMinDifficultyBlocks params = false ∨ pblock = None →
  1 ≤ DifficultyAdjustmentInterval params < 2 ^ 31 →
  Z.rem (nHeight last + 1) (DifficultyAdjustmentInterval params) = 0 →
  GetNextWorkRequired (Some last) pblock params
  = match ancestors last !! Z.to_nat (DifficultyAdjustmentInterval params - 1) with
    | Some first => CalculateNextWorkRequired last (GetBlockTime first) params
    | None => nBits last
    end.
Proof.
  intros Hretarget Hrule Hinterval Hheight.
  unfold GetNextWorkRequired. rewrite Hretarget. cbv zeta.
  assert (i32 (DifficultyAdjustmentInterval params) = DifficultyAdjustmentInterval params)
    as Hi32.
  { unfold i32. rewrite Z.mod_small by lia. lia. }
  destruct Hrule as [Hoff| ->].
  - rewrite Hoff, Hheight. change (0 =? 0) with true. cbn [negb].
    by rewrite Hi32, step_back_ancestors.
  - rewrite Hheight. change (0 =? 0) with true. cbn [negb].
    rewrite Hi32, step_back_ancestors. by destruct (fAllowMinDifficultyBlocks params).
Qed.

Lemma GetNextWorkRequired_retarget_window_witness :
  GetNextWorkRequired (Some sample_block3) None sample_testnet
  = CalculateNextWorkRequired sample_block3 (GetBlockTime sample_block0) sample_testnet.
Proof.
  apply (GetNextWorkRequired_retarget_window sample_testnet sample_block3 None).
  - reflexivity.
  - by right.
  - simpl. lia.
  - reflexivity.
Defined.

(** ** The subsidy schedule *)

Lemma GetBlockSubsidy_div params h :
  0 < nSubsidyHalvingInterval params → 0 ≤ h →
  GetBlockSubsidy h params
  = if decide (64 ≤ h / nSubsidyHalvingInterval params) then 0
    else nInitialBlockReward params / 2 ^ (h / nSubsidyHalvingInterval params).
Proof.
  intros HI Hh. unfold GetBlockSubsidy.
  rewrite Z.quot_div_nonneg by lia.
  assert (0 ≤ h / nSubsidyHalvingInterval params) by (apply Z.div_pos; lia).
  destruct (Z.eqb_spec h 0) as [->|Hne].
  - rewrite Z.div_0_l by lia. rewrite decide_False by lia.
    change (2 ^ 0) with 1. by rewrite Z.div_1_r.
  - destruct (Z.geb_spec (h / nSubsidyHalvingInterval params) 64).
    + by rewrite decide_True by lia.
    + rewrite decide_False by lia. by rewrite Z.shiftr_div_pow2.
Qed.

Lemma GetBlockSubsidy_nonneg params h :
  0 ≤ nInitialBlockReward params →
  0 < nSubsidyHalvingInterval params → 0 ≤ h →
  0 ≤ GetBlockSubsidy h params.
Proof.
  intros HR HI Hh. rewrite GetBlockSubsidy_div by lia.
  case_decide; [lia|]. apply Z.div_pos; [lia|].
  apply Z.pow_pos_nonneg; [lia|]. apply Z.div_pos; lia.
Qed.

(** X12. With a non-negative initial reward and a positive halving interval,
    the subsidy never rises with the height and stays between zero and the
    initial reward: for [0 ≤ h1 ≤ h2],
    [0 ≤ GetBlockSubsidy h2 ≤ GetBlockSubsidy h1 ≤ nInitialBlockReward]. *)
Theorem GetBlockSubsidy_monotone params h1 h2 :
  0 ≤ nInitialBlockReward params →
  0 < nSubsidyHalvingInterval params →
  0 ≤ h1 ≤ h2 →
  0 ≤ GetBlockSubsidy h2 params
  ∧ GetBlockSubsidy h2 params ≤ GetBlockSubsidy h1 params
  ∧ GetBlockSubsidy h1 params ≤ nInitialBlockReward params.
Proof.
  intros HR HI Hh.
  rewrite !GetBlockSubsidy_div by lia.
  set (R := nInitialBlockReward params) in *.
  set (I := nSubsidyHalvingInterval params) in *.
  assert (0 ≤ h1 / I) by (apply Z.div_pos; lia).
  assert (h1 / I ≤ h2 / I) by (apply Z.div_le_mono; lia).
  assert (∀ k, 0 ≤ k → 0 ≤ R / 2 ^ k ≤ R) as Hshift.
  { intros k Hk. assert (0 < 2 ^ k) by (apply Z.pow_pos_nonneg; lia).
    split; [apply Z.div_pos; lia|]. apply Z.div_le_upper_bound; nia. }
  repeat case_decide; try lia.
  - split; [lia|]. split; [apply Hshift; lia|apply Hshift; lia].
  - split; [apply Hshift; lia|]. split; [|apply Hshift; lia].
    assert (0 < 2 ^ (h1 / I)) by (apply Z.pow_pos_nonneg; lia).
    apply Z.div_le_compat_l; [lia|]. split; [lia|].
    apply Z.pow_le_mono_r; lia.
Qed.

Lemma GetBlockSubsidy_monotone_witness :
  0 ≤ GetBlockSubsidy 420000 sample_testnet
  ∧ GetBlockSubsidy 420000 sample_testnet ≤ GetBlockSubsidy 209999 sample_testnet
  ∧ GetBlockSubsidy 209999 sample_testnet ≤ nInitialBlockReward sample_testnet.
Proof.
  apply (GetBlockSubsidy_monotone sample_testnet 209999 420000); simpl; lia.
Defined.

(** From one height to the next the subsidy stays, or at a multiple of
    the interval falls to half or less. *)
Lemma GetBlockSubsidy_next params h :
  0 ≤ nInitialBlockReward params →
  0 < nSubsidyHalvingInterval params → 0 ≤ h →
  if decide ((h + 1) mod nSubsidyHalvingInterval params = 0)
  then h mod nSubsidyHalvingInterval params = nSubsidyHalvingInterval params - 1
       ∧ 0 ≤ 2 * GetBlockSubsidy (h + 1) params ≤ GetBlockSubsidy h params
  else (h + 1) mod nSubsidyHalvingInterval params
       = h mod nSubsidyHalvingInterval params + 1
       ∧ GetBlockSubsidy (h + 1) params = GetBlockSubsidy h params.
Proof.
  intros HR HI Hh.
  rewrite !GetBlockSubsidy_div by lia.
  set (R := nInitialBlockReward params) in *.
  set (I := nSubsidyHalvingInterval params) in *.
  pose proof (Z.div_mod h I ltac:(lia)) as Hdm.
  pose proof (Z.mod_pos_bound h I ltac:(lia)) as Hmod.
  assert (0 ≤ h / I) as Hq by (apply Z.div_pos; lia).
  case_decide as Hnext.
  - assert (h mod I = I - 1 ∧ (h + 1) / I = h / I + 1) as [Hr Hq'].
    { pose proof (Z.div_mod (h + 1) I ltac:(lia)) as Hdm'. rewrite Hnext in Hdm'.
      assert ((h + 1) / I = h / I + 1) by nia. split; [nia|done]. }
    split; [done|]. rewrite Hq'.
    repeat case_decide; try lia.
    + assert (0 < 2 ^ (h / I)) by (apply Z.pow_pos_nonneg; lia).
      split; [lia|]. apply Z.div_pos; lia.
    + rewrite Z.pow_add_r by lia. change (2 ^ 1) with 2.
      assert (0 < 2 ^ (h / I)) by (apply Z.pow_pos_nonneg; lia).
      rewrite <- Z.div_div by lia.
      assert (0 ≤ R / 2 ^ (h / I)) by (apply Z.div_pos; lia).
      pose proof (Z.mul_div_le (R / 2 ^ (h / I)) 2 ltac:(lia)).
      split; [|lia].
      assert (0 ≤ R / 2 ^ (h / I) / 2) by (apply Z.div_pos; lia). lia.
  - assert ((h + 1) mod I = h mod I + 1 ∧ (h + 1) / I = h / I) as [Hr Hq'].
    { pose proof (Z.mod_pos_bound (h + 1) I ltac:(lia)).
      assert (h mod I + 1 < I).
      { destruct (decide (h mod I + 1 = I)) as [Heq|]; [|lia].
        exfalso. apply Hnext.
        replace (h + 1) with (I * (h / I) + I) by lia.
        replace (I * (h / I) + I) with ((h / I + 1) * I) by lia.
        apply Z.mod_mul. lia. }
      assert ((h + 1) / I = h / I).
      { symmetry. apply Z.div_unique with (h mod I + 1); lia. }
      split; [|done].
      symmetry. apply Z.mod_unique with (h / I); lia. }
    split; [done|]. by rewrite Hq'.
Qed.

Lemma total_subsidy_potential params n :
  0 ≤ nInitialBlockReward params →
  0 < nSubsidyHalvingInterval params →
  total_subsidy n params
  + (2 * nSubsidyHalvingInterval params - Z.of_nat n mod nSubsidyHalvingInterval params)
    * GetBlockSubsidy (Z.of_nat n) params
  ≤ 2 * nSubsidyHalvingInterval params * nInitialBlockReward params.
Proof.
  intros HR HI. induction n as [|n IH].
  - cbn [total_subsidy]. change (Z.of_nat 0) with 0.
    rewrite Z.mod_0_l by lia. unfold GetBlockSubsidy. simpl. lia.
  - cbn [total_subsidy]. rewrite Nat2Z.inj_succ, <- Z.add_1_r.
    pose proof (GetBlockSubsidy_next params (Z.of_nat n) HR HI ltac:(lia)) as Hnext.
    pose proof (Z.mod_pos_bound (Z.of_nat n) (nSubsidyHalvingInterval params) ltac:(lia)).
    set (I := nSubsidyHalvingInterval params) in *.
    set (f := GetBlockSubsidy (Z.of_nat n) params) in *.
    set (f' := GetBlockSubsidy (Z.of_nat n + 1) params) in *.
    case_decide as Hboundary.
    + destruct Hnext as [Hr Hhalf]. rewrite Hboundary. rewrite Hr in IH. nia.
    + destruct Hnext as [Hr Heq]. rewrite Hr, Heq. nia.
Qed.

(** X13. Total issuance is bounded: the subsidies of the first [n] blocks
    add up to at most twice the interval times the initial reward. *)
Theorem total_subsidy_bounded params n :
  0 ≤ nInitialBlockReward params →
  0 < nSubsidyHalvingInterval params →
  total_subsidy n params
  ≤ 2 * nSubsidyHalvingInterval params * nInitialBlockReward params.
Proof.
  intros HR HI.
  pose proof (total_subsidy_potential params n HR HI) as Hpot.
  pose proof (Z.mod_pos_bound (Z.of_nat n) (nSubsidyHalvingInterval params) ltac:(lia)).
  pose proof (GetBlockSubsidy_nonneg params (Z.of_nat n) HR HI ltac:(lia)).
  nia.
Qed.

Lemma total_subsidy_bounded_witness :
  total_subsidy 1000 sample_regtest
  ≤ 2 * nSubsidyHalvingInterval sample_regtest * nInitialBlockReward sample_regtest.
Proof.
  apply (total_subsidy_bounded sample_regtest 1000); simpl; lia.
Defined.

(** ** The reward split *)

Lemma reward_share_bounds blockReward percentage :
  0 ≤ blockReward → 0 ≤ percentage ≤ 100 → blockReward * 100 < 2 ^ 63 →
  100 * reward_share blockReward percentage ≤ blockReward * percentage
  ∧ blockReward * percentage < 100 * reward_share blockReward percentage + 100.
Proof.
  intros HR Hp Hmax. unfold reward_share.
  rewrite i64_small by nia. rewrite Z.quot_div_nonneg by nia.
  pose proof (Z.mul_div_le (blockReward * percentage) 100 ltac:(lia)).
  pose proof (Z.mul_succ_div_gt (blockReward * percentage) 100 ltac:(lia)). lia.
Qed.

(** X14. For a block reward [r] with [0 ≤ r] and [100 r < 2^63] and five
    percentages that are not negative and add up to 100, the five shares add
    up to at most [r] and to at least [r - 4]. *)
Theorem reward_split_sum blockReward params :
  0 ≤ blockReward → blockReward * 100 < 2 ^ 63 →
  0 ≤ nUBIPercentage params →
  0 ≤ nWorkRewardPercentage params →
  0 ≤ nContributionRewardPercentage params →
  0 ≤ nEcosystemPercentage params →
  0 ≤ nStabilityReservePercentage params →
  nUBIPercentage params + nWorkRewardPercentage params
  + nContributionRewardPercentage params + nEcosystemPercentage params
  + nStabilityReservePercentage params = 100 →
  blockReward - 4
  ≤ CalculateUBIReward blockReward params + CalculateWorkReward blockReward params
    + CalculateContributionReward blockReward params
    + CalculateEcosystemReward blockReward params
    + CalculateStabilityReserve blockReward params
  ≤ blockReward.
Proof.
  intros HR Hmax Hu Hw Hc He Hs Hsum.
  unfold CalculateUBIReward, CalculateWorkReward, CalculateContributionReward,
    CalculateEcosystemReward, CalculateStabilityReserve.
  pose proof (reward_share_bounds blockReward (nUBIPercentage params) HR ltac:(lia) Hmax).
  pose proof (reward_share_bounds blockReward (nWorkRewardPercentage params)
                HR ltac:(lia) Hmax).
  pose proof (reward_share_bounds blockReward (nContributionRewardPercentage params)
                HR ltac:(lia) Hmax).
  pose proof (reward_share_bounds blockReward (nEcosystemPercentage params)
                HR ltac:(lia) Hmax).
  pose proof (reward_share_bounds blockReward (nStabilityReservePercentage params)
                HR ltac:(lia) Hmax).
  nia.
Qed.

Lemma reward_split_sum_witness :
  4999999999 - 4
  ≤ CalculateUBIReward 4999999999 sample_shares
    + CalculateWorkReward 4999999999 sample_shares
    + CalculateContributionReward 4999999999 sample_shares
    + CalculateEcosystemReward 4999999999 sample_shares
    + CalculateStabilityReserve 4999999999 sample_shares
  ≤ 4999999999.
Proof.
  apply (reward_split_sum 4999999999 sample_shares); simpl; lia.
Defined.

(** ** Solutions of computational problems *)

Lemma land_0x80 b : 0 ≤ b < 256 → (Z.land b 0x80 =? 0) = (b <? 128).
Proof.
  intros Hb. change 0x80 with (2 ^ 7). rewrite land_pow2_testbit by lia.
  pose proof (Z.testbit_spec' b 7 ltac:(lia)) as Hbit.
  change (2 ^ 7) with 128 in *.
  destruct (Z.testbit b 7); simpl in Hbit;
    destruct (Z.ltb_spec b 128); try done; Z.div_mod_to_equations; lia.
Qed.

(** The inner loop counts the zero bits above the highest set bit of the
    byte. *)
Lemma count_leading_zeros_spec (k : nat) : ∀ fuel byte leadingZeroBits,
  (k < fuel)%nat → (k ≤ 7)%nat →
  2 ^ (7 - Z.of_nat k) ≤ byte < 2 ^ (8 - Z.of_nat k) →
  0 ≤ leadingZeroBits → leadingZeroBits + Z.of_nat k < 256 →
  count_leading_zeros fuel byte leadingZeroBits = leadingZeroBits + Z.of_nat k.
Proof.
  induction k as [|k IH]; intros fuel byte lzb Hfuel Hk Hbyte Hlzb Hmax;
    (destruct fuel as [|fuel]; [lia|]); cbn [count_leading_zeros].
  - change (2 ^ (7 - Z.of_nat 0)) with 128 in Hbyte.
    change (2 ^ (8 - Z.of_nat 0)) with 256 in Hbyte.
    rewrite land_0x80 by lia. destruct (Z.ltb_spec byte 128); [lia|]. simpl. lia.
  - assert (2 ^ (8 - Z.of_nat (S k)) ≤ 128) as Hle.
    { change 128 with (2 ^ 7). apply Z.pow_le_mono_r; lia. }
    assert (0 < 2 ^ (7 - Z.of_nat (S k))) by (apply Z.pow_pos_nonneg; lia).
    rewrite land_0x80 by lia. destruct (Z.ltb_spec byte 128); [|lia].
    destruct (Z.ltb_spec lzb 256); [|lia]. cbn [andb].
    rewrite Z.shiftl_mul_pow2 by lia. change (2 ^ 1) with 2.
    unfold u8. rewrite Z.mod_small by lia. rewrite u32_small by lia.
    rewrite IH; [lia|lia|lia| |lia|lia].
    replace (7 - Z.of_nat k) with (7 - Z.of_nat (S k) + 1) by lia.
    replace (8 - Z.of_nat k) with (8 - Z.of_nat (S k) + 1) by lia.
    rewrite !Z.pow_add_r by lia. change (2 ^ 1) with 2. lia.
Qed.

Lemma byte_top_bit byte :
  1 ≤ byte < 256 →
  ∃ k : nat, (k ≤ 7)%nat ∧ 2 ^ (7 - Z.of_nat k) ≤ byte < 2 ^ (8 - Z.of_nat k).
Proof.
  intros Hb. exists (Z.to_nat (7 - Z.log2 byte)).
  pose proof (Z.log2_spec byte ltac:(lia)) as Hlog.
  assert (0 ≤ Z.log2 byte) by apply Z.log2_nonneg.
  assert (Z.log2 byte < 8) by (apply Z.log2_lt_pow2; lia).
  rewrite Z2Nat.id by lia. split; [lia|].
  replace (7 - (7 - Z.log2 byte)) with (Z.log2 byte) by lia.
  replace (8 - (7 - Z.log2 byte)) with (Z.succ (Z.log2 byte)) by lia. done.
Qed.

Lemma be_value_cons b r :
  be_value (b :: r) = be_value r + b * 256 ^ Z.of_nat (length r).
Proof. unfold be_value. cbn [rev]. by rewrite le_value_snoc, length_rev. Qed.

Lemma be_value_bound h :
  Forall (λ b, 0 ≤ b < 256) h → 0 ≤ be_value h < 256 ^ Z.of_nat (length h).
Proof.
  intros Hh. unfold be_value.
  assert (Forall (λ b, 0 ≤ b < 256) (rev h)) as Hr by by apply Forall_rev.
  pose proof (le_value_nonneg _ Hr). pose proof (le_value_bound _ Hr) as Hb.
  rewrite length_rev in Hb. lia.
Qed.

(** The count of the leading zero bits decides how the hash, read with
    byte 0 first, compares with a power of two. *)
Lemma leading_zero_bits_spec h : ∀ leadingZeroBits,
  Forall (λ b, 0 ≤ b < 256) h →
  0 ≤ leadingZeroBits → leadingZeroBits + 8 * Z.of_nat (length h) ≤ 256 →
  ∃ k, leading_zero_bits h leadingZeroBits = leadingZeroBits + k
       ∧ 0 ≤ k ≤ 8 * Z.of_nat (length h)
       ∧ ∀ d, 0 ≤ d → d ≤ k ↔ be_value h < 2 ^ (8 * Z.of_nat (length h) - d).
Proof.
  induction h as [|b r IH]; intros lzb Hh Hlzb Hmax.
  - exists 0. cbn [leading_zero_bits length]. split; [lia|]. split; [lia|].
    intros d Hd. unfold be_value. cbn. split.
    + intros ?. replace d with 0 by lia. done.
    + intros Hlt. destruct (decide (d = 0)) as [->|]; [done|].
      rewrite Z.pow_neg_r in Hlt by lia. lia.
  - apply Forall_cons in Hh as [Hb Hr]. cbn [leading_zero_bits length] in *.
    rewrite Nat2Z.inj_succ in *. rewrite be_value_cons.
    pose proof (be_value_bound r Hr) as Hrest.
    set (n := Z.of_nat (length r)) in *.
    assert (256 ^ n = 2 ^ (8 * n)) as Hpow.
    { change 256 with (2 ^ 8). by rewrite <- Z.pow_mul_r by lia. }
    assert (0 < 2 ^ (8 * n)) by (apply Z.pow_pos_nonneg; lia).
    destruct (Z.eqb_spec b 0) as [->|Hne].
    + rewrite u32_small by lia.
      destruct (IH (lzb + 8) Hr ltac:(lia) ltac:(lia)) as (k & Hrun & Hk & Hspec).
      exists (8 + k). split; [lia|]. split; [lia|].
      intros d Hd. rewrite Z.mul_0_l, Z.add_0_r.
      destruct (decide (8 ≤ d)) as [Hd8|Hd8].
      * replace (8 * Z.succ n - d) with (8 * n - (d - 8)) by lia.
        rewrite <- Hspec by lia. lia.
      * split; [|lia]. intros _.
        assert (2 ^ (8 * n) ≤ 2 ^ (8 * Z.succ n - d)) by (apply Z.pow_le_mono_r; lia).
        lia.
    + destruct (byte_top_bit b ltac:(lia)) as (k & Hk & Hbk).
      rewrite (count_leading_zeros_spec k) by lia.
      exists (Z.of_nat k). split; [done|]. split; [lia|].
      intros d Hd. rewrite Hpow.
      assert (0 < 2 ^ (7 - Z.of_nat k)) by (apply Z.pow_pos_nonneg; lia).
      destruct (decide (d ≤ Z.of_nat k)) as [Hdk|Hdk].
      * split; [|done]. intros _.
        assert (2 ^ (8 * Z.succ n - d) = 2 ^ (8 - d) * 2 ^ (8 * n)) as ->.
        { rewrite <- Z.pow_add_r by lia. f_equal. lia. }
        assert (2 ^ (8 - Z.of_nat k) ≤ 2 ^ (8 - d)) by (apply Z.pow_le_mono_r; lia).
        nia.
      * split; [lia|]. intros Hlt. exfalso.
        assert (0 ≤ b * 2 ^ (8 * n)) by (apply Z.mul_nonneg_nonneg; lia).
        destruct (decide (d ≤ 8 * Z.succ n)) as [Hdn|Hdn];
          [|rewrite (Z.pow_neg_r 2 (8 * Z.succ n - d)) in Hlt by lia; lia].
        assert (2 ^ (8 * Z.succ n - d) ≤ 2 ^ (7 - Z.of_nat k) * 2 ^ (8 * n)).
        { rewrite <- Z.pow_add_r by lia. apply Z.pow_le_mono_r; lia. }
        nia.
Qed.

Lemma forallb_zero_false (l : list Z) :
  forallb (λ b, b =? 0) l = false ↔ Exists (λ b, b ≠ 0) l.
Proof.
  induction l as [|b l IH]; cbn [forallb].
  - split; [done|]. by intros ?%Exists_nil.
  - rewrite Exists_cons. destruct (Z.eqb_spec b 0); cbn [andb]; [|tauto].
    rewrite IH. tauto.
Qed.

(** X15. Given a 32-byte digest and a difficulty that is not negative,
    [VerifyPoUWSolution] accepts a solution exactly when it has at least 32
    bytes, not all of them zero, the difficulty is not zero, and the digest
    of the problem hash followed by the solution, read with byte 0 as the
    most significant, is below [2^(256 - difficulty)]. *)
Theorem VerifyPoUWSolution_spec SHA256 problemHash solution difficulty :
  wf_hash (SHA256 (problemHash ++ solution)) →
  0 ≤ difficulty →
  VerifyPoUWSolution SHA256 problemHash solution difficulty = true
  ↔ (32 ≤ length solution)%nat
    ∧ difficulty ≠ 0
    ∧ be_value (SHA256 (problemHash ++ solution)) < 2 ^ (256 - difficulty)
    ∧ Exists (λ b, b ≠ 0) solution.
Proof.
  intros [Hlen Hbytes] Hd. unfold VerifyPoUWSolution.
  case_bool_decide as Hempty.
  { subst solution. split; [done|]. cbn [length]. lia. }
  destruct (Nat.ltb_spec (length solution) 32) as [Hshort|Hlong].
  { split; [done|]. lia. }
  cbv zeta.
  destruct (Z.eqb_spec difficulty 0) as [Hzero|Hnonzero].
  { split; [done|]. tauto. }
  destruct (leading_zero_bits_spec (SHA256 (problemHash ++ solution)) 0 Hbytes)
    as (k & Hrun & Hk & Hspec); [lia|rewrite Hlen; lia|].
  rewrite Hrun, Z.add_0_l. rewrite Hlen in Hspec.
  change (8 * Z.of_nat 32) with 256 in Hspec.
  pose proof (Hspec difficulty Hd) as Hdiff.
  destruct (Z.ltb_spec k difficulty) as [Hlow|Hhigh].
  { split; [done|]. intros (_ & _ & Hlt & _). apply Hdiff in Hlt. lia. }
  destruct (forallb (λ b, b =? 0) solution) eqn:Hzeros.
  - split; [done|]. intros (_ & _ & _ & Hex).
    apply forallb_zero_false in Hex. congruence.
  - split; [|done]. intros _.
    split; [done|]. split; [done|]. split; [by apply Hdiff|].
    by apply forallb_zero_false.
Qed.

Lemma VerifyPoUWSolution_spec_witness :
  VerifyPoUWSolution sample_digest null_hash (replicate 31 0 ++ [1]) 20 = true.
Proof.
  apply (VerifyPoUWSolution_spec sample_digest null_hash (replicate 31 0 ++ [1]) 20).
  - apply (bool_decide_unpack _). vm_compute. exact I.
  - lia.
  - split; [vm_compute; lia|]. split; [lia|]. split; [vm_compute; reflexivity|].
    apply Exists_exists. exists 1. split; [|lia].
    apply elem_of_app. right. apply list_elem_of_here.
Defined.

(** ** Where the commitment is read from *)

(** The scan of the scriptSig returns the commitment behind the first
    magic. *)
Lemma scan_scriptSig_first script i fuel : ∀ j,
  (i + POUW_COMMITMENT_MIN_SIZE ≤ length script)%nat →
  magic_at script i = true →
  (∀ k, (j ≤ k < i)%nat → magic_at script k = false) →
  (j ≤ i)%nat → (i < fuel + j)%nat →
  scan_scriptSig script fuel j = Some (commitment_at script i).
Proof.
  induction fuel as [|fuel IH]; intros j Hfit Hmagic Hnone Hji Hfuel; [lia|].
  cbn [scan_scriptSig].
  destruct (Nat.leb_spec (j + POUW_COMMITMENT_MIN_SIZE) (length script)); [|lia].
  destruct (decide (j = i)) as [->|Hne]; [by rewrite Hmagic|].
  rewrite Hnone by lia. apply IH; try done; [|lia|lia].
  intros k Hk. apply Hnone. lia.
Qed.

Lemma magic_at_app prefix rest :
  magic_at (prefix ++ POUW_COMMITMENT_MAGIC ++ rest) (length prefix) = true.
Proof.
  unfold magic_at. rewrite drop_app_length.
  apply bool_decide_eq_true. reflexivity.
Qed.

Lemma commitment_at_app prefix c suffix :
  length c = POUW_COMMITMENT_HASH_SIZE →
  commitment_at (prefix ++ POUW_COMMITMENT_MAGIC ++ c ++ suffix) (length prefix) = c.
Proof.
  intros Hc. unfold commitment_at.
  rewrite <- drop_drop, drop_app_length.
  change (drop POUW_COMMITMENT_MAGIC_SIZE (POUW_COMMITMENT_MAGIC ++ c ++ suffix))
    with (c ++ suffix).
  rewrite <- Hc. apply take_app_length.
Qed.

Section ExtractProofs.

Variable OP_RETURN : Z.

(** X16. When the scriptSig of the first input is a prefix, the magic, 32
    bytes [c] and a suffix, and the magic occurs at no offset inside the
    prefix, [ExtractPoUWCommitment] returns [c], whatever the outputs
    hold. *)
Theorem ExtractPoUWCommitment_scriptSig coinbase txin inputs prefix c suffix :
  vin coinbase = txin :: inputs →
  scriptSig txin = prefix ++ POUW_COMMITMENT_MAGIC ++ c ++ suffix →
  length c = POUW_COMMITMENT_HASH_SIZE →
  (∀ k, (k < length prefix)%nat → magic_at (scriptSig txin) k = false) →
  ExtractPoUWCommitment OP_RETURN coinbase = Some c.
Proof.
  intros Hvin Hscript Hc Hfirst. unfold ExtractPoUWCommitment. rewrite Hvin.
  rewrite (scan_scriptSig_first (scriptSig txin) (length prefix)).
  - by rewrite Hscript, commitment_at_app.
  - rewrite Hscript, !length_app, Hc.
    unfold POUW_COMMITMENT_MIN_SIZE, POUW_COMMITMENT_MAGIC_SIZE,
      POUW_COMMITMENT_HASH_SIZE, POUW_COMMITMENT_MAGIC.
    cbn [length]. lia.
  - rewrite Hscript. apply magic_at_app.
  - intros k Hk. apply Hfirst. lia.
  - lia.
  - rewrite Hscript, !length_app. simpl. lia.
Qed.

(** The scan of an output script that starts with [OP_RETURN]. *)
Lemma scan_scriptPubKey_head script fuel dataStart :
  byte_at script 0 = OP_RETURN →
  (0 < fuel)%nat →
  dataStart = (if (1 <? length script)%nat && (byte_at script 1 <=? 75)
               then 2%nat else 1%nat) →
  (dataStart + POUW_COMMITMENT_MIN_SIZE ≤ length script)%nat →
  magic_at script dataStart = true →
  scan_scriptPubKey OP_RETURN script fuel 0 = Some (commitment_at script dataStart).
Proof.
  intros Hop Hfuel Hstart Hfit Hmagic.
  destruct fuel as [|fuel]; [lia|]. cbn [scan_scriptPubKey].
  destruct (Nat.leb_spec (0 + POUW_COMMITMENT_MIN_SIZE + 1) (length script)) as [_|Hshort].
  - rewrite Hop, Z.eqb_refl.
    destruct ((1 <? length script)%nat && (byte_at script 1 <=? 75)); subst dataStart;
      match goal with
      | |- context [(?a <=? ?b)%nat] => destruct (Nat.leb_spec a b); [|lia]
      end;
      by rewrite Hmagic.
  - destruct ((1 <? length script)%nat && (byte_at script 1 <=? 75)); subst dataStart; lia.
Qed.

(** X17. When the scan of the scriptSig of the first input finds nothing and
    the script of the first output is [OP_RETURN], nothing or one push
    opcode of at most 75, the magic, 32 bytes [c] and a suffix,
    [ExtractPoUWCommitment] returns [c]. *)
Theorem ExtractPoUWCommitment_output coinbase txin inputs out outputs push c suffix :
  vin coinbase = txin :: inputs →
  scan_scriptSig (scriptSig txin) (length (scriptSig txin)) 0 = None →
  vout coinbase = out :: outputs →
  scriptPubKey out = OP_RETURN :: push ++ POUW_COMMITMENT_MAGIC ++ c ++ suffix →
  push = [] ∨ (∃ opcode, push = [opcode] ∧ opcode ≤ 75) →
  length c = POUW_COMMITMENT_HASH_SIZE →
  ExtractPoUWCommitment OP_RETURN coinbase = Some c.
Proof.
  intros Hvin Hsig Hvout Hscript Hpush Hc.
  unfold ExtractPoUWCommitment. rewrite Hvin, Hsig, Hvout. cbn [scan_outputs].
  set (script := scriptPubKey out) in *.
  assert (length script
          = (1 + length push + 4 + 32 + length suffix)%nat) as Hlen.
  { rewrite Hscript. cbn [length]. rewrite !length_app, Hc.
    unfold POUW_COMMITMENT_MAGIC, POUW_COMMITMENT_HASH_SIZE. cbn [length]. lia. }
  assert (scan_scriptPubKey OP_RETURN script (length script) 0 = Some c) as ->; [|done].
  destruct Hpush as [->|(opcode & -> & Hop)].
  - rewrite (scan_scriptPubKey_head script (length script) 1).
    + f_equal. rewrite Hscript. by apply (commitment_at_app [OP_RETURN] c suffix).
    + by rewrite Hscript.
    + lia.
    + rewrite Hscript at 2. change (byte_at (OP_RETURN :: [] ++ _) 1) with 83.
      by rewrite andb_false_r.
    + rewrite Hlen. unfold POUW_COMMITMENT_MIN_SIZE, POUW_COMMITMENT_MAGIC_SIZE,
        POUW_COMMITMENT_HASH_SIZE. cbn [length]. lia.
    + rewrite Hscript. exact (magic_at_app [OP_RETURN] (c ++ suffix)).
  - rewrite (scan_scriptPubKey_head script (length script) 2).
    + f_equal. rewrite Hscript. by apply (commitment_at_app [OP_RETURN; opcode] c suffix).
    + by rewrite Hscript.
    + lia.
    + rewrite Hscript at 2. change (byte_at (OP_RETURN :: [opcode] ++ _) 1) with opcode.
      destruct (Nat.ltb_spec 1 (length script)); [|cbn [length] in Hlen; lia].
      by destruct (Z.leb_spec opcode 75); [|lia].
    + rewrite Hlen. unfold POUW_COMMITMENT_MIN_SIZE, POUW_COMMITMENT_MAGIC_SIZE,
        POUW_COMMITMENT_HASH_SIZE. cbn [length]. lia.
    + rewrite Hscript. exact (magic_at_app [OP_RETURN; opcode] (c ++ suffix)).
Qed.

End ExtractProofs.

Lemma ExtractPoUWCommitment_scriptSig_witness :
  ExtractPoUWCommitment 0x6a sample_coinbase_scriptSig = Some sample_commitment.
Proof.
  apply (ExtractPoUWCommitment_scriptSig 0x6a sample_coinbase_scriptSig
           (mkTxIn ([0x03] ++ POUW_COMMITMENT_MAGIC ++ sample_commitment)) []
           [0x03] sample_commitment []).
  - reflexivity.
  - cbn [scriptSig]. by rewrite app_nil_r.
  - reflexivity.
  - intros k Hk. cbn [length] in Hk. replace k with 0%nat by lia.
    vm_compute. reflexivity.
Defined.

Lemma ExtractPoUWCommitment_output_witness :
  ExtractPoUWCommitment 0x6a sample_coinbase_output = Some sample_commitment.
Proof.
  apply (ExtractPoUWCommitment_output 0x6a sample_coinbase_output
           (mkTxIn [0x03; 0x01]) []
           (mkTxOut (0x6a :: [0x24] ++ POUW_COMMITMENT_MAGIC ++ sample_commitment)) []
           [0x24] sample_commitment []).
  - reflexivity.
  - reflexivity.
  - reflexivity.
  - cbn [scriptPubKey]. by rewrite app_nil_r.
  - right. exists 0x24. split; [reflexivity|lia].
  - reflexivity.
Defined.

(** ** What decides a commitment *)

Lemma count_transitions_zeros rest :
  forallb (λ b, b =? 0) rest = true → count_transitions 0 rest = 0.
Proof.
  induction rest as [|b rest IH]; [done|]. cbn [forallb count_transitions].
  destruct (Z.eqb_spec b 0) as [->|]; [|done]. cbn [andb negb]. exact IH.
Qed.

Lemma count_transitions_null commitment :
  forallb (λ b, b =? 0) commitment = true →
  count_transitions (byte_at commitment 0) (drop 1 commitment) = 0.
Proof.
  destruct commitment as [|b rest]; [done|]. cbn [forallb].
  destruct (Z.eqb_spec b 0) as [->|]; [|done]. cbn [andb].
  change (byte_at (0 :: rest) 0) with 0. change (drop 1 (0 :: rest)) with rest.
  apply count_transitions_zeros.
Qed.

Lemma binding_from_same h n : binding_from h h n = 0.
Proof.
  induction n as [|n IH]; [done|]. cbn [binding_from].
  by rewrite IH, Z.lxor_nilpotent, Z.shiftl_0_l.
Qed.

Section DecisionProofs.

Variable OP_RETURN : Z.
Variable IsCoinBase : Transaction → bool.

(** X18. For a block that starts with a coinbase, has a previous hash that
    is not null and carries a commitment, [VerifyUsefulWork] returns [true]
    exactly when the commitment has at least 8 byte transitions and its
    binding is neither 0 nor [0xFFFFFFFF]: the null check and the comparison
    with the previous hash never change the result. *)
Theorem VerifyUsefulWork_commitment
    (block : Block) (params : Params) (coinbase : Transaction) (txs : list Transaction)
    (commitment : list Z) :
  vtx block = coinbase :: txs →
  IsCoinBase coinbase = true →
  IsNull (hashPrevBlock block) = false →
  ExtractPoUWCommitment OP_RETURN coinbase = Some commitment →
  VerifyUsefulWork OP_RETURN IsCoinBase block params
  = (8 <=? count_transitions (byte_at commitment 0) (drop 1 commitment))
    && negb (binding_from commitment (hashPrevBlock block) 4 =? 0)
    && negb (binding_from commitment (hashPrevBlock block) 4 =? 0xFFFFFFFF).
Proof.
  intros Hvtx Hcoinbase Hprev Hextract.
  unfold VerifyUsefulWork. rewrite Hvtx, Hcoinbase, Hprev, Hextract.
  cbn [negb]. cbv zeta.
  destruct (forallb (λ b, b =? 0) commitment) eqn:Hnull.
  { by rewrite count_transitions_null. }
  rewrite Z.leb_antisym.
  destruct (_ <? 8); [done|]. cbn [negb andb].
  case_bool_decide as Hsame.
  { rewrite <- Hsame, binding_from_same. done. }
  by destruct (_ =? 0), (_ =? 0xFFFFFFFF).
Qed.

End DecisionProofs.

Lemma VerifyUsefulWork_commitment_witness :
  VerifyUsefulWork 0x6a (λ _, true) sample_block_committed sample_regtest
  = (8 <=? count_transitions (byte_at sample_commitment 0) (drop 1 sample_commitment))
    && negb (binding_from sample_commitment sample_prev_hash 4 =? 0)
    && negb (binding_from sample_commitment sample_prev_hash 4 =? 0xFFFFFFFF).
Proof.
  apply (VerifyUsefulWork_commitment 0x6a (λ _, true) sample_block_committed
           sample_regtest sample_coinbase_scriptSig [] sample_commitment).
  - reflexivity.
  - reflexivity.
  - vm_compute. reflexivity.
  - vm_compute. reflexivity.
Defined.

End ConsensusProofs.

(** * Verification of the UBI distributor *)

Module UBIProofs.
Import UBI.

Section ClaimProofs.
Context `{Identity} `{Constants}.

(** ** The order of the checks *)

Lemma AcceptingClaims_finalized pool currentHeight :
  isFinalized pool = true →
  AcceptingClaims pool currentHeight = (currentHeight <=? claimDeadline pool).
Proof. intros Hf. unfold AcceptingClaims. by rewrite Hf. Qed.

(** The nested proof checks of [ProcessClaim] and [VerifyClaim] pass
    exactly when the checks of the spec do. *)
Lemma proof_checks_inputs claim identityTreeRoot :
  proof_checks claim identityTreeRoot
  = IsValid (claim_proof claim)
    && bool_decide (GetType (claim_proof claim) = UBIClaimProof)
    && match GetPublicInputs (claim_proof claim) with
       | v0 :: _ :: v2 :: _ =>
         bool_decide (v0 = FieldElement_FromBytes identityTreeRoot)
         && bool_decide (v2 = FieldElement_of_u64 (u64 (claim_epoch claim)))
         && Verify (claim_proof claim) "ubi_claim"
       | _ => false
       end.
Proof.
  unfold proof_checks.
  destruct (IsValid (claim_proof claim)); [|done].
  destruct (bool_decide (GetType (claim_proof claim) = UBIClaimProof)); [|done].
  destruct (GetPublicInputs (claim_proof claim)) as [|v0 [|v1 [|v2 rest]]]; simpl;
    try done.
  f_equal. f_equal; apply bool_decide_ext; naive_solver.
Qed.

Lemma ProcessClaim_status D claim identityTreeRoot currentHeight :
  (ProcessClaim D claim identityTreeRoot currentHeight).1.1
  = first_failing_check D claim identityTreeRoot currentHeight.
Proof.
  unfold ProcessClaim, first_failing_check. simpl.
  destruct (pools_ D !! claim_epoch claim) as [pool|]; [|done].
  destruct (isFinalized pool) eqn:Hf; [|done]. simpl.
  rewrite AcceptingClaims_finalized by done.
  rewrite Z.leb_antisym, negb_involutive.
  destruct (claimDeadline pool <? currentHeight); [done|]. simpl.
  destruct (amountPerPerson pool =? 0); [done|].
  unfold IsNullifierUsed.
  destruct (bool_decide (claim_nullifier claim ∈ usedNullifiers pool)); [done|].
  rewrite proof_checks_inputs.
  destruct (IsValid (claim_proof claim)); [|done].
  destruct (bool_decide (GetType (claim_proof claim) = UBIClaimProof)); [|done].
  destruct (GetPublicInputs (claim_proof claim)) as [|v0 [|v1 [|v2 rest]]]; try done.
  simpl.
  destruct (bool_decide (v0 = _)); [|done].
  destruct (bool_decide (v2 = _)); [|done].
  by destruct (Verify (claim_proof claim) "ubi_claim").
Qed.

Lemma ProcessClaim_writes_status D claim identityTreeRoot currentHeight :
  claim_status (ProcessClaim D claim identityTreeRoot currentHeight).1.2
  = (ProcessClaim D claim identityTreeRoot currentHeight).1.1
  ∧ claim_submitHeight (ProcessClaim D claim identityTreeRoot currentHeight).1.2
    = currentHeight.
Proof.
  unfold ProcessClaim, reject.
  repeat match goal with
         | |- context [match ?x with _ => _ end] => destruct x; simpl; try done
         end.
Qed.

(** C5. [ProcessClaim] returns the first failing check in the order
    EpochNotComplete, EpochExpired, PoolEmpty, DoubleClaim, InvalidProof
    ([Valid] when none fails), and writes that status and the submit height
    into the claim; a claim whose nullifier is already used never reports
    InvalidProof, and reports DoubleClaim whenever the pool is finalized,
    within its deadline and not empty, whatever its proof. *)
Theorem ProcessClaim_order
    (D : UBIDistributor) (claim : UBIClaim) (identityTreeRoot : list Z)
    (currentHeight : Z) :
  (ProcessClaim D claim identityTreeRoot currentHeight).1.1
  = first_failing_check D claim identityTreeRoot currentHeight
  ∧ claim_status (ProcessClaim D claim identityTreeRoot currentHeight).1.2
    = (ProcessClaim D claim identityTreeRoot currentHeight).1.1
  ∧ claim_submitHeight (ProcessClaim D claim identityTreeRoot currentHeight).1.2
    = currentHeight
  ∧ (∀ pool,
       pools_ D !! claim_epoch claim = Some pool →
       claim_nullifier claim ∈ usedNullifiers pool →
       (ProcessClaim D claim identityTreeRoot currentHeight).1.1 ≠ InvalidProof
       ∧ (isFinalized pool = true →
          currentHeight ≤ claimDeadline pool →
          amountPerPerson pool ≠ 0 →
          (ProcessClaim D claim identityTreeRoot currentHeight).1.1 = DoubleClaim)).
Proof.
  split; [apply ProcessClaim_status|].
  split; [apply ProcessClaim_writes_status|].
  split; [apply ProcessClaim_writes_status|].
  intros pool Hpool Hused. rewrite ProcessClaim_status.
  unfold first_failing_check. rewrite Hpool.
  rewrite (bool_decide_eq_true_2 _ Hused).
  split.
  - destruct (isFinalized pool); [|done]. simpl.
    destruct (claimDeadline pool <? currentHeight); [done|].
    by destruct (amountPerPerson pool =? 0).
  - intros -> Hh Hne. simpl.
    destruct (Z.ltb_spec (claimDeadline pool) currentHeight); [lia|].
    by destruct (Z.eqb_spec (amountPerPerson pool) 0).
Qed.

(** ** Failure leaves the distributor untouched *)

(** C6. A [ProcessClaim] that returns a status other than [Valid] leaves
    the whole distributor as it was: every pool with its used nullifiers,
    claimed amount and claim count, and the global totals. *)
Theorem ProcessClaim_failure_unchanged
    (D : UBIDistributor) (claim : UBIClaim) (identityTreeRoot : list Z)
    (currentHeight : Z) :
  (ProcessClaim D claim identityTreeRoot currentHeight).1.1 ≠ Valid →
  (ProcessClaim D claim identityTreeRoot currentHeight).2 = D.
Proof.
  unfold ProcessClaim, reject.
  repeat match goal with
         | |- context [match ?x with _ => _ end] => destruct x; simpl; try done
         end.
Qed.

(** ** [VerifyClaim] against [ProcessClaim] *)

(** [VerifyClaim] in the words of the spec: the pool checks without the
    empty-pool check, then the proof checks. *)
Lemma VerifyClaim_checks D claim identityTreeRoot currentHeight :
  VerifyClaim D claim identityTreeRoot currentHeight
  = match pools_ D !! claim_epoch claim with
    | None => false
    | Some pool =>
      isFinalized pool
      && (currentHeight <=? claimDeadline pool)
      && negb (bool_decide (claim_nullifier claim ∈ usedNullifiers pool))
      && proof_checks claim identityTreeRoot
    end.
Proof.
  unfold VerifyClaim.
  destruct (pools_ D !! claim_epoch claim) as [pool|]; [|done].
  destruct (isFinalized pool) eqn:Hf; [|done]. simpl.
  rewrite AcceptingClaims_finalized by done.
  destruct (currentHeight <=? claimDeadline pool); [|done]. simpl.
  unfold IsNullifierUsed.
  destruct (bool_decide (claim_nullifier claim ∈ usedNullifiers pool)); [done|]. simpl.
  rewrite proof_checks_inputs.
  destruct (IsValid (claim_proof claim)); [|done].
  destruct (bool_decide (GetType (claim_proof claim) = UBIClaimProof)); [|done].
  destruct (GetPublicInputs (claim_proof claim)) as [|v0 [|v1 [|v2 rest]]]; try done.
  simpl.
  destruct (bool_decide (v0 = _)); [|done].
  by destruct (bool_decide (v2 = _)).
Qed.

(** X1. Every claim that [ProcessClaim] accepts passes [VerifyClaim] on the
    same distributor, root and height. *)
Lemma VerifyClaim_of_Valid D claim identityTreeRoot currentHeight :
  (ProcessClaim D claim identityTreeRoot currentHeight).1.1 = Valid →
  VerifyClaim D claim identityTreeRoot currentHeight = true.
Proof.
  rewrite ProcessClaim_status, VerifyClaim_checks. unfold first_failing_check.
  destruct (pools_ D !! claim_epoch claim) as [pool|]; [|done].
  destruct (isFinalized pool); [|done]. simpl.
  rewrite Z.leb_antisym.
  destruct (claimDeadline pool <? currentHeight); [done|]. simpl.
  destruct (amountPerPerson pool =? 0); [done|].
  destruct (bool_decide (claim_nullifier claim ∈ usedNullifiers pool)); [done|].
  by destruct (proof_checks claim identityTreeRoot).
Qed.

(** X2. A claim that passes [VerifyClaim] is accepted by [ProcessClaim]
    unless the pool is empty: [VerifyClaim] has no check of
    [amountPerPerson], and [PoolEmpty] is the only other status. *)
Lemma ProcessClaim_of_VerifyClaim D claim identityTreeRoot currentHeight :
  VerifyClaim D claim identityTreeRoot currentHeight = true →
  (ProcessClaim D claim identityTreeRoot currentHeight).1.1 = Valid
  ∨ (ProcessClaim D claim identityTreeRoot currentHeight).1.1 = PoolEmpty.
Proof.
  rewrite ProcessClaim_status, VerifyClaim_checks. unfold first_failing_check.
  destruct (pools_ D !! claim_epoch claim) as [pool|]; [|done].
  destruct (isFinalized pool); [|done]. simpl.
  rewrite Z.leb_antisym.
  destruct (claimDeadline pool <? currentHeight); [done|]. simpl.
  destruct (amountPerPerson pool =? 0); [by right|].
  destruct (bool_decide (claim_nullifier claim ∈ usedNullifiers pool)); [done|].
  destruct (proof_checks claim identityTreeRoot); [by left|done].
Qed.

(** X3. A nullifier is paid once per epoch: after [ProcessClaim] has
    accepted a claim, every later claim for the same epoch under the same
    nullifier, whatever its proof, root and height, is answered
    [DoubleClaim], or [EpochExpired] once the deadline has passed. *)
Theorem ProcessClaim_no_second_payment
    D claim identityTreeRoot currentHeight claim' identityTreeRoot' currentHeight' :
  (ProcessClaim D claim identityTreeRoot currentHeight).1.1 = Valid →
  claim_epoch claim' = claim_epoch claim →
  claim_nullifier claim' = claim_nullifier claim →
  let D' := (ProcessClaim D claim identityTreeRoot currentHeight).2 in
  (ProcessClaim D' claim' identityTreeRoot' currentHeight').1.1 = DoubleClaim
  ∨ (ProcessClaim D' claim' identityTreeRoot' currentHeight').1.1 = EpochExpired.
Proof.
  intros Hvalid Hepoch Hnullifier D'. subst D'.
  rewrite ProcessClaim_status. unfold first_failing_check.
  rewrite Hepoch, Hnullifier.
  revert Hvalid. unfold ProcessClaim. simpl.
  destruct (pools_ D !! claim_epoch claim) as [pool|]; [|done].
  destruct (isFinalized pool) eqn:Hf; [|done]. simpl.
  destruct (AcceptingClaims pool currentHeight); [|done]. simpl.
  destruct (amountPerPerson pool =? 0) eqn:Hamount; [done|].
  destruct (IsNullifierUsed pool (claim_nullifier claim)); [done|].
  destruct (IsValid (claim_proof claim)); [|done]. simpl.
  destruct (bool_decide (GetType (claim_proof claim) = UBIClaimProof)); [|done].
  destruct (GetPublicInputs (claim_proof claim)) as [|v0 [|v1 [|v2 rest]]]; try done.
  simpl.
  destruct (bool_decide (v0 = _)); [|done].
  destruct (bool_decide (v2 = _)); [|done].
  destruct (Verify (claim_proof claim) "ubi_claim"); [|done].
  intros _. simpl.
  rewrite lookup_insert_eq. simpl. rewrite Hf, Hamount. simpl.
  destruct (claimDeadline pool <? currentHeight'); [by right|].
  rewrite bool_decide_true; [by left|].
  apply elem_of_union_l, elem_of_singleton. reflexivity.
Qed.

End ClaimProofs.

(** ** Funds conservation *)

(** Inserting into a set adds at most one element. *)
Lemma size_insert_le (x : Nullifier) (X : gset Nullifier) :
  (size ({[x]} ∪ X) ≤ S (size X))%nat.
Proof.
  rewrite size_union_alt, size_singleton.
  apply le_n_S, subseteq_size, subseteq_difference_l. reflexivity.
Qed.

Lemma size_list_to_set_le (l : list Nullifier) :
  (size (list_to_set l : gset Nullifier) ≤ length l)%nat.
Proof.
  induction l as [|x l IH].
  - rewrite list_to_set_nil, size_empty. done.
  - rewrite list_to_set_cons. etrans; [apply size_insert_le|]. by apply le_n_S.
Qed.

Section Funds.
Context `{Identity} `{Constants}.

(** The cap on the allotment is not negative. *)
Hypothesis MAX_nonneg : 0 ≤ MAX_UBI_PER_PERSON.

Lemma pool_sound_fresh e h : pool_sound (set_endHeight h (set_epoch e empty_pool)).
Proof.
  unfold pool_sound; simpl.
  split; [lia|]. split; [lia|]. split.
  { change (Z.of_nat (size (∅ : gset Nullifier)) ≤ 0). by rewrite size_empty. }
  split; [done|]. split; [done|done].
Qed.

Lemma pool_sound_add p amount :
  pool_sound p → 0 ≤ amount → totalPool p + amount < 2 ^ 63 →
  pool_sound (set_totalPool (i64 (totalPool p + amount)) p).
Proof.
  intros (Htp & Hcc & Hsz & Hac & Hnf & Hfin) Ha Hsum.
  unfold pool_sound; simpl. rewrite i64_small by lia.
  split; [lia|]. split; [done|]. split; [done|]. split; [done|]. split; [done|].
  intros Hf. specialize (Hfin Hf). lia.
Qed.

Lemma Finalize_sound p identityCount eh cd :
  pool_sound p → isFinalized p = false → 0 ≤ identityCount < 2 ^ 32 →
  pool_sound (Finalize identityCount (set_claimDeadline cd (set_endHeight eh p))).
Proof.
  intros (Htp & Hcc & Hsz & Hac & Hnf & Hfin) Hf Hn.
  specialize (Hnf Hf).
  unfold pool_sound, Finalize; simpl.
  rewrite Hnf in Hac, Hsz |- *.
  split; [lia|]. split; [lia|]. split; [done|].
  split; [lia|]. split; [done|].
  intros _. split; [lia|].
  destruct (Z.geb_spec identityCount MIN_IDENTITIES_FOR_UBI); [|lia].
  assert (0 ≤ Z.quot (totalPool p) identityCount
          ∧ identityCount * Z.quot (totalPool p) identityCount ≤ totalPool p)
    as [Hq Hmul].
  { destruct (decide (identityCount = 0)) as [->|].
    - replace (Z.quot (totalPool p) 0) with 0 by (by destruct (totalPool p)). lia.
    - split; [apply Z.quot_pos; lia|apply Z.mul_quot_le; lia]. }
  unfold Amount_min. destruct (Z.ltb_spec MAX_UBI_PER_PERSON (Z.quot (totalPool p) identityCount)).
  - split; [lia|]. nia.
  - lia.
Qed.

Lemma RecordClaim_sound p nullifier :
  pool_sound p → isFinalized p = true →
  claimCount p + 1 < 2 ^ 32 → amountClaimed p + amountPerPerson p < 2 ^ 63 →
  pool_sound (RecordClaim nullifier (amountPerPerson p) p).
Proof.
  intros (Htp & Hcc & Hsz & Hac & Hnf & Hfin) Hf Hroom Hsum.
  destruct (Hfin Hf) as (_ & Happ & _).
  assert (0 ≤ amountClaimed p) by (rewrite Hac; nia).
  unfold pool_sound, RecordClaim; simpl.
  rewrite u32_small, i64_small by lia.
  split; [done|]. split; [lia|]. split.
  { pose proof (size_insert_le nullifier (usedNullifiers p)) as Hle.
    apply Nat2Z.inj_le in Hle. rewrite Nat2Z.inj_succ in Hle. lia. }
  split.
  { rewrite Hac. lia. }
  split; [congruence|done].
Qed.

Lemma initial_sound : distributor_sound initial.
Proof. unfold distributor_sound, initial. simpl. apply map_Forall_empty. Qed.

Lemma AddBlockReward_sound D height amount :
  distributor_sound D →
  wf_op (OpAddBlockReward height amount) →
  disciplined_op D (OpAddBlockReward height amount) →
  distributor_sound (AddBlockReward D height amount).
Proof.
  intros HD [_ Hamt] [Hpos Hsum].
  unfold AddBlockReward, GetOrCreatePool, distributor_sound.
  destruct (pools_ D !! HeightToEpoch height) as [pool|] eqn:Hpool; simpl.
  - apply map_Forall_insert_2; [|done].
    apply pool_sound_add; [by eapply HD|done|by apply Hsum].
  - rewrite insert_insert_eq. apply map_Forall_insert_2; [|done].
    apply pool_sound_add; [apply pool_sound_fresh|done|simpl; lia].
Qed.

Lemma FinalizeEpoch_sound D e identityCount :
  distributor_sound D →
  wf_op (OpFinalizeEpoch e identityCount) →
  disciplined_op D (OpFinalizeEpoch e identityCount) →
  distributor_sound (FinalizeEpoch D e identityCount).
Proof.
  intros HD [_ Hn] Honce.
  unfold FinalizeEpoch, distributor_sound.
  destruct (pools_ D !! e) as [pool|] eqn:Hpool; [|done]. simpl.
  apply map_Forall_insert_2; [|done].
  apply Finalize_sound; [by eapply HD|by apply Honce|done].
Qed.

Lemma ProcessClaim_sound D claim identityTreeRoot currentHeight :
  distributor_sound D →
  disciplined_op D (OpProcessClaim claim identityTreeRoot currentHeight) →
  distributor_sound (ProcessClaim D claim identityTreeRoot currentHeight).2.
Proof.
  intros HD Hroom. unfold ProcessClaim, reject. simpl in *.
  destruct (pools_ D !! claim_epoch claim) as [pool|] eqn:Hpool; [|done].
  destruct (isFinalized pool) eqn:Hf; [|done]. simpl.
  destruct (AcceptingClaims pool currentHeight); [|done]. simpl.
  destruct (amountPerPerson pool =? 0); [done|].
  destruct (IsNullifierUsed pool (claim_nullifier claim)); [done|].
  destruct (IsValid (claim_proof claim)); [|done]. simpl.
  destruct (bool_decide (GetType (claim_proof claim) = UBIClaimProof)); [|done]. simpl.
  destruct (GetPublicInputs (claim_proof claim)) as [|v0 [|v1 [|v2 rest]]]; try done.
  destruct (bool_decide (v0 = _)); [|done]. simpl.
  destruct (bool_decide (v2 = _)); [|done]. simpl.
  destruct (Verify (claim_proof claim) "ubi_claim"); [|done]. simpl.
  unfold distributor_sound. simpl.
  apply map_Forall_insert_2; [|done].
  destruct (Hroom pool eq_refl) as [Hcount Hsum].
  by apply RecordClaim_sound; [eapply HD|..].
Qed.

Lemma PruneOldPools_sound D currentEpoch :
  distributor_sound D → distributor_sound (PruneOldPools D currentEpoch).
Proof.
  intros HD. unfold PruneOldPools, distributor_sound. simpl.
  intros e p [Hp _]%map_lookup_filter_Some. by eapply HD.
Qed.

Lemma step_sound D op :
  distributor_sound D → wf_op op → disciplined_op D op →
  distributor_sound (step D op).
Proof.
  intros HD Hwf Hdisc. destruct op; simpl.
  - by apply AddBlockReward_sound.
  - by apply FinalizeEpoch_sound.
  - by apply ProcessClaim_sound.
  - by apply PruneOldPools_sound.
Qed.

End Funds.

(** ** The persistent format *)

(** *** Little-endian fields *)

Lemma push_le_length n v : length (push_le n v) = n.
Proof. unfold push_le. by rewrite length_fmap, length_seq. Qed.

Lemma push_le_S n v :
  push_le (S n) v = push_le n v ++ [Z.land (Z.shiftr v (Z.of_nat n * 8)) 0xFF].
Proof. unfold push_le. by rewrite seq_S, fmap_app. Qed.

Lemma byte_at_app_l (a b : list Z) i :
  (i < length a)%nat → byte_at (a ++ b) i = byte_at a i.
Proof. intros Hi. unfold byte_at. by rewrite lookup_app_l. Qed.

Lemma byte_at_app_r (a b : list Z) i :
  byte_at (a ++ b) (length a + i) = byte_at b i.
Proof.
  unfold byte_at. rewrite lookup_app_r by lia. do 2 f_equal. lia.
Qed.

Lemma byte_at_drop (data : list Z) off i :
  byte_at (drop off data) i = byte_at data (off + i).
Proof. unfold byte_at. by rewrite lookup_drop. Qed.

Lemma read_le_drop data off n : read_le data off n = read_le (drop off data) 0 n.
Proof.
  induction n as [|n IH]; [done|]. simpl. rewrite IH. by rewrite byte_at_drop.
Qed.

Lemma read_le_app_l (a b : list Z) n :
  (n ≤ length a)%nat → read_le (a ++ b) 0 n = read_le a 0 n.
Proof.
  induction n as [|n IH]; [done|]. intros Hn. simpl.
  rewrite IH by lia. by rewrite byte_at_app_l by lia.
Qed.

Lemma lor_low_byte v k :
  0 ≤ k →
  Z.lor (v mod 2 ^ k) (Z.shiftl (Z.land (Z.shiftr v k) 0xFF) k) = v mod 2 ^ (k + 8).
Proof.
  intros Hk. change 0xFF with (Z.ones 8).
  rewrite <- !Z.land_ones by lia.
  Z.bitblast.
Qed.

Lemma read_le_push_le n v : read_le (push_le n v) 0 n = v mod 2 ^ (Z.of_nat n * 8).
Proof.
  induction n as [|n IH].
  - simpl. by rewrite Z.mod_1_r.
  - rewrite push_le_S. cbn [read_le].
    rewrite read_le_app_l by (by rewrite push_le_length). rewrite IH.
    replace (0 + n)%nat with (length (push_le n v) + 0)%nat
      by (rewrite push_le_length; lia).
    rewrite byte_at_app_r. change (byte_at [?x] 0) with x.
    rewrite lor_low_byte by lia. f_equal. f_equal. lia.
Qed.

(** Reading a field at the cursor and moving past it. *)
Lemma read_field data off n v rest :
  drop off data = push_le n v ++ rest →
  read_le data off n = v mod 2 ^ (Z.of_nat n * 8)
  ∧ drop (off + n) data = rest.
Proof.
  intros Hdrop. split.
  - rewrite read_le_drop, Hdrop.
    rewrite read_le_app_l by (by rewrite push_le_length).
    apply read_le_push_le.
  - rewrite <- drop_drop, Hdrop.
    rewrite drop_app_length'; [done|]. by rewrite push_le_length.
Qed.

(** *** The loops of [Deserialize] *)

Lemma deserialize_nullifiers_spec data e hashes :
  ∀ off acc rest,
    Forall (λ h, length h = Nullifier_SIZE) hashes →
    drop off data = concat hashes ++ rest →
    deserialize_nullifiers data e (length hashes) off acc
    = ((off + length hashes * Nullifier_SIZE)%nat,
       list_to_set ((λ h, mkNullifier h e) <$> hashes) ∪ acc)
    ∧ drop (off + length hashes * Nullifier_SIZE) data = rest.
Proof.
  induction hashes as [|h hashes IH]; intros off acc rest Hlen Hdrop.
  - simpl in *. rewrite Nat.add_0_r. split; [|done].
    f_equal. by rewrite (left_id_L ∅ (∪)).
  - apply Forall_cons in Hlen as [Hh Hlen]. simpl in Hdrop.
    rewrite <- app_assoc in Hdrop.
    assert (take Nullifier_SIZE (drop off data) = h) as Htake.
    { rewrite Hdrop. by rewrite take_app_length'. }
    assert (drop (off + Nullifier_SIZE) data = concat hashes ++ rest) as Hnext.
    { rewrite <- drop_drop, Hdrop. by rewrite drop_app_length'. }
    cbn [deserialize_nullifiers length]. rewrite Htake.
    destruct (IH (off + Nullifier_SIZE)%nat ({[mkNullifier h e]} ∪ acc) rest Hlen Hnext)
      as [-> Hrest].
    split.
    + f_equal; [lia|]. rewrite fmap_cons, list_to_set_cons.
      rewrite (assoc_L (∪)). f_equal. apply (comm_L (∪)).
    + rewrite <- Hrest. f_equal. lia.
Qed.

Lemma byte_field data off b rest :
  drop off data = [b] ++ rest →
  byte_at data off = b ∧ drop (off + 1) data = rest.
Proof.
  intros Hdrop. split.
  - replace off with (off + 0)%nat at 1 by lia.
    rewrite <- byte_at_drop, Hdrop. done.
  - rewrite <- drop_drop, Hdrop. done.
Qed.

Lemma drop_length_ge (data : list Z) off x rest :
  drop off data = x ++ rest → (0 < length x)%nat →
  (off + length x ≤ length data)%nat.
Proof.
  intros Hdrop Hx. apply (f_equal length) in Hdrop.
  rewrite length_drop, length_app in Hdrop. lia.
Qed.

Lemma nullifier_hashes_length p : length (nullifier_hashes p) = size (usedNullifiers p).
Proof. unfold nullifier_hashes. by rewrite length_fmap. Qed.

Lemma nullifier_hashes_sizes p :
  set_Forall wf_nullifier (usedNullifiers p) →
  Forall (λ h, length h = Nullifier_SIZE) (nullifier_hashes p).
Proof.
  intros Hwf. unfold nullifier_hashes. apply Forall_fmap, Forall_forall.
  intros n Hn%elem_of_elements. destruct (Hwf n Hn) as (Hlen & _ & _).
  simpl. rewrite length_take. lia.
Qed.

Lemma concat_length_uniform (ls : list (list Z)) n :
  Forall (λ h, length h = n) ls → length (concat ls) = (length ls * n)%nat.
Proof.
  induction 1 as [|h ls Hh _ IH]; [done|].
  simpl. rewrite length_app, IH, Hh. done.
Qed.

(** The nullifiers come back from their hashes when each carries the epoch
    of its pool. *)
Lemma nullifiers_restored e p :
  set_Forall wf_nullifier (usedNullifiers p) →
  set_Forall (λ nullifier, nullifier_epoch nullifier = e) (usedNullifiers p) →
  list_to_set ((λ h, mkNullifier h e) <$> nullifier_hashes p) = usedNullifiers p.
Proof.
  intros Hwf Hep. unfold nullifier_hashes. rewrite <- list_fmap_compose.
  rewrite <- (list_to_set_elements_L (usedNullifiers p)) at 2.
  f_equal. rewrite <- (list_fmap_id (elements (usedNullifiers p))) at 2.
  apply list_fmap_ext. intros i n Hn. simpl.
  apply list_elem_of_lookup_2, elem_of_elements in Hn.
  destruct (Hwf n Hn) as (Hlen & _ & _). specialize (Hep n Hn). simpl in Hep.
  destruct n as [h ne]. simpl in *. subst ne. f_equal.
  apply take_ge. lia.
Qed.

Lemma deserialize_pools_step data k off pools e p rest :
  pool_persistable e p → pool_within_caps e p →
  drop off data = serialize_pool (e, p) ++ rest →
  deserialize_pools data (S k) off pools
  = deserialize_pools data k
      (off + 53 + size (usedNullifiers p) * Nullifier_SIZE) (<[e := p]> pools)
  ∧ drop (off + 53 + size (usedNullifiers p) * Nullifier_SIZE) data = rest.
Proof.
  intros (Hep & He & Htp & Hec & Happ & Hac & Hcc & Heh & Hcd & Hwf) [Hcap Hnep] Hdrop.
  pose proof (nullifier_hashes_sizes p Hwf) as Hsizes.
  pose proof (concat_length_uniform _ _ Hsizes) as Hclen.
  rewrite nullifier_hashes_length in Hclen.
  unfold serialize_pool in Hdrop.
  rewrite <- !app_assoc in Hdrop.
  assert (off + 53 + size (usedNullifiers p) * Nullifier_SIZE ≤ length data)%nat as Hlen.
  { apply (f_equal length) in Hdrop.
    rewrite length_drop, !length_app, !push_le_length, Hclen in Hdrop.
    simpl length in Hdrop. lia. }
  cbn [deserialize_pools].
  destruct (Nat.ltb_spec (length data) (off + 53)); [lia|].
  destruct (read_field _ _ _ _ _ Hdrop) as [-> Hd1].
  destruct (read_field _ _ _ _ _ Hd1) as [-> Hd2].
  destruct (read_field _ _ _ _ _ Hd2) as [-> Hd3].
  destruct (read_field _ _ _ _ _ Hd3) as [-> Hd4].
  destruct (read_field _ _ _ _ _ Hd4) as [-> Hd5].
  destruct (read_field _ _ _ _ _ Hd5) as [-> Hd6].
  destruct (byte_field _ _ _ _ Hd6) as [-> Hd7].
  destruct (read_field _ _ _ _ _ Hd7) as [-> Hd8].
  destruct (read_field _ _ _ _ _ Hd8) as [-> Hd9].
  destruct (read_field _ _ _ _ _ Hd9) as [-> Hd10].
  change (Z.of_nat 8 * 8) with 64. change (Z.of_nat 4 * 8) with 32.
  rewrite !i64_of_bits, !i32_of_bits by done.
  rewrite (Z.mod_small e), (Z.mod_small (eligibleCount p)),
    (Z.mod_small (claimCount p)) by done.
  rewrite (u32_small (Z.of_nat _)) by lia.
  rewrite (Z.mod_small (Z.of_nat _)) by lia.
  destruct (Z.gtb_spec (Z.of_nat (size (usedNullifiers p))) 1000000); [lia|].
  match goal with |- context [Z.ltb ?a ?b] => destruct (Z.ltb_spec a b) as [Hlt|_] end.
  { unfold Nullifier_SIZE in *. lia. }
  rewrite Nat2Z.id. rewrite <- nullifier_hashes_length.
  destruct (deserialize_nullifiers_spec data e (nullifier_hashes p) _ ∅ rest Hsizes Hd10)
    as [-> Hrest].
  rewrite nullifiers_restored by done.
  rewrite (right_id_L ∅ (∪)).
  rewrite nullifier_hashes_length in *.
  assert (mkEpochUBIPool e (endHeight p) (claimDeadline p) (totalPool p)
            (eligibleCount p) (amountPerPerson p) (amountClaimed p) (claimCount p)
            (negb ((if isFinalized p then 1 else 0) =? 0)) (usedNullifiers p) = p) as ->.
  { destruct p as [? ? ? ? ? ? ? ? [] ?]; simpl in *; by subst. }
  split.
  - f_equal. lia.
  - rewrite <- Hrest. f_equal. lia.
Qed.

Lemma deserialize_pools_all data l :
  ∀ off pools rest,
    Forall (λ kv, pool_persistable kv.1 kv.2 ∧ pool_within_caps kv.1 kv.2) l →
    drop off data = concat (serialize_pool <$> l) ++ rest →
    deserialize_pools data (length l) off pools
    = (true, foldl (λ m kv, <[kv.1 := kv.2]> m) pools l).
Proof.
  induction l as [|[e p] l IH]; intros off pools rest Hl Hdrop; [done|].
  apply Forall_cons in Hl as [[Hpers Hcaps] Hl]. simpl in Hpers, Hcaps.
  rewrite fmap_cons in Hdrop. cbn [concat] in Hdrop.
  rewrite <- (app_assoc (serialize_pool (e, p))) in Hdrop.
  destruct (deserialize_pools_step data (length l) off pools e p _ Hpers Hcaps Hdrop)
    as [Hstep Hnext].
  simpl length. rewrite Hstep. simpl foldl. by eapply IH.
Qed.

Lemma foldl_insert_list_to_map (l : list (Z * EpochUBIPool)) :
  ∀ m0 : gmap Z EpochUBIPool,
    NoDup l.*1 →
    foldl (λ m kv, <[kv.1 := kv.2]> m) m0 l = list_to_map l ∪ m0.
Proof.
  induction l as [|[e p] l IH]; intros m0 Hnd.
  - simpl. by rewrite (left_id_L ∅ (∪)).
  - rewrite fmap_cons in Hnd. apply NoDup_cons in Hnd as [Hnotin Hnd].
    simpl. rewrite IH by done.
    rewrite <- insert_union_l. symmetry. apply insert_union_r.
    by apply not_elem_of_list_to_map_1.
Qed.

Lemma sorted_pools_perm pools : sorted_pools pools ≡ₚ map_to_list pools.
Proof. apply merge_sort_Permutation. Qed.

Lemma sorted_pools_restore pools :
  foldl (λ m kv, <[kv.1 := kv.2]> m) ∅ (sorted_pools pools) = pools.
Proof.
  rewrite foldl_insert_list_to_map.
  - rewrite (right_id_L ∅ (∪)).
    rewrite <- (list_to_map_to_list pools) at 2.
    apply list_to_map_proper; [|apply sorted_pools_perm].
    rewrite sorted_pools_perm. apply NoDup_fst_map_to_list.
  - rewrite sorted_pools_perm. apply NoDup_fst_map_to_list.
Qed.

Lemma sorted_pools_length pools : length (sorted_pools pools) = size pools.
Proof. by rewrite sorted_pools_perm, length_map_to_list. Qed.

Lemma Deserialize_Serialize_persistable D D0 :
  distributor_persistable D → distributor_within_caps D →
  Deserialize D0 (Serialize D)
  = (true, mkUBIDistributor (pools_ D) (currentEpoch_ D)
             (totalDistributed_ D0) (totalClaims_ D0)).
Proof.
  intros [Hcur Hpers] [Hcount Hcaps].
  set (body := concat (serialize_pool <$> sorted_pools (pools_ D))).
  assert (drop 1 (Serialize D)
          = push_le 8 (currentEpoch_ D)
            ++ push_le 4 (u32 (Z.of_nat (size (pools_ D)))) ++ body) as Hd1 by done.
  destruct (read_field _ _ _ _ _ Hd1) as [Hepoch Hd9].
  destruct (read_field _ _ _ _ _ Hd9) as [Hcnt Hd13].
  assert (13 ≤ length (Serialize D))%nat as Hlen.
  { unfold Serialize. rewrite !length_app, !push_le_length. simpl. lia. }
  unfold Deserialize.
  destruct (Nat.ltb_spec (length (Serialize D)) 13); [lia|].
  change (byte_at (Serialize D) 0) with 1. simpl negb. cbv iota.
  change (1 + 8)%nat with 9%nat in *. change (9 + 4)%nat with 13%nat in *.
  rewrite Hepoch, Hcnt.
  change (Z.of_nat 8 * 8) with 64. change (Z.of_nat 4 * 8) with 32.
  rewrite (Z.mod_small (currentEpoch_ D)) by done.
  rewrite (u32_small (Z.of_nat _)) by lia.
  rewrite (Z.mod_small (Z.of_nat _)) by lia.
  destruct (Z.gtb_spec (Z.of_nat (size (pools_ D))) 10000); [lia|].
  rewrite Nat2Z.id, <- sorted_pools_length.
  rewrite (deserialize_pools_all _ _ 13 ∅ []).
  - by rewrite sorted_pools_restore.
  - apply Forall_forall. intros [e p] Hin.
    rewrite sorted_pools_perm in Hin. apply elem_of_map_to_list in Hin.
    split; [by eapply Hpers|by eapply Hcaps].
  - rewrite Hd13. by rewrite app_nil_r.
Qed.

(** *** Reachable states are within the widths of the format *)

Section Persist.
Context `{Identity} `{Constants}.

(** The cap on the allotment is an [Amount]. *)
Hypothesis MAX_is_Amount : - 2 ^ 63 ≤ MAX_UBI_PER_PERSON < 2 ^ 63.

Lemma fresh_pool_persistable e :
  0 ≤ e < 2 ^ 64 →
  pool_persistable e (set_endHeight (i32 (EpochEndHeight e)) (set_epoch e empty_pool)).
Proof.
  intros He. unfold pool_persistable. simpl.
  pose proof (i32_range (EpochEndHeight e)).
  split; [done|]. split; [done|]. split; [lia|]. split; [lia|]. split; [lia|].
  split; [lia|]. split; [lia|]. split; [lia|]. split; [lia|].
  apply set_Forall_empty.
Qed.

Lemma set_totalPool_persistable e p v :
  pool_persistable e p → pool_persistable e (set_totalPool (i64 v) p).
Proof.
  intros (Hep & He & Htp & Hec & Happ & Hac & Hcc & Heh & Hcd & Hwf).
  unfold pool_persistable. simpl. pose proof (i64_range v).
  split; [done|]. split; [done|]. split; [lia|]. split; [lia|]. split; [lia|].
  split; [lia|]. split; [lia|]. split; [lia|]. split; [lia|]. done.
Qed.

Lemma AddBlockReward_persistable D height amount :
  distributor_persistable D → distributor_persistable (AddBlockReward D height amount).
Proof.
  intros [Hcur Hpools]. pose proof (u64_range (Z.quot height EPOCH_BLOCKS)) as He.
  fold (HeightToEpoch height) in He.
  unfold AddBlockReward, GetOrCreatePool.
  destruct (pools_ D !! HeightToEpoch height) as [pool|] eqn:Hpool; simpl.
  - split; [done|]. apply map_Forall_insert_2; [|done].
    apply set_totalPool_persistable. by eapply Hpools.
  - split; [done|]. rewrite insert_insert_eq. apply map_Forall_insert_2; [|done].
    apply set_totalPool_persistable. by apply fresh_pool_persistable.
Qed.

Lemma FinalizeEpoch_persistable D e identityCount :
  distributor_persistable D → 0 ≤ identityCount < 2 ^ 32 →
  distributor_persistable (FinalizeEpoch D e identityCount).
Proof.
  intros [Hcur Hpools] Hn. unfold FinalizeEpoch.
  destruct (pools_ D !! e) as [pool|] eqn:Hpool; [|done]. simpl.
  split; [done|]. apply map_Forall_insert_2; [|done].
  destruct (Hpools e pool Hpool)
    as (Hep & He & Htp & Hec & Happ & Hac & Hcc & Heh & Hcd & Hwf).
  unfold pool_persistable, Finalize. simpl.
  pose proof (i32_range (EpochEndHeight e)).
  pose proof (i32_range (i32 (EpochEndHeight e) + UBI_CLAIM_WINDOW
                         + UBI_GRACE_EPOCHS * EPOCH_BLOCKS)).
  pose proof (quot_range (totalPool pool) identityCount Htp ltac:(lia)).
  split; [done|]. split; [done|]. split; [lia|]. split; [lia|].
  split.
  { destruct (identityCount >=? MIN_IDENTITIES_FOR_UBI); [|lia].
    unfold Amount_min. destruct (_ <? _); lia. }
  split; [lia|]. split; [lia|]. split; [lia|]. split; [lia|]. done.
Qed.

Lemma ProcessClaim_persistable D claim identityTreeRoot currentHeight :
  distributor_persistable D → wf_nullifier (claim_nullifier claim) →
  distributor_persistable (ProcessClaim D claim identityTreeRoot currentHeight).2.
Proof.
  intros [Hcur Hpools] Hnf. unfold ProcessClaim, reject. simpl.
  destruct (pools_ D !! claim_epoch claim) as [pool|] eqn:Hpool; [|done].
  destruct (isFinalized pool); [|done]. simpl.
  destruct (AcceptingClaims pool currentHeight); [|done]. simpl.
  destruct (amountPerPerson pool =? 0); [done|].
  destruct (IsNullifierUsed pool (claim_nullifier claim)); [done|].
  destruct (IsValid (claim_proof claim)); [|done]. simpl.
  destruct (bool_decide (GetType (claim_proof claim) = UBIClaimProof)); [|done]. simpl.
  destruct (GetPublicInputs (claim_proof claim)) as [|v0 [|v1 [|v2 rest]]]; try done.
  destruct (bool_decide (v0 = _)); [|done]. simpl.
  destruct (bool_decide (v2 = _)); [|done]. simpl.
  destruct (Verify (claim_proof claim) "ubi_claim"); [|done]. simpl.
  split; [done|]. apply map_Forall_insert_2; [|done].
  destruct (Hpools _ pool Hpool)
    as (Hep & He & Htp & Hec & Happ & Hac & Hcc & Heh & Hcd & Hwf).
  unfold pool_persistable, RecordClaim. simpl.
  pose proof (i64_range (amountClaimed pool + amountPerPerson pool)).
  pose proof (u32_range (claimCount pool + 1)).
  split; [done|]. split; [done|]. split; [lia|]. split; [lia|]. split; [lia|].
  split; [lia|]. split; [lia|]. split; [lia|]. split; [lia|].
  apply set_Forall_union; [by apply set_Forall_singleton|done].
Qed.

Lemma PruneOldPools_persistable D currentEpoch :
  distributor_persistable D → distributor_persistable (PruneOldPools D currentEpoch).
Proof.
  intros [Hcur Hpools]. unfold PruneOldPools. split; [done|]. simpl.
  intros e p [Hp _]%map_lookup_filter_Some. by eapply Hpools.
Qed.

Lemma step_persistable D op :
  distributor_persistable D → wf_op op → distributor_persistable (step D op).
Proof.
  intros HD Hop. destruct op; simpl in *.
  - by apply AddBlockReward_persistable.
  - apply FinalizeEpoch_persistable; [done|lia].
  - apply ProcessClaim_persistable; [done|]. by destruct Hop as (_ & ? & _).
  - by apply PruneOldPools_persistable.
Qed.

Lemma run_persistable ops :
  ∀ D, distributor_persistable D → Forall wf_op ops →
       distributor_persistable (run ops D).
Proof.
  induction ops as [|op ops IH]; intros D HD Hops; [done|].
  apply Forall_cons in Hops as [Hop Hops]. simpl.
  apply IH; [|done]. by apply step_persistable.
Qed.

Lemma reachable_persistable D : reachable D → distributor_persistable D.
Proof.
  intros (ops & Hops & ->). apply run_persistable; [|done].
  split; [simpl; lia|]. apply map_Forall_empty.
Qed.

(** C7, as the code has it. For every reachable state [D] that holds at
    most 10 000 pools, each with at most 1 000 000 used nullifiers, every one
    of which carries the epoch of its pool, [Deserialize] on any distributor
    succeeds on [Serialize D] and leaves that distributor with the current
    epoch and the pools of [D]: the same epochs and, pool by pool, the same
    fields and the same set of used nullifiers. *)
Theorem Deserialize_Serialize D D0 :
  reachable D → distributor_within_caps D →
  Deserialize D0 (Serialize D)
  = (true, mkUBIDistributor (pools_ D) (currentEpoch_ D)
             (totalDistributed_ D0) (totalClaims_ D0)).
Proof.
  intros HD Hcaps.
  apply Deserialize_Serialize_persistable; [|done].
  by apply reachable_persistable.
Qed.

End Persist.

(** *** Loading what was stored *)

(** One round of the pool loop on the bytes of a stored pool: the pool is
    refused when it holds more nullifiers than the cap of the format, and
    is otherwise filed as [reload_pool] has it. *)
Lemma deserialize_pools_step_any data k off pools e p rest :
  pool_persistable e p →
  Z.of_nat (size (usedNullifiers p)) < 2 ^ 32 →
  drop off data = serialize_pool (e, p) ++ rest →
  deserialize_pools data (S k) off pools
  = (if Z.of_nat (size (usedNullifiers p)) >? 1000000 then (false, pools)
     else deserialize_pools data k
            (off + 53 + size (usedNullifiers p) * Nullifier_SIZE)
            (<[e := reload_pool e p]> pools))
  ∧ drop (off + 53 + size (usedNullifiers p) * Nullifier_SIZE) data = rest.
Proof.
  intros (Hep & He & Htp & Hec & Happ & Hac & Hcc & Heh & Hcd & Hwf) Hsize Hdrop.
  pose proof (nullifier_hashes_sizes p Hwf) as Hsizes.
  pose proof (concat_length_uniform _ _ Hsizes) as Hclen.
  rewrite nullifier_hashes_length in Hclen.
  unfold serialize_pool in Hdrop.
  rewrite <- !app_assoc in Hdrop.
  assert (off + 53 + size (usedNullifiers p) * Nullifier_SIZE ≤ length data)%nat as Hlen.
  { apply (f_equal length) in Hdrop.
    rewrite length_drop, !length_app, !push_le_length, Hclen in Hdrop.
    simpl length in Hdrop. lia. }
  cbn [deserialize_pools].
  destruct (Nat.ltb_spec (length data) (off + 53)); [lia|].
  destruct (read_field _ _ _ _ _ Hdrop) as [-> Hd1].
  destruct (read_field _ _ _ _ _ Hd1) as [-> Hd2].
  destruct (read_field _ _ _ _ _ Hd2) as [-> Hd3].
  destruct (read_field _ _ _ _ _ Hd3) as [-> Hd4].
  destruct (read_field _ _ _ _ _ Hd4) as [-> Hd5].
  destruct (read_field _ _ _ _ _ Hd5) as [-> Hd6].
  destruct (byte_field _ _ _ _ Hd6) as [-> Hd7].
  destruct (read_field _ _ _ _ _ Hd7) as [-> Hd8].
  destruct (read_field _ _ _ _ _ Hd8) as [-> Hd9].
  destruct (read_field _ _ _ _ _ Hd9) as [-> Hd10].
  change (Z.of_nat 8 * 8) with 64. change (Z.of_nat 4 * 8) with 32.
  rewrite !i64_of_bits, !i32_of_bits by done.
  rewrite (Z.mod_small e), (Z.mod_small (eligibleCount p)),
    (Z.mod_small (claimCount p)) by done.
  rewrite (u32_small (Z.of_nat _)) by lia.
  rewrite (Z.mod_small (Z.of_nat _)) by lia.
  assert (drop (off + 53 + size (usedNullifiers p) * Nullifier_SIZE) data = rest)
    as Hrest.
  { replace (off + 53 + size (usedNullifiers p) * Nullifier_SIZE)%nat
      with (off + 8 + 8 + 4 + 8 + 8 + 4 + 1 + 4 + 4 + 4
            + length (concat (nullifier_hashes p)))%nat by lia.
    rewrite <- drop_drop, Hd10. by rewrite drop_app_length. }
  split; [|exact Hrest].
  destruct (Z.gtb_spec (Z.of_nat (size (usedNullifiers p))) 1000000); [done|].
  match goal with |- context [Z.ltb ?a ?b] => destruct (Z.ltb_spec a b) as [Hlt|_] end.
  { unfold Nullifier_SIZE in *. lia. }
  rewrite Nat2Z.id. rewrite <- nullifier_hashes_length.
  destruct (deserialize_nullifiers_spec data e (nullifier_hashes p) _ ∅ rest Hsizes Hd10)
    as [-> _].
  rewrite (right_id_L ∅ (∪)).
  rewrite nullifier_hashes_length in *.
  assert (negb ((if isFinalized p then 1 else 0) =? 0) = isFinalized p) as ->
    by (by destruct (isFinalized p)).
  unfold reload_pool. f_equal. lia.
Qed.

(** What the pool loop leaves, on the bytes of stored pools, satisfies
    every property of pools that the pools it started from and the reloaded
    pools satisfy, whether it runs to its end or stops at a cap. *)
Lemma deserialize_pools_Forall (Q : Z → EpochUBIPool → Prop) data l :
  ∀ k off pools rest,
    (k ≤ length l)%nat →
    Forall (λ kv, pool_persistable kv.1 kv.2
                  ∧ Z.of_nat (size (usedNullifiers kv.2)) < 2 ^ 32
                  ∧ Q kv.1 (reload_pool kv.1 kv.2)) l →
    drop off data = concat (serialize_pool <$> l) ++ rest →
    map_Forall Q pools →
    map_Forall Q (deserialize_pools data k off pools).2.
Proof.
  induction l as [|[e p] l IH]; intros k off pools rest Hk Hl Hdrop Hpools.
  - simpl in Hk. by replace k with 0%nat by lia.
  - destruct k as [|k]; [done|].
    apply Forall_cons in Hl as [(Hpers & Hsize & HQ) Hl]. simpl in Hpers, Hsize, HQ.
    rewrite fmap_cons in Hdrop. cbn [concat] in Hdrop.
    rewrite <- (app_assoc (serialize_pool (e, p))) in Hdrop.
    destruct (deserialize_pools_step_any data k off pools e p _ Hpers Hsize Hdrop)
      as [Hstep Hnext].
    rewrite Hstep.
    destruct (Z.of_nat (size (usedNullifiers p)) >? 1000000); [done|].
    eapply IH; [simpl in Hk; lia|done|done|].
    by apply map_Forall_insert_2.
Qed.

(** [Deserialize] on the bytes of a stored distributor: the pools it leaves
    satisfy every property that the pools of the receiving distributor and
    the reloaded pools of the stored one satisfy, and the current epoch it
    leaves is that of one of the two. *)
Lemma Deserialize_Serialize_load (Q : Z → EpochUBIPool → Prop) D stored :
  distributor_persistable stored →
  (∀ e p, pools_ stored !! e = Some p →
          Z.of_nat (size (usedNullifiers p)) < 2 ^ 32 ∧ Q e (reload_pool e p)) →
  map_Forall Q (pools_ D) →
  map_Forall Q (pools_ (Deserialize D (Serialize stored)).2)
  ∧ (currentEpoch_ (Deserialize D (Serialize stored)).2 = currentEpoch_ stored
     ∨ currentEpoch_ (Deserialize D (Serialize stored)).2 = currentEpoch_ D).
Proof.
  intros [Hcur Hpers] Hstored HD.
  set (body := concat (serialize_pool <$> sorted_pools (pools_ stored))).
  assert (drop 1 (Serialize stored)
          = push_le 8 (currentEpoch_ stored)
            ++ push_le 4 (u32 (Z.of_nat (size (pools_ stored)))) ++ body) as Hd1 by done.
  destruct (read_field _ _ _ _ _ Hd1) as [Hepoch Hd9].
  destruct (read_field _ _ _ _ _ Hd9) as [Hcnt Hd13].
  assert (13 ≤ length (Serialize stored))%nat as Hlen.
  { unfold Serialize. rewrite !length_app, !push_le_length. simpl. lia. }
  unfold Deserialize.
  destruct (Nat.ltb_spec (length (Serialize stored)) 13); [lia|].
  change (byte_at (Serialize stored) 0) with 1. simpl negb. cbv iota.
  change (1 + 8)%nat with 9%nat in *. change (9 + 4)%nat with 13%nat in *.
  rewrite Hepoch, Hcnt.
  change (Z.of_nat 8 * 8) with 64. change (Z.of_nat 4 * 8) with 32.
  rewrite (Z.mod_small (currentEpoch_ stored)) by done.
  pose proof (u32_range (Z.of_nat (size (pools_ stored)))) as Hrange.
  rewrite (Z.mod_small (u32 _)) by done.
  destruct (Z.gtb_spec (u32 (Z.of_nat (size (pools_ stored)))) 10000);
    [split; [done|by left]|].
  pose proof (deserialize_pools_Forall Q (Serialize stored) (sorted_pools (pools_ stored))
                (Z.to_nat (u32 (Z.of_nat (size (pools_ stored))))) 13 ∅ []) as Hloop.
  destruct (deserialize_pools _ _ 13 ∅) as [ok pools]. simpl.
  split; [|by left].
  apply Hloop.
  - rewrite sorted_pools_length. apply Nat2Z.inj_le.
    rewrite Z2Nat.id by lia. unfold u32. apply Z.mod_le; lia.
  - apply Forall_forall. intros [e p] Hin.
    rewrite sorted_pools_perm in Hin. apply elem_of_map_to_list in Hin.
    destruct (Hstored e p Hin) as [Hsize HQ].
    split; [by eapply Hpers|]. split; [exact Hsize|exact HQ].
  - rewrite Hd13. by rewrite app_nil_r.
  - apply map_Forall_empty.
Qed.

(** A reloaded pool is within the widths of the format like the stored
    one. *)
Lemma reload_pool_persistable e p :
  pool_persistable e p → pool_persistable e (reload_pool e p).
Proof.
  intros (Hep & He & Htp & Hec & Happ & Hac & Hcc & Heh & Hcd & Hwf).
  unfold pool_persistable, reload_pool. cbn [epoch totalPool eligibleCount
    amountPerPerson amountClaimed claimCount endHeight claimDeadline usedNullifiers].
  split; [done|]. split; [done|]. split; [done|]. split; [done|]. split; [done|].
  split; [done|]. split; [done|]. split; [done|]. split; [done|].
  intros n (h & -> & Hh)%elem_of_list_to_set%list_elem_of_fmap.
  unfold nullifier_hashes in Hh.
  apply list_elem_of_fmap in Hh as (m & -> & Hm%elem_of_elements).
  destruct (Hwf m Hm) as (Hlen & Hbytes & _).
  unfold wf_nullifier. cbn [nullifier_hash nullifier_epoch].
  rewrite take_ge by lia. done.
Qed.

(** A reloaded pool keeps the funds invariant: its counters are those of
    the stored pool and it holds no more nullifiers. *)
Lemma reload_pool_sound e p : pool_sound p → pool_sound (reload_pool e p).
Proof.
  intros (Htp & Hcc & Hsz & Hac & Hnf & Hfin).
  unfold pool_sound, reload_pool. cbn [epoch totalPool eligibleCount
    amountPerPerson amountClaimed claimCount isFinalized usedNullifiers].
  split; [done|]. split; [done|]. split; [|done].
  pose proof (size_list_to_set_le ((λ hash, mkNullifier hash e) <$> nullifier_hashes p)) as Hle.
  rewrite length_fmap, nullifier_hashes_length in Hle. lia.
Qed.

(** *** The funds invariant holds in disciplined use *)

Section Conservation.
Context `{Identity} `{Constants}.

(** The cap on the allotment is an [Amount] that is not negative. *)
Hypothesis MAX_is_Amount : 0 ≤ MAX_UBI_PER_PERSON < 2 ^ 63.

(** The invariant of disciplined use: every pool is within the widths of
    the format and keeps the funds invariant. *)
Lemma reachable_disciplined_invariant D :
  reachable_disciplined D → distributor_persistable D ∧ distributor_sound D.
Proof.
  induction 1 as [|D op _ [IHp IHs] Hwf Hdisc|D stored _ [IHp IHs] _ [IHp' IHs']].
  - split; [|apply initial_sound].
    split; [simpl; lia|apply map_Forall_empty].
  - split.
    + apply step_persistable; [lia|done|done].
    + apply step_sound; [lia|done|done|done].
  - destruct (Deserialize_Serialize_load
                (λ e p, pool_persistable e p ∧ pool_sound p) D stored IHp')
      as [Hpools Hcur].
    + intros e p Hp.
      destruct (IHs' e p Hp) as (Htp & Hcc & Hsz & Hrest).
      split; [lia|].
      split; [apply reload_pool_persistable; by eapply (proj2 IHp')
             |apply reload_pool_sound; by eapply IHs'].
    + intros e p Hp. split; [by eapply (proj2 IHp)|by eapply IHs].
    + split.
      * split.
        -- destruct Hcur as [-> | ->]; [apply IHp'|apply IHp].
        -- intros e p Hp. by destruct (Hpools e p Hp).
      * intros e p Hp. by destruct (Hpools e p Hp).
Qed.


End Conservation.

Lemma Deserialize_too_many_pools D D0 :
  10000 < Z.of_nat (size (pools_ D)) < 2 ^ 32 →
  (Deserialize D0 (Serialize D)).1 = false.
Proof.
  intros Hsize.
  set (body := concat (serialize_pool <$> sorted_pools (pools_ D))).
  assert (drop 9 (Serialize D)
          = push_le 4 (u32 (Z.of_nat (size (pools_ D)))) ++ body) as Hd9 by done.
  destruct (read_field _ _ _ _ _ Hd9) as [Hcnt _].
  unfold Deserialize.
  destruct (_ <? _)%nat; [done|].
  destruct (negb _); [done|].
  rewrite Hcnt. change (Z.of_nat 4 * 8) with 32.
  rewrite (u32_small (Z.of_nat _)) by lia.
  rewrite (Z.mod_small (Z.of_nat _)) by lia.
  destruct (Z.gtb_spec (Z.of_nat (size (pools_ D))) 10000); [done|lia].
Qed.

(** ** The theorems at the sample states *)

Lemma VerifyClaim_of_Valid_witness :
  VerifyClaim sample_funded (sample_claim 1 true) sample_root 3000 = true.
Proof.
  apply VerifyClaim_of_Valid. vm_compute. reflexivity.
Defined.

Lemma ProcessClaim_of_VerifyClaim_witness :
  (ProcessClaim sample_funded (sample_claim 1 true) sample_root 3000).1.1 = Valid
  ∨ (ProcessClaim sample_funded (sample_claim 1 true) sample_root 3000).1.1 = PoolEmpty.
Proof.
  apply ProcessClaim_of_VerifyClaim. vm_compute. reflexivity.
Defined.

Lemma ProcessClaim_no_second_payment_witness :
  (ProcessClaim sample_claimed (sample_replay 1) sample_root 3001).1.1 = DoubleClaim
  ∨ (ProcessClaim sample_claimed (sample_replay 1) sample_root 3001).1.1 = EpochExpired.
Proof.
  apply (ProcessClaim_no_second_payment sample_funded (sample_claim 1 true) sample_root
           3000 (sample_replay 1) sample_root 3001).
  - vm_compute. reflexivity.
  - reflexivity.
  - reflexivity.
Defined.

Lemma ProcessClaim_order_witness :
  (ProcessClaim sample_claimed (sample_claim 1 false) sample_root 3000).1.1 = DoubleClaim.
Proof.
  destruct (ProcessClaim_order sample_claimed (sample_claim 1 false) sample_root 3000)
    as (_ & _ & _ & Hdouble).
  destruct (pools_ sample_claimed !! 0) as [pool|] eqn:Hpool; [|by vm_compute in Hpool].
  apply (Hdouble pool).
  - exact Hpool.
  - vm_compute in Hpool. injection Hpool as <-. by apply (bool_decide_unpack _).
  - vm_compute in Hpool. by injection Hpool as <-.
  - vm_compute in Hpool. injection Hpool as <-. vm_compute. discriminate.
  - vm_compute in Hpool. injection Hpool as <-. vm_compute. discriminate.
Defined.

Lemma ProcessClaim_failure_unchanged_witness :
  (ProcessClaim sample_claimed (sample_claim 1 true) sample_root 3000).1.1 ≠ Valid
  ∧ (ProcessClaim sample_claimed (sample_claim 1 true) sample_root 3000).2
    = sample_claimed.
Proof.
  assert ((ProcessClaim sample_claimed (sample_claim 1 true) sample_root 3000).1.1 ≠ Valid)
    as Hne by (vm_compute; discriminate).
  split; [exact Hne|].
  exact (ProcessClaim_failure_unchanged sample_claimed (sample_claim 1 true)
           sample_root 3000 Hne).
Defined.

Lemma sample_replay_wf tag :
  0 ≤ tag < 256 → wf_op (OpProcessClaim (sample_replay tag) sample_root 3000).
Proof.
  intros Htag. simpl. split; [lia|]. split; [|lia].
  unfold wf_nullifier. simpl. split; [done|]. split; [|lia].
  repeat (apply Forall_cons; split; [lia|]). apply Forall_nil_2.
Qed.

Lemma sample_funded_disciplined : reachable_disciplined sample_funded.
Proof.
  change sample_funded
    with (step (step initial (OpAddBlockReward 0 1000000)) (OpFinalizeEpoch 0 10)).
  apply reachable_step; [apply reachable_step; [apply reachable_initial| |]| |].
  - simpl. lia.
  - simpl. split; [lia|]. intros pool Hpool. by vm_compute in Hpool.
  - simpl. lia.
  - simpl. intros pool Hpool. vm_compute in Hpool. by injection Hpool as <-.
Qed.

Lemma sample_claimed_disciplined : reachable_disciplined sample_claimed.
Proof.
  change sample_claimed
    with (step sample_funded (OpProcessClaim (sample_replay 1) sample_root 3000)).
  apply reachable_step; [apply sample_funded_disciplined| |].
  - apply sample_replay_wf. lia.
  - intros pool Hpool. vm_compute in Hpool. injection Hpool as <-. simpl. lia.
Qed.

Lemma sample_reloaded_disciplined : reachable_disciplined sample_reloaded.
Proof.
  unfold sample_reloaded, run. cbn [fold_left].
  apply reachable_step.
  - apply reachable_load; [apply reachable_initial|apply sample_claimed_disciplined].
  - apply (sample_replay_wf 2). lia.
  - intros pool Hpool. vm_compute in Hpool. injection Hpool as <-. simpl. lia.
Qed.



(** Why the funds invariant counts claims, not nullifiers: [Deserialize]
    files every nullifier of a pool under the epoch of the pool, so eleven
    nullifiers that differ in their epoch alone come back as one. The
    reloaded pool, finalized for ten identities, holds one nullifier and a
    claim count of eleven, and more was claimed than the pool held. *)
Lemma Deserialize_merges_nullifiers :
  reachable_disciplined sample_merged
  ∧ ∃ pool, pools_ sample_merged !! 0 = Some pool
            ∧ isFinalized pool = true
            ∧ size (usedNullifiers pool) = 1%nat
            ∧ eligibleCount pool = 10
            ∧ claimCount pool = 11
            ∧ amountClaimed pool = 1100000
            ∧ totalPool pool = 1000000.
Proof.
  split.
  - apply reachable_load; [apply reachable_initial|].
    unfold sample_merged_claims, run.
    change (seqZ 1 11) with [1; 2; 3; 4; 5; 6; 7; 8; 9; 10; 11].
    cbn [fmap list_fmap fold_left].
    repeat (apply reachable_step;
            [|simpl; split; [lia|]; split; [|lia];
              unfold wf_nullifier; simpl; split; [done|]; split; [|lia];
              repeat (apply Forall_cons; split; [lia|]); apply Forall_nil_2
             |intros pool Hpool; vm_compute in Hpool; injection Hpool as <-;
              simpl; lia]).
    apply sample_funded_disciplined.
  - eexists. split; [vm_compute; reflexivity|].
    split; [reflexivity|]. split; [vm_compute; reflexivity|].
    split; [reflexivity|]. split; [reflexivity|]. split; reflexivity.
Qed.

Lemma sample_claimed_reachable : reachable sample_claimed.
Proof.
  exists [OpAddBlockReward 0 1000000; OpFinalizeEpoch 0 10;
          OpProcessClaim (sample_claim 1 true) sample_root 3000].
  split; [|reflexivity].
  repeat (apply Forall_cons; split; [|]); try apply Forall_nil_2;
    try (simpl; lia).
  apply (sample_replay_wf 1). lia.
Qed.

Lemma Deserialize_Serialize_witness :
  Deserialize initial (Serialize sample_claimed)
  = (true, mkUBIDistributor (pools_ sample_claimed) (currentEpoch_ sample_claimed) 0 0).
Proof.
  apply (Deserialize_Serialize (H0 := sample_constants) ltac:(simpl; lia)
           sample_claimed initial sample_claimed_reachable).
  apply (bool_decide_unpack _). vm_compute. exact I.
Defined.

Lemma sample_many_pools_reachable : reachable sample_many_pools.
Proof.
  exists ((λ k, OpAddBlockReward (k * 2880) 1) <$> seqZ 0 10001).
  split; [|reflexivity].
  apply Forall_fmap, Forall_forall. intros k Hk%elem_of_seqZ. simpl. lia.
Qed.

Lemma sample_foreign_reachable : reachable sample_foreign.
Proof.
  exists [OpAddBlockReward 0 1000000; OpFinalizeEpoch 0 10;
          OpProcessClaim sample_foreign_claim sample_root 3000].
  split; [|reflexivity].
  repeat (apply Forall_cons; split; [|]); try apply Forall_nil_2;
    try (simpl; lia).
  simpl. split; [lia|]. split; [|lia].
  unfold wf_nullifier. simpl. split; [done|]. split; [|lia].
  repeat (apply Forall_cons; split; [lia|]). apply Forall_nil_2.
Qed.

(** C7, counterexample. A reward in each of 10 001 epochs gives a reachable
    distributor whose serialization [Deserialize] refuses. And after a claim
    for epoch 0 whose nullifier names epoch 7, [Deserialize] succeeds and
    files the nullifier under epoch 0: the set of used nullifiers differs. *)
Lemma Deserialize_Serialize_counterexample :
  (reachable sample_many_pools
   ∧ (Deserialize initial (Serialize sample_many_pools)).1 = false)
  ∧ (reachable sample_foreign
     ∧ (Deserialize initial (Serialize sample_foreign)).1 = true
     ∧ ∃ pool pool',
         pools_ sample_foreign !! 0 = Some pool
         ∧ pools_ (Deserialize initial (Serialize sample_foreign)).2 !! 0 = Some pool'
         ∧ sample_nullifier 1 7 ∈ usedNullifiers pool
         ∧ sample_nullifier 1 7 ∉ usedNullifiers pool').
Proof.
  split; split.
  - apply sample_many_pools_reachable.
  - apply Deserialize_too_many_pools.
    assert (Z.of_nat (size (pools_ sample_many_pools)) = 10001) as ->
      by (vm_compute; reflexivity).
    lia.
  - apply sample_foreign_reachable.
  - split; [vm_compute; reflexivity|].
    assert (∃ pool, pools_ sample_foreign !! 0 = Some pool
                    ∧ sample_nullifier 1 7 ∈ usedNullifiers pool)
      as (pool & Hpool & Hin).
    { eexists. split; [vm_compute; reflexivity|].
      apply (bool_decide_unpack _). vm_compute. exact I. }
    assert (∃ pool,
              pools_ (Deserialize initial (Serialize sample_foreign)).2 !! 0 = Some pool
              ∧ sample_nullifier 1 7 ∉ usedNullifiers pool)
      as (pool' & Hpool' & Hnotin).
    { eexists. split; [vm_compute; reflexivity|].
      apply (bool_decide_unpack _). vm_compute. exact I. }
    exists pool, pool'.
    split; [exact Hpool|]. split; [exact Hpool'|]. split; [exact Hin|exact Hnotin].
Qed.

(** C2, the divergence. On a pool finalized below the identity minimum
    ([amountPerPerson = 0]) a claim with a sound proof and a fresh nullifier
    passes [VerifyClaim] while [ProcessClaim] rejects it as [PoolEmpty]. *)
Lemma VerifyClaim_PoolEmpty_divergence :
  reachable sample_underfilled
  ∧ VerifyClaim sample_underfilled (sample_claim 1 true) sample_root 3000 = true
  ∧ (ProcessClaim sample_underfilled (sample_claim 1 true) sample_root 3000).1.1
    = PoolEmpty.
Proof.
  split; [|split; reflexivity].
  exists [OpAddBlockReward 0 1000000; OpFinalizeEpoch 0 9].
  split; [|reflexivity].
  repeat constructor; simpl; lia.
Qed.

Section QueryProofs.
Context `{Identity} `{Constants}.

(** ** Claim outputs *)

(** X19. For a claim with a recipient of 20 bytes, [VerifyClaimOutputs]
    accepts the outputs that [BuildClaimOutputs] builds for it exactly when
    the amount is positive. *)
Theorem VerifyClaimOutputs_BuildClaimOutputs claim amount :
  length (claim_recipient claim) = 20%nat →
  VerifyClaimOutputs claim (BuildClaimOutputs claim amount) = (amount >? 0).
Proof.
  intros Hlen. unfold VerifyClaimOutputs, BuildClaimOutputs.
  rewrite bool_decide_false by done. cbn [verify_outputs].
  rewrite !length_app, Hlen. cbn [length].
  change (25 <=? 3 + (20 + 2))%nat with true.
  change (byte_at (_ ++ _) 0) with 0x76. change (byte_at (_ ++ _) 1) with 0xa9.
  change (byte_at (_ ++ _) 2) with 0x14.
  change (drop 3 ([0x76; 0xa9; 0x14] ++ claim_recipient claim ++ [0x88; 0xac]))
    with (claim_recipient claim ++ [0x88; 0xac]).
  rewrite <- Hlen, take_app_length. rewrite bool_decide_true by done.
  cbn. by destruct (amount >? 0).
Qed.

Lemma verify_outputs_spec recipient outputs :
  verify_outputs recipient outputs = true
  ↔ ∃ script amount,
      (script, amount) ∈ outputs
      ∧ (25 ≤ length script)%nat
      ∧ take 3 script = [0x76; 0xa9; 0x14]
      ∧ take 20 (drop 3 script) = recipient
      ∧ 0 < amount.
Proof.
  induction outputs as [|[script amount] rest IH].
  { split; [done|]. intros (? & ? & []%elem_of_nil & _). }
  cbn [verify_outputs].
  assert ((25 ≤ length script)%nat →
          take 3 script = [0x76; 0xa9; 0x14]
          ↔ byte_at script 0 = 0x76 ∧ byte_at script 1 = 0xa9 ∧ byte_at script 2 = 0x14)
    as Hprefix.
  { intros Hlen. destruct script as [|b0 [|b1 [|b2 script]]]; cbn [length] in Hlen; try lia.
    cbn. split; [by intros [= -> -> ->]|by intros (-> & -> & ->)]. }
  assert (verify_outputs recipient rest = true
          → ∃ script0 amount0, (script0, amount0) ∈ (script, amount) :: rest
              ∧ (25 ≤ length script0)%nat ∧ take 3 script0 = [0x76; 0xa9; 0x14]
              ∧ take 20 (drop 3 script0) = recipient ∧ 0 < amount0) as Hlater.
  { intros (s & a & Hin & Hrest)%IH. exists s, a. split; [by apply list_elem_of_further|done]. }
  destruct (Nat.leb_spec 25 (length script)) as [Hlen|Hlen]; cbn [andb].
  - destruct (Z.eqb_spec (byte_at script 0) 0x76) as [Hb0|Hb0]; cbn [andb].
    + destruct (Z.eqb_spec (byte_at script 1) 0xa9) as [Hb1|Hb1]; cbn [andb].
      * destruct (Z.eqb_spec (byte_at script 2) 0x14) as [Hb2|Hb2]; cbn [andb].
        -- cbv zeta. case_bool_decide as Hhash; cbn [andb].
           ++ destruct (Z.gtb_spec amount 0) as [Hpos|Hpos].
              ** split; [|done]. intros _. exists script, amount.
                 split; [apply list_elem_of_here|]. split; [done|].
                 split; [by apply Hprefix|]. split; [done|lia].
              ** split; [done|]. intros (s & a & Hin & Hl & Hp & Hh & Ha).
                 apply elem_of_cons in Hin as [[= -> ->]|Hin]; [lia|].
                 apply IH. by exists s, a.
           ++ split; [done|]. intros (s & a & Hin & Hl & Hp & Hh & Ha).
              apply elem_of_cons in Hin as [[= -> ->]|Hin]; [done|].
              apply IH. by exists s, a.
        -- split; [done|]. intros (s & a & Hin & Hl & Hp & Hh & Ha).
           apply elem_of_cons in Hin as [[= -> ->]|Hin];
             [apply Hprefix in Hp; [tauto|done]|].
           apply IH. by exists s, a.
      * split; [done|]. intros (s & a & Hin & Hl & Hp & Hh & Ha).
        apply elem_of_cons in Hin as [[= -> ->]|Hin];
          [apply Hprefix in Hp; [tauto|done]|].
        apply IH. by exists s, a.
    + split; [done|]. intros (s & a & Hin & Hl & Hp & Hh & Ha).
      apply elem_of_cons in Hin as [[= -> ->]|Hin];
        [apply Hprefix in Hp; [tauto|done]|].
      apply IH. by exists s, a.
  - split; [done|]. intros (s & a & Hin & Hl & Hp & Hh & Ha).
    apply elem_of_cons in Hin as [[= -> ->]|Hin]; [lia|].
    apply IH. by exists s, a.
Qed.

(** X20. [VerifyClaimOutputs] returns [true] exactly when one of the outputs
    has a script of at least 25 bytes that starts with [76 a9 14] and the
    recipient of the claim, and a positive amount. It reads neither the
    bytes after the recipient nor the amount of the claim. *)
Theorem VerifyClaimOutputs_spec claim outputs :
  VerifyClaimOutputs claim outputs = true
  ↔ ∃ script amount,
      (script, amount) ∈ outputs
      ∧ (25 ≤ length script)%nat
      ∧ take 3 script = [0x76; 0xa9; 0x14]
      ∧ take 20 (drop 3 script) = claim_recipient claim
      ∧ 0 < amount.
Proof.
  unfold VerifyClaimOutputs. case_bool_decide as Hempty.
  - subst outputs. split; [done|]. intros (? & ? & []%elem_of_nil & _).
  - apply verify_outputs_spec.
Qed.

End QueryProofs.

Section MoreClaimProofs.
Context `{Identity} `{Constants}.

(** ** What a valid claim pays *)

(** X21. When [ProcessClaim] returns [Valid], the amount written into the
    claim is what [GetAmountPerPerson] gives for the epoch before the call
    and after it, it is not zero, and the distributor has added it to
    [totalDistributed_] and one to [totalClaims_]. *)
Theorem ProcessClaim_pays_allotment D claim identityTreeRoot currentHeight :
  (ProcessClaim D claim identityTreeRoot currentHeight).1.1 = Valid →
  let claim' := (ProcessClaim D claim identityTreeRoot currentHeight).1.2 in
  let D' := (ProcessClaim D claim identityTreeRoot currentHeight).2 in
  claim_amount claim' = GetAmountPerPerson D (claim_epoch claim)
  ∧ claim_amount claim' ≠ 0
  ∧ GetAmountPerPerson D' (claim_epoch claim) = claim_amount claim'
  ∧ totalDistributed_ D' = i64 (totalDistributed_ D + claim_amount claim')
  ∧ totalClaims_ D' = u64 (totalClaims_ D + 1).
Proof.
  unfold ProcessClaim, GetAmountPerPerson, GetPool. simpl.
  destruct (pools_ D !! claim_epoch claim) as [pool|]; [|done].
  destruct (isFinalized pool) eqn:Hf; [|done]. simpl.
  destruct (AcceptingClaims pool currentHeight); [|done]. simpl.
  destruct (Z.eqb_spec (amountPerPerson pool) 0) as [|Hamount]; [done|].
  destruct (IsNullifierUsed pool (claim_nullifier claim)); [done|].
  destruct (IsValid (claim_proof claim)); [|done]. simpl.
  destruct (bool_decide (GetType (claim_proof claim) = UBIClaimProof)); [|done].
  destruct (GetPublicInputs (claim_proof claim)) as [|v0 [|v1 [|v2 rest]]]; try done.
  simpl.
  destruct (bool_decide (v0 = _)); [|done].
  destruct (bool_decide (v2 = _)); [|done].
  destruct (Verify (claim_proof claim) "ubi_claim"); [|done].
  intros _. simpl. rewrite lookup_insert_eq. simpl. by rewrite Hf.
Qed.

(** X22. [IsEpochClaimable] is [false] for an epoch and a height exactly
    when [ProcessClaim] at that height answers a claim for that epoch with
    [EpochNotComplete] or [EpochExpired]. *)
Theorem IsEpochClaimable_ProcessClaim D claim identityTreeRoot currentHeight :
  IsEpochClaimable D (claim_epoch claim) currentHeight = false
  ↔ (ProcessClaim D claim identityTreeRoot currentHeight).1.1 = EpochNotComplete
    ∨ (ProcessClaim D claim identityTreeRoot currentHeight).1.1 = EpochExpired.
Proof.
  rewrite ProcessClaim_status. unfold first_failing_check, IsEpochClaimable, GetPool.
  destruct (pools_ D !! claim_epoch claim) as [pool|]; [|by split; [left|]].
  unfold AcceptingClaims.
  destruct (isFinalized pool); simpl; [|by split; [left|]].
  rewrite Z.leb_antisym.
  destruct (claimDeadline pool <? currentHeight); simpl; [by split; [right|]|].
  destruct (amountPerPerson pool =? 0); [by split; [|intros [|]]|].
  destruct (bool_decide _); [by split; [|intros [|]]|].
  destruct (negb _); by split; [|intros [|]].
Qed.

(** ** Rewards *)

(** X23. The rewards of one epoch add up: two calls of [AddBlockReward] at
    heights of the same epoch leave the distributor as one call at the
    second height with the sum of the amounts. *)
Theorem AddBlockReward_accumulates D height1 amount1 height2 amount2 :
  HeightToEpoch height1 = HeightToEpoch height2 →
  AddBlockReward (AddBlockReward D height1 amount1) height2 amount2
  = AddBlockReward D height2 (amount1 + amount2).
Proof.
  intros Hepoch. unfold AddBlockReward, GetOrCreatePool. rewrite Hepoch.
  destruct (pools_ D !! HeightToEpoch height2) as [pool|]; simpl;
    rewrite ?lookup_insert_eq; simpl; rewrite !insert_insert_eq;
    f_equal; f_equal; unfold set_totalPool; simpl; f_equal;
    rewrite i64_add_l; f_equal; lia.
Qed.

(** A reward never changes what an epoch pays per person. *)
Lemma AddBlockReward_keeps_allotment D height amount e :
  GetAmountPerPerson (AddBlockReward D height amount) e = GetAmountPerPerson D e.
Proof.
  unfold GetAmountPerPerson, GetPool, AddBlockReward, GetOrCreatePool.
  destruct (pools_ D !! HeightToEpoch height) as [pool|] eqn:Hpool; simpl.
  - destruct (decide (e = HeightToEpoch height)) as [->|Hne].
    + by rewrite lookup_insert_eq, Hpool.
    + by rewrite lookup_insert_ne.
  - rewrite insert_insert_eq. destruct (decide (e = HeightToEpoch height)) as [->|Hne].
    + by rewrite lookup_insert_eq, Hpool.
    + by rewrite lookup_insert_ne.
Qed.

(** ** Pruning *)

Lemma PruneOldPools_lookup D currentEpoch e :
  0 ≤ e →
  pools_ (PruneOldPools D currentEpoch) !! e
  = if decide (UBI_GRACE_EPOCHS + 10 < currentEpoch
               ∧ e < currentEpoch - UBI_GRACE_EPOCHS - 10)
    then None else pools_ D !! e.
Proof.
  intros He. unfold PruneOldPools. simpl.
  destruct (Z.gtb_spec currentEpoch (UBI_GRACE_EPOCHS + 10)) as [Hgt|Hle].
  - case_decide as Hpruned.
    + apply map_lookup_filter_None. right. intros p _. simpl. lia.
    + destruct (pools_ D !! e) as [p|] eqn:Hp.
      * apply map_lookup_filter_Some. split; [done|]. simpl. lia.
      * apply map_lookup_filter_None. by left.
  - rewrite decide_False by lia.
    destruct (pools_ D !! e) as [p|] eqn:Hp.
    + apply map_lookup_filter_Some. split; [done|]. simpl. lia.
    + apply map_lookup_filter_None. by left.
Qed.

(** X24. After [PruneOldPools currentEpoch] with
    [currentEpoch > UBI_GRACE_EPOCHS + 10], a claim for an epoch below
    [currentEpoch - UBI_GRACE_EPOCHS - 10] is answered
    [EpochNotComplete]. *)
Theorem PruneOldPools_pruned_epoch D currentEpoch claim identityTreeRoot currentHeight :
  0 ≤ claim_epoch claim →
  UBI_GRACE_EPOCHS + 10 < currentEpoch →
  claim_epoch claim < currentEpoch - UBI_GRACE_EPOCHS - 10 →
  (ProcessClaim (PruneOldPools D currentEpoch) claim identityTreeRoot currentHeight).1.1
  = EpochNotComplete.
Proof.
  intros Hepoch Hcur Hold. rewrite ProcessClaim_status. unfold first_failing_check.
  rewrite PruneOldPools_lookup by done. by rewrite decide_True.
Qed.

(** X25. Pruning and processing a claim for an epoch that pruning keeps
    commute: [ProcessClaim] on the pruned distributor returns the status and
    the claim it returns on the unpruned one, and leaves the pruned form of
    the distributor it leaves there. *)
Theorem PruneOldPools_retained_epoch D currentEpoch claim identityTreeRoot currentHeight :
  0 ≤ claim_epoch claim →
  ¬ (UBI_GRACE_EPOCHS + 10 < currentEpoch
     ∧ claim_epoch claim < currentEpoch - UBI_GRACE_EPOCHS - 10) →
  ProcessClaim (PruneOldPools D currentEpoch) claim identityTreeRoot currentHeight
  = ((ProcessClaim D claim identityTreeRoot currentHeight).1,
     PruneOldPools (ProcessClaim D claim identityTreeRoot currentHeight).2 currentEpoch).
Proof.
  intros Hepoch Hkept. unfold ProcessClaim. cbv zeta.
  change (claim_epoch (set_submitHeight currentHeight claim)) with (claim_epoch claim).
  rewrite PruneOldPools_lookup, decide_False by done. simpl.
  destruct (pools_ D !! claim_epoch claim) as [pool|]; [|done].
  destruct (isFinalized pool); [|done]. simpl.
  destruct (AcceptingClaims pool currentHeight); [|done]. simpl.
  destruct (amountPerPerson pool =? 0); [done|].
  destruct (IsNullifierUsed pool (claim_nullifier claim)); [done|].
  destruct (IsValid (claim_proof claim)); [|done]. simpl.
  destruct (bool_decide (GetType (claim_proof claim) = UBIClaimProof)); [|done].
  destruct (GetPublicInputs (claim_proof claim)) as [|v0 [|v1 [|v2 rest]]]; try done.
  simpl.
  destruct (bool_decide (v0 = _)); [|done].
  destruct (bool_decide (v2 = _)); [|done].
  destruct (Verify (claim_proof claim) "ubi_claim"); [|done].
  simpl. f_equal. unfold PruneOldPools. simpl. f_equal.
  symmetry. apply map_filter_insert_True. simpl.
  destruct (Z.gtb_spec currentEpoch (UBI_GRACE_EPOCHS + 10)); lia.
Qed.

End MoreClaimProofs.

Section StateProofs.
Context `{Identity} `{Constants}.

(** ** Unclaimed funds *)

(** X26. In every state of disciplined use, reloads included (with a cap
    that is an [Amount] and not negative), a finalized pool whose claim
    count does not exceed its eligible identities has an [UnclaimedAmount]
    that is not negative and adds up with [amountClaimed] to [totalPool]. *)
Theorem UnclaimedAmount_accounts D e pool :
  0 ≤ MAX_UBI_PER_PERSON < 2 ^ 63 →
  reachable_disciplined D →
  pools_ D !! e = Some pool →
  isFinalized pool = true →
  claimCount pool ≤ eligibleCount pool →
  0 ≤ UnclaimedAmount pool
  ∧ amountClaimed pool + UnclaimedAmount pool = totalPool pool.
Proof.
  intros Hmax HD Hpool Hf Hn.
  destruct (proj2 (reachable_disciplined_invariant Hmax D HD) e pool Hpool)
    as (Htp & Hcc & _ & Hac & _ & Hfin).
  destruct (Hfin Hf) as (Hec & Happ & Hle).
  assert (claimCount pool * amountPerPerson pool
          ≤ eligibleCount pool * amountPerPerson pool) by nia.
  assert (0 ≤ claimCount pool * amountPerPerson pool) by nia.
  unfold UnclaimedAmount.
  destruct (Z.gtb_spec (totalPool pool) (amountClaimed pool)).
  - rewrite i64_small by lia. lia.
  - lia.
Qed.

(** ** A failed load *)

(** X27. A load that fails after the header is not undone: on 13 to 65 bytes
    with version 1 and a pool count from 1 to 10 000, [Deserialize] returns
    [false] and has replaced the current epoch by the one read and dropped
    every pool. *)
Theorem Deserialize_truncated D data :
  (13 ≤ length data < 66)%nat →
  byte_at data 0 = 0x01 →
  0 < read_le data 9 4 ≤ 10000 →
  Deserialize D data
  = (false, mkUBIDistributor ∅ (read_le data 1 8)
              (totalDistributed_ D) (totalClaims_ D)).
Proof.
  intros Hlen Hversion Hcount. unfold Deserialize.
  destruct (Nat.ltb_spec (length data) 13); [lia|].
  rewrite Hversion. change (negb (1 =? 1)) with false. cbv iota zeta.
  destruct (Z.gtb_spec (read_le data 9 4) 10000); [lia|].
  destruct (Z.to_nat (read_le data 9 4)) as [|n] eqn:Hn; [lia|].
  cbn [deserialize_pools].
  destruct (Nat.ltb_spec (length data) (13 + 53)); [done|lia].
Qed.

End StateProofs.

Section ClaimantProofs.
Context `{Identity} `{Constants}.

Variable IdentitySecrets : Type.
Variable DeriveNullifier : IdentitySecrets → Z → Nullifier.

(** X28. When [CanClaim] holds for an epoch and a holder, [ProcessClaim] at
    the height after the end of the epoch, for a claim of that epoch under
    the nullifier derived for the holder, answers [Valid], [InvalidProof] or
    [PoolEmpty]: never [EpochNotComplete], [EpochExpired] or
    [DoubleClaim]. *)
Theorem CanClaim_ProcessClaim e secrets D claim identityTreeRoot :
  CanClaim IdentitySecrets DeriveNullifier e secrets D = true →
  claim_epoch claim = e →
  claim_nullifier claim = DeriveNullifier secrets e →
  (ProcessClaim D claim identityTreeRoot (i32 (EpochEndHeight e + 1))).1.1
  ∈ [Valid; InvalidProof; PoolEmpty].
Proof.
  intros Hcan Hepoch Hnullifier. rewrite ProcessClaim_status.
  revert Hcan. unfold CanClaim, IsEpochClaimable, GetPool, first_failing_check.
  rewrite Hepoch, Hnullifier. cbv zeta.
  destruct (pools_ D !! e) as [pool|]; [|done].
  unfold AcceptingClaims, IsNullifierUsed.
  destruct (isFinalized pool); simpl; [|done].
  rewrite Z.leb_antisym.
  destruct (claimDeadline pool <? _); simpl; [done|].
  destruct (bool_decide (DeriveNullifier secrets e ∈ usedNullifiers pool)); [done|].
  intros _.
  destruct (amountPerPerson pool =? 0); [rewrite !elem_of_cons; tauto|].
  destruct (negb _); rewrite !elem_of_cons; tauto.
Qed.

End ClaimantProofs.

Section ClaimFormatProofs.
Context `{Identity} `{!ClaimCodec}.

Lemma blob_field (data : list Z) off x rest :
  drop off data = x ++ rest →
  take (length x) (drop off data) = x ∧ drop (off + length x) data = rest.
Proof.
  intros Hdrop. split.
  - by rewrite Hdrop, take_app_length.
  - by rewrite <- drop_drop, Hdrop, drop_app_length.
Qed.

(** X29. [UBIClaim_Deserialize] gives a claim back from the bytes of
    [UBIClaim_Serialize] when its epoch fits the four bytes it is written
    in, its nullifier hash has 32 bytes and its recipient 20, the other
    fields fit their widths, and the codecs of the proof and of the status
    invert on it. *)
Theorem UBIClaim_Deserialize_Serialize claim :
  0 ≤ claim_epoch claim < 2 ^ 32 →
  length (nullifier_hash (claim_nullifier claim)) = 32%nat →
  0 ≤ nullifier_epoch (claim_nullifier claim) < 2 ^ 64 →
  length (claim_recipient claim) = 20%nat →
  - 2 ^ 31 ≤ claim_submitHeight claim < 2 ^ 31 →
  - 2 ^ 63 ≤ claim_amount claim < 2 ^ 63 →
  Z.of_nat (length (ToBytes (claim_proof claim))) < 2 ^ 32 →
  FromBytes (ToBytes (claim_proof claim)) = Some (claim_proof claim) →
  ClaimStatus_of_Byte (ClaimStatus_to_Byte (claim_status claim)) = claim_status claim →
  UBIClaim_Deserialize (UBIClaim_Serialize claim) = Some claim.
Proof.
  intros Hepoch Hhash Hnepoch Hrecipient Hheight Hamount Hsize Hproof Hstatus.
  destruct claim as [epoch [hash nepoch] recipient proof amount submitHeight status].
  cbn [claim_epoch claim_nullifier claim_recipient claim_proof claim_amount
       claim_submitHeight claim_status nullifier_hash nullifier_epoch] in *.
  set (proofBytes := ToBytes proof) in *.
  set (data := UBIClaim_Serialize _).
  assert (drop 0 data
          = push_le 4 epoch ++ hash ++ push_le 8 nepoch ++ recipient
            ++ push_le 4 submitHeight ++ [ClaimStatus_to_Byte status]
            ++ push_le 8 amount ++ push_le 4 (u32 (Z.of_nat (length proofBytes)))
            ++ proofBytes) as Hd0 by done.
  assert (length data = (81 + length proofBytes)%nat) as Hlen.
  { subst data. unfold UBIClaim_Serialize.
    cbn [claim_epoch claim_nullifier claim_recipient claim_proof claim_amount
         claim_submitHeight claim_status nullifier_hash nullifier_epoch].
    rewrite !length_app, !push_le_length, Hhash, Hrecipient. cbn [length].
    fold proofBytes. lia. }
  destruct (read_field _ _ _ _ _ Hd0) as [Hf_epoch Hd4]. cbn [Nat.add] in Hd4.
  destruct (blob_field _ _ _ _ Hd4) as [Hf_hash Hd36]. rewrite Hhash in Hf_hash, Hd36.
  cbn [Nat.add] in Hd36.
  destruct (read_field _ _ _ _ _ Hd36) as [Hf_nepoch Hd44]. cbn [Nat.add] in Hd44.
  destruct (blob_field _ _ _ _ Hd44) as [Hf_recipient Hd64].
  rewrite Hrecipient in Hf_recipient, Hd64. cbn [Nat.add] in Hd64.
  destruct (read_field _ _ _ _ _ Hd64) as [Hf_height Hd68]. cbn [Nat.add] in Hd68.
  destruct (byte_field _ _ _ _ Hd68) as [Hf_status Hd69]. cbn [Nat.add] in Hd69.
  destruct (read_field _ _ _ _ _ Hd69) as [Hf_amount Hd77]. cbn [Nat.add] in Hd77.
  destruct (read_field _ _ _ _ _ Hd77) as [Hf_size Hd81]. cbn [Nat.add] in Hd81.
  unfold UBIClaim_Deserialize.
  destruct (Nat.ltb_spec (length data) 77); [lia|].
  destruct (Nat.ltb_spec (length data) (77 + 4)); [lia|].
  cbv zeta.
  rewrite Hf_epoch, Hf_hash, Hf_nepoch, Hf_recipient, Hf_height, Hf_status,
    Hf_amount, Hf_size.
  change (Z.of_nat 4 * 8) with 32. change (Z.of_nat 8 * 8) with 64.
  rewrite (u32_small (Z.of_nat _)) by lia.
  rewrite (Z.mod_small (Z.of_nat _)) by lia.
  rewrite (Z.mod_small epoch), (Z.mod_small nepoch) by lia.
  rewrite i32_of_bits, i64_of_bits by lia.
  destruct (Z.ltb_spec (Z.of_nat (length data)) (81 + Z.of_nat (length proofBytes)));
    [lia|].
  rewrite Nat2Z.id, Hd81, take_ge by lia.
  by rewrite Hproof, Hstatus.
Qed.

(** Fewer than 81 bytes hold no claim. *)
Lemma UBIClaim_Deserialize_short data :
  (length data < 81)%nat → UBIClaim_Deserialize data = None.
Proof.
  intros Hlen. unfold UBIClaim_Deserialize.
  destruct (Nat.ltb_spec (length data) 77); [done|].
  destruct (Nat.ltb_spec (length data) (77 + 4)); [done|lia].
Qed.

End ClaimFormatProofs.

Section ReloadProofs.
Context `{Identity} `{Constants}.



End ReloadProofs.

(** ** The further theorems at the sample states *)

Lemma VerifyClaimOutputs_BuildClaimOutputs_witness :
  VerifyClaimOutputs (sample_claim 1 true) (BuildClaimOutputs (sample_claim 1 true) 100000)
  = (100000 >? 0).
Proof.
  apply (VerifyClaimOutputs_BuildClaimOutputs (sample_claim 1 true) 100000).
  reflexivity.
Defined.

Lemma ProcessClaim_pays_allotment_witness :
  claim_amount (ProcessClaim sample_funded (sample_claim 1 true) sample_root 3000).1.2
  = GetAmountPerPerson sample_funded 0
  ∧ claim_amount (ProcessClaim sample_funded (sample_claim 1 true) sample_root 3000).1.2
    ≠ 0
  ∧ GetAmountPerPerson
      (ProcessClaim sample_funded (sample_claim 1 true) sample_root 3000).2 0
    = claim_amount (ProcessClaim sample_funded (sample_claim 1 true) sample_root 3000).1.2
  ∧ totalDistributed_ (ProcessClaim sample_funded (sample_claim 1 true) sample_root 3000).2
    = i64 (totalDistributed_ sample_funded
           + claim_amount
               (ProcessClaim sample_funded (sample_claim 1 true) sample_root 3000).1.2)
  ∧ totalClaims_ (ProcessClaim sample_funded (sample_claim 1 true) sample_root 3000).2
    = u64 (totalClaims_ sample_funded + 1).
Proof.
  apply (ProcessClaim_pays_allotment sample_funded (sample_claim 1 true) sample_root 3000).
  vm_compute. reflexivity.
Defined.

Lemma AddBlockReward_accumulates_witness :
  AddBlockReward (AddBlockReward initial 10 500) 20 700 = AddBlockReward initial 20 1200.
Proof.
  apply (AddBlockReward_accumulates initial 10 500 20 700).
  reflexivity.
Defined.

Lemma PruneOldPools_pruned_epoch_witness :
  (ProcessClaim (PruneOldPools sample_funded 20) (sample_claim 1 true) sample_root 3000).1.1
  = EpochNotComplete.
Proof.
  apply (PruneOldPools_pruned_epoch sample_funded 20 (sample_claim 1 true) sample_root 3000).
  - simpl. lia.
  - simpl. lia.
  - simpl. lia.
Defined.

Lemma PruneOldPools_retained_epoch_witness :
  size (pools_ sample_two_epochs) = 2%nat
  ∧ size (pools_ (PruneOldPools sample_two_epochs 40)) = 1%nat
  ∧ (ProcessClaim sample_two_epochs sample_claim_epoch30 sample_root 90000).1.1 = Valid
  ∧ ProcessClaim (PruneOldPools sample_two_epochs 40) sample_claim_epoch30 sample_root 90000
    = ((ProcessClaim sample_two_epochs sample_claim_epoch30 sample_root 90000).1,
       PruneOldPools
         (ProcessClaim sample_two_epochs sample_claim_epoch30 sample_root 90000).2 40).
Proof.
  split; [vm_compute; reflexivity|]. split; [vm_compute; reflexivity|].
  split; [vm_compute; reflexivity|].
  apply (PruneOldPools_retained_epoch sample_two_epochs 40 sample_claim_epoch30
           sample_root 90000).
  - simpl. lia.
  - simpl. lia.
Defined.

Lemma UnclaimedAmount_accounts_witness :
  ∃ pool, pools_ sample_reloaded !! 0 = Some pool
          ∧ UnclaimedAmount pool = 800000
          ∧ 0 ≤ UnclaimedAmount pool
          ∧ amountClaimed pool + UnclaimedAmount pool = totalPool pool.
Proof.
  destruct (pools_ sample_reloaded !! 0) as [pool|] eqn:Hpool; [|by vm_compute in Hpool].
  exists pool. split; [done|].
  split; [vm_compute in Hpool; by injection Hpool as <-|].
  apply (UnclaimedAmount_accounts sample_reloaded 0 pool).
  - simpl. lia.
  - apply sample_reloaded_disciplined.
  - exact Hpool.
  - vm_compute in Hpool. by injection Hpool as <-.
  - vm_compute in Hpool. injection Hpool as <-. vm_compute. discriminate.
Defined.

Lemma Deserialize_truncated_witness :
  Deserialize sample_funded sample_truncated
  = (false, mkUBIDistributor ∅ (read_le sample_truncated 1 8)
              (totalDistributed_ sample_funded) (totalClaims_ sample_funded)).
Proof.
  apply (Deserialize_truncated sample_funded sample_truncated).
  - vm_compute. lia.
  - reflexivity.
  - vm_compute. split; [reflexivity|discriminate].
Defined.

Lemma CanClaim_ProcessClaim_witness :
  (ProcessClaim sample_funded (sample_claim 1 true) sample_root
     (i32 (EpochEndHeight 0 + 1))).1.1
  ∈ [Valid; InvalidProof; PoolEmpty].
Proof.
  apply (CanClaim_ProcessClaim Z sample_nullifier 0 1 sample_funded
           (sample_claim 1 true) sample_root).
  - vm_compute. reflexivity.
  - reflexivity.
  - reflexivity.
Defined.

Lemma UBIClaim_Deserialize_Serialize_witness :
  UBIClaim_Deserialize (UBIClaim_Serialize (sample_claim 1 true))
  = Some (sample_claim 1 true).
Proof.
  apply (UBIClaim_Deserialize_Serialize (sample_claim 1 true)).
  - simpl. lia.
  - reflexivity.
  - simpl. lia.
  - reflexivity.
  - simpl. lia.
  - simpl. lia.
  - simpl. lia.
  - reflexivity.
  - reflexivity.
Defined.

Lemma UBIClaim_Deserialize_short_witness :
  UBIClaim_Deserialize (replicate 80 0) = None.
Proof.
  apply (UBIClaim_Deserialize_short (replicate 80 0)).
  rewrite length_replicate. lia.
Defined.


End UBIProofs.
